(** * SnakeGame: the simulation engine of [script.js]

    A shallow embedding of the solo and solo-versus-AI engine of
    [script.js]: grid geometry, snakes and foods, the food spawner, the
    step engine, the effect and collision resolvers, the AI with its
    breadth-first search, and the tick scheduler, followed by the
    properties of the engine.

    Conventions of the embedding.
    - JavaScript numbers that hold integers (coordinates, score, tick
      interval, counters) are [Z]; [speedMultiplier] and [gameTime] are
      binary64 floats ([PrimFloat]), as in JavaScript.
    - The module-level [let] variables of the script are the fields of
      [State]; every function of the script that reads or writes them is a
      computation in the monad [M], which threads the state and can end in
      a thrown [TypeError] (reading a property of [undefined] or [null]).
    - [Math.random()] and [Date.now()] read an oracle carried in the
      state: the n-th call of [Math.random()] returns the binary64
      [randoms n mod 2^53 / 2^53]. What the script computes from it
      ([Math.random() * n], [Math.random() < p]) is computed in binary64.
    - Canvas drawing and the DOM are left out, except for the game-over
      panel, which is the engine's terminal outcome. *)

From Stdlib Require Import ZArith Lia PrimFloat SpecFloat FloatOps FloatAxioms Ascii.
From Stdlib Require Uint63.
From stdpp Require Import base gmap sets list strings pretty.

Local Open Scope Z_scope.

(** ** Config *)

Definition GRID : Z := 30.
Definition BASE_TICK : Z := 150.
Definition MIN_TICK : Z := 60.
Definition SCORE_PER_FOOD : Z := 1.

(** ** Cells: the objects [{x, y}]

    Cells and foods both have the properties [x] and [y]; here they are
    [cx], [cy] for a cell and [fx], [fy] for a food. *)

Record Cell : Type := mkCell { cx : Z; cy : Z }.

Definition eq (a b : Cell) : bool := (cx a =? cx b) && (cy a =? cy b).

Definition insideGrid (p : Cell) : bool :=
  (0 <=? cx p) && (cx p <? GRID) && (0 <=? cy p) && (cy p <? GRID).

(** ** Entities *)

Inductive Dir : Type := Up | Down | Left | Right.
Inductive Difficulty : Type := Easy | NormalAI | Hard.
Inductive FoodType : Type := Normal | Special.
Inductive Subtype : Type := Bonus | Slow | Poison | Invisible.
Inductive Mode : Type := Single | AI | MP.

(** The object built by [makeSnake] ([color] is only drawn);
    [difficulty] is the property [initGame] adds to the AI snake. *)
Record Snake : Type := mkSnake {
  body : list Cell;
  dir : Dir;
  alive : bool;
  pendingGrow : Z;
  speedMultiplier : float;
  difficulty : option Difficulty
}.

Definition set_body (v : list Cell) (s : Snake) : Snake :=
  mkSnake v (dir s) (alive s) (pendingGrow s) (speedMultiplier s) (difficulty s).
Definition set_dir (v : Dir) (s : Snake) : Snake :=
  mkSnake (body s) v (alive s) (pendingGrow s) (speedMultiplier s) (difficulty s).
Definition set_alive (v : bool) (s : Snake) : Snake :=
  mkSnake (body s) (dir s) v (pendingGrow s) (speedMultiplier s) (difficulty s).
Definition set_pendingGrow (v : Z) (s : Snake) : Snake :=
  mkSnake (body s) (dir s) (alive s) v (speedMultiplier s) (difficulty s).
Definition set_speedMultiplier (v : float) (s : Snake) : Snake :=
  mkSnake (body s) (dir s) (alive s) (pendingGrow s) v (difficulty s).
Definition set_difficulty (v : option Difficulty) (s : Snake) : Snake :=
  mkSnake (body s) (dir s) (alive s) (pendingGrow s) (speedMultiplier s) v.

Definition makeSnake (initialCells : list Cell) : Snake :=
  {| body := initialCells; dir := Right; alive := true; pendingGrow := 0;
     speedMultiplier := PrimFloat.one; difficulty := None |}.

(** The object built by [placeFood]: [{x, y, type, spawnedAt}] and, for a
    special food, [subtype]. *)
Record Food : Type := mkFood {
  fx : Z;
  fy : Z;
  ftype : FoodType;
  subtype : option Subtype;
  spawnedAt : Z
}.

(** A food read as a cell, as [eq(f, head)] and [bfsPath(head, target)] do. *)
Definition foodCell (f : Food) : Cell := {| cx := fx f; cy := fy f |}.

(** The text [showGameOver] puts on the game-over panel, with the score
    it quotes. *)
Inductive GameOverMsg : Type :=
  | GameOver (score : Z)       (* `Game Over — Score ${score}` *)
  | YouDied (score : Z)        (* `You Died — Score ${score}` *)
  | AIDied (score : Z)         (* `AI Died — You Win! Score ${score}` *)
  | BothDied (score : Z).      (* `Both Died — Score ${score}` *)

(** The argument of [onPlayerDie]. *)
Inductive Which : Type := WhichPlayer | WhichAI | WhichBoth.

(** Which of the two global snakes a call is handed. *)
Inductive Who : Type := Player | Opponent.

(** ** Game state: the script's module-level variables *)

Record State : Type := mkState {
  mode : option Mode;                (* null, 'single', 'ai', 'mp' *)
  running : bool;
  tickInterval : Z;
  tickTimer : option Z;              (* the armed setInterval, with its period *)
  score : Z;
  playerDir : Dir;
  invisibleTailTicks : Z;
  speedBoost : Z;
  playerSnake : option Snake;
  aiSnake : option Snake;
  foods : list Food;
  gameTime : float;
  aiDifficulty : Difficulty;
  roomState : option (option (list Food));  (* roomState, then roomState.foods *)
  specialTimer : bool;               (* window.specialTimer is armed *)
  slowTimers : nat;                  (* pending 3000 ms timeouts of the slow food *)
  gameOverPanel : option GameOverMsg;(* the panel is shown, with this text *)
  randoms : nat → Z;                 (* oracle of Math.random() *)
  drawn : nat;                       (* calls of Math.random() so far *)
  clock : nat → Z;                   (* oracle of Date.now() *)
  clockReads : nat
}.

Definition set_mode v s := mkState v (running s) (tickInterval s) (tickTimer s) (score s) (playerDir s) (invisibleTailTicks s) (speedBoost s) (playerSnake s) (aiSnake s) (foods s) (gameTime s) (aiDifficulty s) (roomState s) (specialTimer s) (slowTimers s) (gameOverPanel s) (randoms s) (drawn s) (clock s) (clockReads s).
Definition set_running v s := mkState (mode s) v (tickInterval s) (tickTimer s) (score s) (playerDir s) (invisibleTailTicks s) (speedBoost s) (playerSnake s) (aiSnake s) (foods s) (gameTime s) (aiDifficulty s) (roomState s) (specialTimer s) (slowTimers s) (gameOverPanel s) (randoms s) (drawn s) (clock s) (clockReads s).
Definition set_tickInterval v s := mkState (mode s) (running s) v (tickTimer s) (score s) (playerDir s) (invisibleTailTicks s) (speedBoost s) (playerSnake s) (aiSnake s) (foods s) (gameTime s) (aiDifficulty s) (roomState s) (specialTimer s) (slowTimers s) (gameOverPanel s) (randoms s) (drawn s) (clock s) (clockReads s).
Definition set_tickTimer v s := mkState (mode s) (running s) (tickInterval s) v (score s) (playerDir s) (invisibleTailTicks s) (speedBoost s) (playerSnake s) (aiSnake s) (foods s) (gameTime s) (aiDifficulty s) (roomState s) (specialTimer s) (slowTimers s) (gameOverPanel s) (randoms s) (drawn s) (clock s) (clockReads s).
Definition set_score v s := mkState (mode s) (running s) (tickInterval s) (tickTimer s) v (playerDir s) (invisibleTailTicks s) (speedBoost s) (playerSnake s) (aiSnake s) (foods s) (gameTime s) (aiDifficulty s) (roomState s) (specialTimer s) (slowTimers s) (gameOverPanel s) (randoms s) (drawn s) (clock s) (clockReads s).
Definition set_playerDir v s := mkState (mode s) (running s) (tickInterval s) (tickTimer s) (score s) v (invisibleTailTicks s) (speedBoost s) (playerSnake s) (aiSnake s) (foods s) (gameTime s) (aiDifficulty s) (roomState s) (specialTimer s) (slowTimers s) (gameOverPanel s) (randoms s) (drawn s) (clock s) (clockReads s).
Definition set_invisibleTailTicks v s := mkState (mode s) (running s) (tickInterval s) (tickTimer s) (score s) (playerDir s) v (speedBoost s) (playerSnake s) (aiSnake s) (foods s) (gameTime s) (aiDifficulty s) (roomState s) (specialTimer s) (slowTimers s) (gameOverPanel s) (randoms s) (drawn s) (clock s) (clockReads s).
Definition set_speedBoost v s := mkState (mode s) (running s) (tickInterval s) (tickTimer s) (score s) (playerDir s) (invisibleTailTicks s) v (playerSnake s) (aiSnake s) (foods s) (gameTime s) (aiDifficulty s) (roomState s) (specialTimer s) (slowTimers s) (gameOverPanel s) (randoms s) (drawn s) (clock s) (clockReads s).
Definition set_playerSnake v s := mkState (mode s) (running s) (tickInterval s) (tickTimer s) (score s) (playerDir s) (invisibleTailTicks s) (speedBoost s) v (aiSnake s) (foods s) (gameTime s) (aiDifficulty s) (roomState s) (specialTimer s) (slowTimers s) (gameOverPanel s) (randoms s) (drawn s) (clock s) (clockReads s).
Definition set_aiSnake v s := mkState (mode s) (running s) (tickInterval s) (tickTimer s) (score s) (playerDir s) (invisibleTailTicks s) (speedBoost s) (playerSnake s) v (foods s) (gameTime s) (aiDifficulty s) (roomState s) (specialTimer s) (slowTimers s) (gameOverPanel s) (randoms s) (drawn s) (clock s) (clockReads s).
Definition set_foods v s := mkState (mode s) (running s) (tickInterval s) (tickTimer s) (score s) (playerDir s) (invisibleTailTicks s) (speedBoost s) (playerSnake s) (aiSnake s) v (gameTime s) (aiDifficulty s) (roomState s) (specialTimer s) (slowTimers s) (gameOverPanel s) (randoms s) (drawn s) (clock s) (clockReads s).
Definition set_gameTime v s := mkState (mode s) (running s) (tickInterval s) (tickTimer s) (score s) (playerDir s) (invisibleTailTicks s) (speedBoost s) (playerSnake s) (aiSnake s) (foods s) v (aiDifficulty s) (roomState s) (specialTimer s) (slowTimers s) (gameOverPanel s) (randoms s) (drawn s) (clock s) (clockReads s).
Definition set_aiDifficulty v s := mkState (mode s) (running s) (tickInterval s) (tickTimer s) (score s) (playerDir s) (invisibleTailTicks s) (speedBoost s) (playerSnake s) (aiSnake s) (foods s) (gameTime s) v (roomState s) (specialTimer s) (slowTimers s) (gameOverPanel s) (randoms s) (drawn s) (clock s) (clockReads s).
Definition set_specialTimer v s := mkState (mode s) (running s) (tickInterval s) (tickTimer s) (score s) (playerDir s) (invisibleTailTicks s) (speedBoost s) (playerSnake s) (aiSnake s) (foods s) (gameTime s) (aiDifficulty s) (roomState s) v (slowTimers s) (gameOverPanel s) (randoms s) (drawn s) (clock s) (clockReads s).
Definition set_slowTimers v s := mkState (mode s) (running s) (tickInterval s) (tickTimer s) (score s) (playerDir s) (invisibleTailTicks s) (speedBoost s) (playerSnake s) (aiSnake s) (foods s) (gameTime s) (aiDifficulty s) (roomState s) (specialTimer s) v (gameOverPanel s) (randoms s) (drawn s) (clock s) (clockReads s).
Definition set_gameOverPanel v s := mkState (mode s) (running s) (tickInterval s) (tickTimer s) (score s) (playerDir s) (invisibleTailTicks s) (speedBoost s) (playerSnake s) (aiSnake s) (foods s) (gameTime s) (aiDifficulty s) (roomState s) (specialTimer s) (slowTimers s) v (randoms s) (drawn s) (clock s) (clockReads s).
Definition set_drawn v s := mkState (mode s) (running s) (tickInterval s) (tickTimer s) (score s) (playerDir s) (invisibleTailTicks s) (speedBoost s) (playerSnake s) (aiSnake s) (foods s) (gameTime s) (aiDifficulty s) (roomState s) (specialTimer s) (slowTimers s) (gameOverPanel s) (randoms s) v (clock s) (clockReads s).
Definition set_clockReads v s := mkState (mode s) (running s) (tickInterval s) (tickTimer s) (score s) (playerDir s) (invisibleTailTicks s) (speedBoost s) (playerSnake s) (aiSnake s) (foods s) (gameTime s) (aiDifficulty s) (roomState s) (specialTimer s) (slowTimers s) (gameOverPanel s) (randoms s) (drawn s) (clock s) v.

Definition getSnake (who : Who) (s : State) : option Snake :=
  match who with Player => playerSnake s | Opponent => aiSnake s end.
Definition setSnake (who : Who) (v : Snake) (s : State) : State :=
  match who with
  | Player => set_playerSnake (Some v) s
  | Opponent => set_aiSnake (Some v) s
  end.

(** ** The monad of the script's functions

    A call either returns a value and the state it leaves ([Ok]) or
    throws a [TypeError], leaving the state as mutated up to the throw
    ([Throw]). *)

Inductive Res (A : Type) : Type :=
  | Ok (a : A) (s : State)
  | Throw (s : State).
Arguments Ok {A} a s.
Arguments Throw {A} s.

Definition M (A : Type) : Type := State → Res A.

Definition ret {A : Type} (a : A) : M A := λ s, Ok a s.

Definition bind {A B : Type} (m : M A) (f : A → M B) : M B := λ s,
  match m s with
  | Ok a s' => f a s'
  | Throw s' => Throw s'
  end.

Declare Scope M_scope.
Delimit Scope M_scope with M.
Bind Scope M_scope with M.
Notation "x ← y ; z" := (bind y (λ x, z))
  (at level 20, y at level 100, z at level 200, only parsing) : M_scope.
Notation "x ;; z" := (bind x (λ _, z))
  (at level 100, z at level 200, only parsing, right associativity) : M_scope.
Local Open Scope M_scope.

Definition get : M State := λ s, Ok s s.
Definition modify (f : State → State) : M unit := λ s, Ok () (f s).
Definition throwTypeError {A : Type} : M A := λ s, Throw s.

(** The state a call leaves, returned or thrown. *)
Definition outcome {A : Type} (r : Res A) : State :=
  match r with Ok _ s => s | Throw s => s end.

(** [for (const a of l) f(a)] *)
Fixpoint forEach {A : Type} (l : list A) (f : A → M unit) : M unit :=
  match l with
  | [] => ret ()
  | a :: l' => f a ;; forEach l' f
  end.

(** [snake.field = ...] on one of the two global snakes; the receiver
    [null] throws. *)
Definition updateSnake (who : Who) (f : Snake → Snake) : M unit :=
  s ← get;
  match getSnake who s with
  | Some snake => modify (setSnake who (f snake))
  | None => throwTypeError
  end.

(** Reading a property of one of the two global snakes; [null] throws. *)
Definition readSnake (who : Who) : M Snake :=
  s ← get;
  match getSnake who s with
  | Some snake => ret snake
  | None => throwTypeError
  end.

(** [eq(a, b)] on values that may be [undefined] (an index past the end
    of an array): reading [.x] of [undefined] throws. *)
Definition eqJS (a b : option Cell) : M bool :=
  match a, b with
  | Some a, Some b => ret (eq a b)
  | _, _ => throwTypeError
  end.

(** ** Oracles *)

Definition two53 : Z := 2 ^ 53.

(** [Math.random()]: the numerator [d] of the sample [d / 2^53]. *)
Definition Math_random : M Z := λ s,
  Ok (randoms s (drawn s) mod two53) (set_drawn (S (drawn s)) s).

(** The binary64 of an integer [0 ≤ z < 2^63]; it is exact up to [2^53]. *)
Definition toFloat (z : Z) : float := PrimFloat.of_uint63 (Uint63.of_Z z).

(** The binary64 [d / 2^53], the value of [Math.random()] with the
    numerator [d]. *)
Definition unitFloat (d : Z) : float := PrimFloat.div (toFloat d) (toFloat two53).

(** [Math.floor(x)] for a finite [x]; the script floors no [NaN] and no
    infinity (here 0). *)
Definition Math_floor (x : float) : Z :=
  match Prim2SF x with
  | S754_finite sign m e => Z.shiftl (if sign then Zneg m else Zpos m) e
  | _ => 0
  end.

(** [Math.floor(r * n)] for the sample [r] with the numerator [d]. *)
Definition floorTimes (n d : Z) : Z :=
  Math_floor (PrimFloat.mul (unitFloat d) (toFloat n)).

Arguments unitFloat : simpl never.
Arguments Math_floor : simpl never.
Arguments floorTimes : simpl never.

(** [Math.floor(Math.random() * n)] *)
Definition randomBelow (n : Z) : M Z :=
  d ← Math_random; ret (floorTimes n d).

(** [Math.random() < p] *)
Definition randomLess (p : float) : M bool :=
  d ← Math_random; ret (PrimFloat.ltb (unitFloat d) p).

Definition Date_now : M Z := λ s,
  Ok (clock s (clockReads s)) (set_clockReads (S (clockReads s)) s).

(** ** Utility helpers *)

Definition randCell : M Cell :=
  rx ← randomBelow GRID; ry ← randomBelow GRID; ret {| cx := rx; cy := ry |}.

(** [a.pop()] as a statement: drops the last element, if any. *)
Definition pop {A : Type} (l : list A) : list A := take (length l - 1)%nat l.

(** ** Food spawner *)

Definition someEq (l : list Cell) (pos : Cell) : bool :=
  existsb (λ s, eq s pos) l.

Definition collisionAt (pos : Cell) : M bool :=
  s ← get;
  if match playerSnake s with Some p => someEq (body p) pos | None => false end
  then ret true
  else if match aiSnake s with Some a => someEq (body a) pos | None => false end
  then ret true
  else ret false.

Definition randomSpecialSubtype : M Subtype :=
  i ← randomBelow 4;
  ret (match i with 0 => Bonus | 1 => Slow | 2 => Poison | _ => Invisible end).

(** The loop of [placeFood], with [n] attempts left. *)
Fixpoint placeFoodFrom (n : nat) (type : FoodType) : M (option Food) :=
  match n with
  | O => ret None
  | S n' =>
      pos ← randCell;
      hit ← collisionAt pos;
      if hit then placeFoodFrom n' type
      else
        now ← Date_now;
        sub ← match type with
              | Special => st ← randomSpecialSubtype; ret (Some st)
              | Normal => ret None
              end;
        let f := {| fx := cx pos; fy := cy pos; ftype := type;
                    subtype := sub; spawnedAt := now |} in
        modify (λ s, set_foods (foods s ++ [f]) s);;
        ret (Some f)
  end.

Definition placeFood (type : FoodType) : M (option Food) :=
  placeFoodFrom 200 type.

(** ** Tick timer *)

Definition startTick : M unit :=
  modify (λ s, set_running true (set_tickTimer (Some (tickInterval s)) s)).

Definition stopTick : M unit :=
  modify (λ s, set_running false (set_tickTimer None s)).

Definition newTickOf (s : State) : Z :=
  Z.max MIN_TICK (BASE_TICK - score s / 5 * 10 - speedBoost s).

Definition setSpeedFromScore : M unit :=
  s ← get;
  let newTick := newTickOf s in
  if negb (newTick =? tickInterval s) then
    modify (set_tickInterval newTick);;
    s ← get;
    if running s then startTick else ret ()
  else ret ().

(** ** Terminal outcome *)

Definition showGameOver (msg : GameOverMsg) : M unit :=
  modify (set_gameOverPanel (Some msg)).

Definition onPlayerDie (which : Which) : M unit :=
  s ← get;
  match mode s with
  | Some Single => showGameOver (GameOver (score s))
  | Some AI =>
      match which with
      | WhichPlayer => showGameOver (YouDied (score s))
      | WhichAI => showGameOver (AIDied (score s))
      | WhichBoth => showGameOver (BothDied (score s))
      end
  | _ => ret ()
  end;;
  stopTick.

(** ** Step engine *)

(** The head after the [switch] of [stepSnake]. *)
Definition moved (head : Cell) (d : Dir) : Cell :=
  match d with
  | Up => {| cx := cx head; cy := cy head - 1 |}
  | Down => {| cx := cx head; cy := cy head + 1 |}
  | Left => {| cx := cx head - 1; cy := cy head |}
  | Right => {| cx := cx head + 1; cy := cy head |}
  end.

(** The computed new head of a body. For an empty body the script's
    [{...snake.body[0]}] is [{}] and the moved coordinate is [NaN]: not a
    cell ([None]), and outside the grid for [insideGrid]. *)
Definition newHead (b : list Cell) (d : Dir) : option Cell :=
  match b with
  | [] => None
  | h :: _ => Some (moved h d)
  end.

Definition whichOf (who : Who) : Which :=
  match who with Player => WhichPlayer | Opponent => WhichAI end.

Definition kill (who : Who) : M unit := updateSnake who (set_alive false).

(** [stepSnake(playerSnake, dir)] and [stepSnake(aiSnake, dir)]; the test
    [snake === playerSnake] is the choice of [who]. *)
Definition stepSnake (who : Who) (d : Dir) : M unit :=
  s ← get;
  match getSnake who s with
  | None => ret ()
  | Some snake =>
      if negb (alive snake) then ret ()
      else
        match newHead (body snake) d with
        | Some head =>
            if negb (insideGrid head) then
              kill who;; onPlayerDie (whichOf who)
            else
              updateSnake who (λ sn, set_body (head :: body sn) sn);;
              sn ← readSnake who;
              if 0 <? pendingGrow sn
              then updateSnake who (λ sn, set_pendingGrow (pendingGrow sn - 1) sn)
              else updateSnake who (λ sn, set_body (pop (body sn)) sn)
        | None => kill who;; onPlayerDie (whichOf who)
        end
  end.

(** ** Effect resolver *)

(** The literal [1.03], as the binary64 value JavaScript reads it. *)
Definition speedUp : float := 0x1.07ae147ae147bp+0%float.

(** [consumeFood(snake, food, eater)], called with [playerSnake],
    ['player'] or with [aiSnake], ['ai']: the choice of [who]. The
    [setTimeout] of the slow food is counted in [slowTimers]; for the
    invisible food, [Math.floor(5000 / tickInterval)] is the integer
    quotient, the interval being positive. *)
Definition consumeFood (who : Who) (food : Food) : M unit :=
  match ftype food with
  | Normal =>
      updateSnake who (λ sn, set_pendingGrow (pendingGrow sn + 1) sn);;
      match who with
      | Player => modify (λ s, set_score (score s + SCORE_PER_FOOD) s)
      | Opponent => ret ()
      end;;
      updateSnake who
        (λ sn, set_speedMultiplier (PrimFloat.mul (speedMultiplier sn) speedUp) sn);;
      modify (λ s, set_speedBoost (Z.max 0 (speedBoost s - 2)) s);;
      _ ← placeFood Normal;
      ret ()
  | Special =>
      match subtype food with
      | Some Bonus =>
          match who with
          | Player => modify (λ s, set_score (score s + 5) s)
          | Opponent => ret ()
          end;;
          updateSnake who (λ sn, set_pendingGrow (pendingGrow sn + 2) sn)
      | Some Slow =>
          modify (λ s, set_tickInterval (Z.min 400 (tickInterval s + 120)) s);;
          modify (λ s, set_slowTimers (S (slowTimers s)) s)
      | Some Poison =>
          match who with
          | Player => modify (λ s, set_score (Z.max 0 (score s - 2)) s)
          | Opponent => ret ()
          end;;
          updateSnake who (λ sn, set_body (pop (body sn)) sn);;
          updateSnake who (λ sn, set_body (pop (body sn)) sn)
      | Some Invisible =>
          match who with
          | Player =>
              modify (λ s, set_invisibleTailTicks (5000 / tickInterval s) s)
          | Opponent => ret ()
          end
      | None => ret ()
      end
  end.

(** [foods.splice(i, 1)] *)
Definition splice (i : nat) : M unit :=
  modify (λ s, set_foods (delete i (foods s)) s).

(** One pass of the loop body of [handleFoodCollisions], at index [i]. *)
Definition foodStep (i : nat) : M unit :=
  s ← get;
  let f := foods s !! i in
  p ← readSnake Player;
  hit ← eqJS (foodCell <$> f) (head (body p));
  if hit then
    match f with
    | Some f => consumeFood Player f;; splice i
    | None => throwTypeError
    end
  else
    match aiSnake s with
    | Some a =>
        if alive a then
          hit ← eqJS (foodCell <$> f) (head (body a));
          if hit then
            match f with
            | Some f => consumeFood Opponent f;; splice i
            | None => throwTypeError
            end
          else ret ()
        else ret ()
    | None => ret ()
    end.

(** [for (let i = n - 1; i >= 0; i--)] *)
Fixpoint foodLoop (n : nat) : M unit :=
  match n with
  | O => ret ()
  | S i => foodStep i;; foodLoop i
  end.

Definition handleFoodCollisions : M unit :=
  s ← get;
  foodLoop (length (foods s)).

(** ** Collision resolver *)

(** The self-collision loop: [for (i = 1; i < body.length; i++)]. *)
Definition selfCollision (who : Who) : M unit :=
  sn ← readSnake who;
  match body sn with
  | [] => ret ()
  | h :: rest =>
      forEach rest (λ seg,
        if eq h seg then kill who;; onPlayerDie (whichOf who) else ret ())
  end.

(** [for (let seg of other.body) if (eq(mine.body[0], seg)) ...] *)
Definition headIntoBody (mine other : Who) : M unit :=
  o ← readSnake other;
  forEach (body o) (λ seg,
    m ← readSnake mine;
    hit ← eqJS (head (body m)) (Some seg);
    if hit then kill mine;; onPlayerDie (whichOf mine) else ret ()).

(** The block [// player vs ai collisions]. *)
Definition playerVsAi : M unit :=
  s ← get;
  match aiSnake s with
  | None => ret ()
  | Some a =>
      if negb (alive a) then ret ()
      else
        selfCollision Opponent;;
        p ← readSnake Player;
        (if alive p then
           a ← readSnake Opponent;
           hit ← eqJS (head (body p)) (head (body a));
           if hit then kill Player;; kill Opponent;; onPlayerDie WhichBoth
           else ret ()
         else ret ());;
        p ← readSnake Player;
        (if alive p then headIntoBody Player Opponent else ret ());;
        a ← readSnake Opponent;
        (if alive a then headIntoBody Opponent Player else ret ())
  end.

Definition handleCollisionsSingleMode : M unit :=
  p ← readSnake Player;
  (if alive p then selfCollision Player else ret ());;
  playerVsAi.

(** ** AI decision module *)

(** The loop of [findNearestFood]: [best] with [bestDist], where [None]
    stands for the initial [null] and [Infinity]. *)
Definition nearer (pos : Cell) (acc : option (Food * Z)) (f : Food)
    : option (Food * Z) :=
  let d := Z.abs (fx f - cx pos) + Z.abs (fy f - cy pos) in
  match acc with
  | None => Some (f, d)
  | Some (_, bestDist) => if d <? bestDist then Some (f, d) else acc
  end.

Definition findNearestFood (pos : option Cell) : M (option Food) :=
  s ← get;
  match foods s with
  | [] => ret None
  | _ =>
      match pos with
      | None => throwTypeError
      | Some pos => ret (fst <$> fold_left (nearer pos) (foods s) None)
      end
  end.

(** [key(p)]: the template string of the two coordinates. *)
Definition key (p : Cell) : string := pretty (cx p) +:+ "," +:+ pretty (cy p).

Definition neighbors (p : Cell) : list Cell :=
  [ {| cx := cx p + 1; cy := cy p |}; {| cx := cx p - 1; cy := cy p |};
    {| cx := cx p; cy := cy p + 1 |}; {| cx := cx p; cy := cy p - 1 |} ].

(** The search state: the set [visited] and the queue [q] of entries
    [{p, path}]. *)
Definition Search : Type := gset string * list (Cell * list Cell).

(** One pass of [for (const n of neighbors)], from the entry with path
    [path]. *)
Definition visit (goal : Cell) (obstacles : gset string) (path : list Cell)
    (acc : Search) (n : Cell) : Search :=
  let kn := key n in
  if negb (insideGrid n) then acc
  else if bool_decide (kn ∈ acc.1) then acc
  else if bool_decide (kn ∈ obstacles) && negb (eq n goal) then acc
  else ({[ kn ]} ∪ acc.1, acc.2 ++ [(n, path ++ [n])]).

(** The [while (q.length)] loop, run for at most [fuel] passes: [None] is
    a loop cut short, [Some None] the script's [null]. *)
Fixpoint bfsLoop (fuel : nat) (goal : Cell) (obstacles : gset string)
    (visited : gset string) (q : list (Cell * list Cell))
    : option (option (list Cell)) :=
  match fuel with
  | O => None
  | S fuel' =>
      match q with
      | [] => Some None
      | (p, path) :: q' =>
          if eq p goal then Some (Some path)
          else
            let '(visited', q'') :=
              fold_left (visit goal obstacles path) (neighbors p) (visited, q') in
            bfsLoop fuel' goal obstacles visited' q''
      end
  end.

(** Passes that always suffice: every cell of the grid is queued at most
    once, after the start. *)
Definition bfsFuel : nat := Z.to_nat (GRID * GRID + 2).

Definition keysOf (l : list Cell) : gset string := list_to_set (key <$> l).

Definition bfsSearch (start goal : Cell) (obstacles : gset string)
    : option (option (list Cell)) :=
  bfsLoop bfsFuel goal obstacles {[ key start ]} [(start, [start])].

(** The obstacle set [bfsPath] builds from the two global snakes. *)
Definition obstaclesOf (s : State) : gset string :=
  match playerSnake s with Some p => keysOf (body p) | None => ∅ end ∪
  match aiSnake s with Some a => keysOf (body a) | None => ∅ end.

(** [bfsPath(start, goal, selfSnake)]; [selfSnake] is not used by the
    script. *)
Definition bfsPath (start goal : Cell) : M (option (list Cell)) :=
  s ← get;
  ret (default None (bfsSearch start goal (obstaclesOf s))).

Definition choices (i : Z) : Dir :=
  match i with 0 => Up | 1 => Down | 2 => Left | _ => Right end.

Definition setAiDir (d : Dir) : M unit := updateSnake Opponent (set_dir d).

Definition randomDir : M unit :=
  i ← randomBelow 4; setAiDir (choices i).

Definition when (b : bool) (m : M unit) : M unit := if b then m else ret ().

Definition stepAi : M unit :=
  a ← readSnake Opponent; stepSnake Opponent (dir a).

Definition aiStep : M unit :=
  a ← readSnake Opponent;
  if negb (alive a) then ret ()
  else
    let head := head (body a) in
    match difficulty a with
    | Some Easy =>
        r ← randomLess 0x1.999999999999ap-3%float;     (* 0.2 *)
        when r randomDir;;
        match head with
        | None => throwTypeError
        | Some h =>
            when (cx h <? 2) (setAiDir Right);;
            when (GRID - 3 <? cx h) (setAiDir Left);;
            when (cy h <? 2) (setAiDir Down);;
            when (GRID - 3 <? cy h) (setAiDir Up);;
            stepAi
        end
    | _ =>
        target ← findNearestFood head;
        match target, head with
        | None, _ => stepAi
        | Some _, None => throwTypeError
        | Some t, Some h =>
            path ← bfsPath h (foodCell t);
            match path with
            | Some (_ :: next :: _) =>
                when (cx h <? cx next) (setAiDir Right);;
                when (cx next <? cx h) (setAiDir Left);;
                when (cy h <? cy next) (setAiDir Down);;
                when (cy next <? cy h) (setAiDir Up)
            | _ => randomDir
            end;;
            match difficulty a with
            | Some NormalAI =>
                r ← randomLess 0x1.eb851eb851eb8p-4%float;  (* 0.12 *)
                when r randomDir
            | _ => ret ()
            end;;
            stepAi
        end
    end.

(** ** Tick scheduler *)

Fixpoint floatOfPositive (p : positive) : float :=
  match p with
  | xH => PrimFloat.one
  | xO p' => PrimFloat.mul PrimFloat.two (floatOfPositive p')
  | xI p' =>
      PrimFloat.add (PrimFloat.mul PrimFloat.two (floatOfPositive p')) PrimFloat.one
  end.

(** The binary64 value of an integer (exact below [2^53]). *)
Definition floatOfZ (z : Z) : float :=
  match z with
  | Z0 => PrimFloat.zero
  | Zpos p => floatOfPositive p
  | Zneg p => PrimFloat.opp (floatOfPositive p)
  end.

Definition isSpecial (f : Food) : bool :=
  match ftype f with Special => true | Normal => false end.

(** [gameTick], without the drawing. In mode ['mp'] the tick copies the
    foods of the server's snapshot for drawing. *)
Definition gameTick : M unit :=
  modify (λ s, set_gameTime
    (PrimFloat.add (gameTime s)
       (PrimFloat.div (floatOfZ (tickInterval s)) (floatOfZ 1000))) s);;
  s ← get;
  match mode s with
  | Some Single | Some AI =>
      stepSnake Player (playerDir s);;
      s ← get;
      match mode s, aiSnake s with
      | Some AI, Some a => when (alive a) aiStep
      | _, _ => ret ()
      end;;
      handleFoodCollisions;;
      handleCollisionsSingleMode;;
      setSpeedFromScore;;
      s ← get;
      when (0 <? invisibleTailTicks s)
        (modify (set_invisibleTailTicks (invisibleTailTicks s - 1)))
  | Some MP =>
      match roomState s with
      | Some snapshotFoods => modify (set_foods (default [] snapshotFoods))
      | None => ret ()
      end
  | None => ret ()
  end.

(** The callback of [window.specialTimer], every 10 s. *)
Definition specialSpawn : M unit :=
  s ← get;
  if existsb isSpecial (foods s) then ret ()
  else
    r ← randomLess 0x1.3333333333333p-1%float;         (* 0.6 *)
    if r then _ ← placeFood Special; ret () else ret ().

(** The callback of the slow food's [setTimeout], after 3 s. *)
Definition slowExpiry : M unit :=
  modify (λ s, set_slowTimers (Nat.pred (slowTimers s)) s);;
  modify (λ s, set_tickInterval (newTickOf s) s);;
  s ← get;
  when (running s) startTick.

(** ** Match start *)

(** [initGame], without the reset of the DOM and, for mode ['mp'], the
    opening of the WebSocket. The first food is placed while [aiSnake]
    still holds the snake of the match before. *)
Definition initGame : M unit :=
  stopTick;;
  modify (set_foods []);;
  modify (set_score 0);;
  modify (set_tickInterval BASE_TICK);;
  modify (set_speedBoost 0);;
  modify (set_gameTime PrimFloat.zero);;
  modify (set_invisibleTailTicks 0);;
  modify (set_playerDir Right);;
  let mid := GRID / 2 in
  modify (set_playerSnake (Some (makeSnake
    [ {| cx := mid - 2; cy := mid |}; {| cx := mid - 3; cy := mid |};
      {| cx := mid - 4; cy := mid |} ])));;
  _ ← placeFood Normal;
  modify (set_specialTimer true);;
  s ← get;
  match mode s with
  | Some AI =>
      let pos := {| cx := GRID * 2 / 10; cy := GRID * 2 / 10 |} in
      modify (set_aiSnake (Some
        (set_difficulty (Some (aiDifficulty s))
          (set_dir Right (makeSnake
            [ pos; {| cx := cx pos - 1; cy := cy pos |};
              {| cx := cx pos - 2; cy := cy pos |} ])))))
  | _ => modify (set_aiSnake None)
  end;;
  modify (set_gameOverPanel None).

Definition startIfSimulated : M unit :=
  s ← get;
  match mode s with
  | Some Single | Some AI => startTick
  | _ => ret ()
  end.

Definition startMenuMode (m : Mode) : M unit :=
  modify (set_mode (Some m));;
  initGame;;
  startIfSimulated.

Definition startAIMode (diff : Difficulty) : M unit :=
  modify (set_aiDifficulty diff);;
  startMenuMode AI.

Definition restartGame : M unit := initGame;; startIfSimulated.

Definition backToMenu : M unit := stopTick.

Definition togglePause : M unit :=
  s ← get;
  if running s then stopTick else startTick.

(** ** Input *)

Inductive Key : Type := KeyW | KeyS | KeyA | KeyD | KeyP | KeyOther.

Definition turn (blocked wanted : Dir) : M unit :=
  s ← get;
  match playerDir s, blocked with
  | Up, Up | Down, Down | Left, Left | Right, Right => ret ()
  | _, _ => modify (set_playerDir wanted)
  end.

(** The [keydown] listener, without the sending of the direction to the
    server in mode ['mp']. *)
Definition keydown (k : Key) : M unit :=
  s ← get;
  match k, running s with
  | KeyP, false => togglePause
  | KeyW, _ => turn Down Up
  | KeyS, _ => turn Up Down
  | KeyA, _ => turn Right Left
  | KeyD, _ => turn Left Right
  | _, _ => ret ()
  end.

(** The state when the script has loaded: the initial values of its
    variables, with the oracles the environment provides. *)
Definition pageLoad (rnd : nat → Z) (clk : nat → Z) : State :=
  {| mode := None; running := false; tickInterval := BASE_TICK;
     tickTimer := None; score := 0; playerDir := Right;
     invisibleTailTicks := 0; speedBoost := 0; playerSnake := None;
     aiSnake := None; foods := []; gameTime := PrimFloat.zero;
     aiDifficulty := NormalAI; roomState := None; specialTimer := false;
     slowTimers := 0%nat; gameOverPanel := None; randoms := rnd; drawn := 0%nat;
     clock := clk; clockReads := 0%nat |}.

(** ** Drawing

    The canvas is not modelled; a rendering function is the list of the
    cells it hands to [drawRect], in the order of the calls. *)

(** The loop of [renderSnake] from index [i] on, over the segments
    [segs] still to come, [len] being [snake.body.length]. *)
Fixpoint renderFrom (len i : Z) (hideTail : bool) (segs : list Cell) : list Cell :=
  match segs with
  | [] => []
  | seg :: segs' =>
      if hideTail && (len - 4 <? i)
      then renderFrom len (i + 1) hideTail segs'
      else seg :: renderFrom len (i + 1) hideTail segs'
  end.

(** [renderSnake(snake, hideTail)]: every call of [drawRect] is with
    [snake.color]. *)
Definition renderSnake (snake : option Snake) (hideTail : bool) : list Cell :=
  match snake with
  | None => []
  | Some sn => renderFrom (Z.of_nat (length (body sn))) 0 hideTail (body sn)
  end.

(** The call [renderSnake(playerSnake, invisibleTailTicks>0)] of [gameTick]. *)
Definition renderPlayer (s : State) : list Cell :=
  renderSnake (playerSnake s) (0 <? invisibleTailTicks s).

(** ** The engine as a transition system

    What can happen during a solo or AI match: a timer fires, a key goes
    down, a button is clicked. A handler that throws leaves the state it
    reached, and the timers go on. *)

Inductive Event : Type :=
  | Tick
  | SpecialSpawn
  | SlowExpiry
  | KeyDown (k : Key)
  | PauseButton
  | RestartButton
  | BackButton
  | StartSingle
  | StartAI (diff : Difficulty).

Definition handler (e : Event) : M unit :=
  match e with
  | Tick => gameTick
  | SpecialSpawn => specialSpawn
  | SlowExpiry => slowExpiry
  | KeyDown k => keydown k
  | PauseButton => togglePause
  | RestartButton => restartGame
  | BackButton => backToMenu
  | StartSingle => startMenuMode Single
  | StartAI diff => startAIMode diff
  end.

Definition enabled (e : Event) (s : State) : bool :=
  match e with
  | Tick => bool_decide (is_Some (tickTimer s))
  | SpecialSpawn => specialTimer s
  | SlowExpiry => bool_decide (0 < slowTimers s)%nat
  | _ => true
  end.

Definition after (e : Event) (s : State) : State := outcome (handler e s).

(** The states of solo and AI matches: a match starts from the menu, in
    whatever state earlier play has left, and continues by events. *)
Inductive reachable : State → Prop :=
  | reach_single s0 : reachable (after StartSingle s0)
  | reach_ai diff s0 : reachable (after (StartAI diff) s0)
  | reach_event e s : reachable s → enabled e s = true → reachable (after e s).

(** * Properties *)

(** ** Running the monad *)

Lemma bind_Ok {A B : Type} (m : M A) (f : A → M B) (s s' : State) (a : A) :
  m s = Ok a s' → bind m f s = f a s'.
Proof. intros H. unfold bind. now rewrite H. Qed.

Lemma bind_Throw {A B : Type} (m : M A) (f : A → M B) (s s' : State) :
  m s = Throw s' → bind m f s = Throw s'.
Proof. intros H. unfold bind. now rewrite H. Qed.

Lemma bind_get {B : Type} (f : State → M B) (s : State) :
  bind get f s = f s s.
Proof. reflexivity. Qed.

Lemma bind_modify {B : Type} (g : State → State) (f : unit → M B) (s : State) :
  bind (modify g) f s = f () (g s).
Proof. reflexivity. Qed.

Lemma bind_ret {A B : Type} (a : A) (f : A → M B) (s : State) :
  bind (ret a) f s = f a s.
Proof. reflexivity. Qed.

Lemma getSnake_setSnake (who : Who) (v : Snake) (s : State) :
  getSnake who (setSnake who v s) = Some v.
Proof. now destruct who. Qed.

Lemma setSnake_setSnake (who : Who) (v w : Snake) (s : State) :
  setSnake who w (setSnake who v s) = setSnake who w s.
Proof. now destruct who. Qed.

Lemma readSnake_Ok (who : Who) (s : State) (snake : Snake) :
  getSnake who s = Some snake → readSnake who s = Ok snake s.
Proof. intros H. unfold readSnake, bind, get. now rewrite H. Qed.

Lemma updateSnake_Ok (who : Who) (f : Snake → Snake) (s : State) (snake : Snake) :
  getSnake who s = Some snake →
  updateSnake who f s = Ok () (setSnake who (f snake) s).
Proof. intros H. unfold updateSnake, bind, get. now rewrite H. Qed.

(** Unfolds the plumbing of the monad in a goal about a run. *)
Ltac run :=
  unfold kill, when, bind, ret, get, modify, throwTypeError in *; simpl in *.

(** ** Lists *)

Lemma pop_cons {A : Type} (a : A) (l : list A) :
  l ≠ [] → pop (a :: l) = a :: pop l.
Proof.
  intros Hl. unfold pop. destruct l as [|b l]; [done|].
  simpl. now rewrite Nat.sub_0_r.
Qed.

Lemma length_pop {A : Type} (l : list A) : length (pop l) = (length l - 1)%nat.
Proof. unfold pop. rewrite length_take. lia. Qed.

Lemma pop_pop {A : Type} (l : list A) : pop (pop l) = take (length l - 2)%nat l.
Proof.
  unfold pop. rewrite length_take, take_take. f_equal. lia.
Qed.

(** ** Step engine *)

Lemma newHead_Some (b : list Cell) (d : Dir) (head : Cell) :
  newHead b d = Some head → ∃ h rest, b = h :: rest ∧ head = moved h d.
Proof. destruct b as [|h rest]; [done|]. intros [= <-]. eauto. Qed.

(** C4. A live snake whose computed head stays inside the grid gets the
    new head prepended; with growth pending the counter goes down by one
    and the tail stays, so the body is one longer; otherwise the tail is
    dropped and the length is unchanged. In particular the player snake
    [(5,5),(4,5),(3,5)] stepping right with no pending growth becomes
    [(6,5),(5,5),(4,5)]. *)
Theorem stepSnake_inside_grid :
  (∀ (who : Who) (d : Dir) (s : State) (snake : Snake) (head : Cell),
     getSnake who s = Some snake →
     alive snake = true →
     newHead (body snake) d = Some head →
     insideGrid head = true →
     ∃ snake',
       stepSnake who d s = Ok () (setSnake who snake' s) ∧
       alive snake' = true ∧
       if 0 <? pendingGrow snake
       then body snake' = head :: body snake ∧
            pendingGrow snake' = pendingGrow snake - 1 ∧
            length (body snake') = S (length (body snake))
       else body snake' = head :: pop (body snake) ∧
            pendingGrow snake' = pendingGrow snake ∧
            length (body snake') = length (body snake)) ∧
  (∀ s : State,
     playerSnake s = Some (makeSnake [mkCell 5 5; mkCell 4 5; mkCell 3 5]) →
     stepSnake Player Right s =
       Ok () (set_playerSnake
                (Some (makeSnake [mkCell 6 5; mkCell 5 5; mkCell 4 5])) s)).
Proof.
  split.
  - intros who d s snake head Hget Halive Hhead Hin.
    destruct (newHead_Some _ _ _ Hhead) as (h & rest & Hb & _).
    unfold stepSnake. run. rewrite Hget, Halive, Hhead, Hin. simpl.
    rewrite (updateSnake_Ok _ _ _ _ Hget).
    rewrite (readSnake_Ok _ _ _ (getSnake_setSnake _ _ _)). simpl.
    destruct (0 <? pendingGrow snake) eqn:Hgrow;
      rewrite (updateSnake_Ok _ _ _ _ (getSnake_setSnake _ _ _)),
        setSnake_setSnake.
    + eexists. split; [reflexivity|]. simpl. auto.
    + eexists. split; [reflexivity|]. simpl.
      rewrite Hb, pop_cons by done. rewrite Hb in *. simpl.
      rewrite length_pop. simpl. repeat split; auto with lia.
  - intros s Hp. unfold stepSnake, readSnake, updateSnake. run.
    rewrite Hp. simpl. rewrite Hp. simpl. reflexivity.
Qed.

Definition scenarioA : State :=
  set_playerSnake (Some (makeSnake [mkCell 5 5; mkCell 4 5; mkCell 3 5]))
    (pageLoad (λ _, 0) (λ _, 0)).

Lemma stepSnake_inside_grid_witness :
  ∃ snake',
    stepSnake Player Right scenarioA = Ok () (setSnake Player snake' scenarioA) ∧
    body snake' = [mkCell 6 5; mkCell 5 5; mkCell 4 5] ∧
    pendingGrow snake' = 0.
Proof.
  destruct (proj1 stepSnake_inside_grid Player Right scenarioA
              (makeSnake [mkCell 5 5; mkCell 4 5; mkCell 3 5]) (mkCell 6 5)
              eq_refl eq_refl eq_refl eq_refl) as (snake' & Hrun & _ & Hb & Hg & _).
  exists snake'. repeat split; auto.
Defined.

Definition other (who : Who) : Who :=
  match who with Player => Opponent | Opponent => Player end.

(** What [onPlayerDie(which)] leaves on the game-over panel. *)
Definition deathPanel (which : Which) (s : State) : option GameOverMsg :=
  match mode s with
  | Some Single => Some (GameOver (score s))
  | Some AI =>
      Some match which with
           | WhichPlayer => YouDied (score s)
           | WhichAI => AIDied (score s)
           | WhichBoth => BothDied (score s)
           end
  | _ => gameOverPanel s
  end.

(** The state after [snake.alive = false; onPlayerDie(which)]. *)
Definition afterDeath (who : Who) (which : Which) (snake : Snake) (s : State)
    : State :=
  set_running false (set_tickTimer None
    (set_gameOverPanel (deathPanel which s)
      (setSnake who (set_alive false snake) s))).

Lemma onPlayerDie_Ok (which : Which) (s : State) :
  onPlayerDie which s =
    Ok () (set_running false (set_tickTimer None
             (set_gameOverPanel (deathPanel which s) s))).
Proof.
  unfold onPlayerDie, deathPanel, showGameOver, stopTick. run.
  destruct s as [[[| |]|] ? ? ? ? ? ? ? ? ? ? ? ? ? ? ? ? ? ? ? ?];
    destruct which; reflexivity.
Qed.

Lemma die_Ok (who : Who) (which : Which) (snake : Snake) (s : State) :
  getSnake who s = Some snake →
  bind (kill who) (λ _, onPlayerDie which) s = Ok () (afterDeath who which snake s).
Proof.
  intros Hget. unfold kill.
  rewrite (bind_Ok _ _ _ _ _ (updateSnake_Ok _ _ _ _ Hget)), onPlayerDie_Ok.
  destruct who; reflexivity.
Qed.

Lemma stepSnake_outside (who : Who) (d : Dir) (s : State) (snake : Snake) :
  getSnake who s = Some snake →
  alive snake = true →
  match newHead (body snake) d with
  | Some head => insideGrid head
  | None => false
  end = false →
  stepSnake who d s = Ok () (afterDeath who (whichOf who) snake s).
Proof.
  intros Hget Halive Hout. unfold stepSnake.
  rewrite bind_get, Hget, Halive. simpl.
  destruct (newHead (body snake) d) as [head|].
  - rewrite Hout. simpl. now apply die_Ok.
  - now apply die_Ok.
Qed.

(** ** Effect resolver: poison *)

(** The poison effect, by itself. The player's score becomes
    [max(0, score - 2)] (the AI's eating leaves the score alone), and the
    eater's body loses its last two segments, or all of them when it has
    fewer: the new length is the old one minus two, cut off at zero. A
    snake of two segments ends with none. The call itself returns
    normally. *)
Theorem consumeFood_poison (who : Who) (food : Food) (s : State) (snake : Snake) :
  ftype food = Special →
  subtype food = Some Poison →
  getSnake who s = Some snake →
  let body' := take (length (body snake) - 2)%nat (body snake) in
  consumeFood who food s =
    Ok () (setSnake who (set_body body' snake)
             match who with
             | Player => set_score (Z.max 0 (score s - 2)) s
             | Opponent => s
             end) ∧
  length body' = (length (body snake) - 2)%nat ∧
  (length (body snake) - length body' ≤ 2)%nat ∧
  (length (body snake) = 2%nat → body' = []).
Proof.
  intros Htype Hsub Hget body'. split; [|split; [|split]].
  - unfold consumeFood. rewrite Htype, Hsub.
    destruct who; simpl in Hget; unfold updateSnake; run; rewrite Hget; simpl;
      subst body'; now rewrite pop_pop.
  - subst body'. rewrite length_take. lia.
  - subst body'. rewrite length_take. lia.
  - intros Hlen. subst body'. now rewrite Hlen.
Qed.

Definition scenarioE : State :=
  set_playerSnake (Some (makeSnake [mkCell 7 7; mkCell 6 7]))
    (set_score 1 (pageLoad (λ _, 0) (λ _, 0))).

Example consumeFood_poison_scenarioE :
  consumeFood Player (mkFood 7 7 Special (Some Poison) 0) scenarioE =
    Ok () (set_playerSnake (Some (makeSnake [])) (set_score 0 scenarioE)).
Proof.
  exact (proj1 (consumeFood_poison Player (mkFood 7 7 Special (Some Poison) 0)
                  scenarioE (makeSnake [mkCell 7 7; mkCell 6 7])
                  eq_refl eq_refl eq_refl)).
Defined.

(** ** Binary64: the floor of a scaled sample

    [Math.floor(Math.random() * n)] lies in [0, n): the product is
    rounded to the nearest binary64, which can round up, but never as
    far as [n]. The proof follows the rounding of [SpecFloat]. *)

Lemma shr_1_spec (m : Z) (r s : bool) :
  0 <= m →
  shr_1 (Build_shr_record m r s) = Build_shr_record (Z.div2 m) (Z.odd m) (r || s).
Proof. intros Hm. destruct m as [|[p|p|]|]; try lia; reflexivity. Qed.

Lemma iter_pos_nat {A : Type} (f : A → A) (p : positive) (x : A) :
  SpecFloat.iter_pos f p x = Nat.iter (Pos.to_nat p) f x.
Proof.
  revert x. induction p as [p IH|p IH|]; intros x; cbn [SpecFloat.iter_pos].
  - rewrite !IH, Pos2Nat.inj_xI.
    replace (S (2 * Pos.to_nat p)) with (Pos.to_nat p + S (Pos.to_nat p))%nat by lia.
    now rewrite Nat.iter_add, Nat.iter_succ_r.
  - rewrite !IH, Pos2Nat.inj_xO.
    replace (2 * Pos.to_nat p)%nat with (Pos.to_nat p + Pos.to_nat p)%nat by lia.
    now rewrite Nat.iter_add.
  - reflexivity.
Qed.

Lemma iter_shr_1 (n : nat) (M : Z) :
  0 <= M →
  shr_m (Nat.iter n shr_1 (Build_shr_record M false false)) = M / 2 ^ Z.of_nat n ∧
  (shr_r (Nat.iter n shr_1 (Build_shr_record M false false)) = true →
   2 ^ Z.of_nat n <= 2 * (M mod 2 ^ Z.of_nat n)).
Proof.
  intros HM. induction n as [|n [IHm IHr]].
  - simpl. split; [now rewrite Z.div_1_r | discriminate].
  - rewrite Nat2Z.inj_succ, Z.pow_succ_r by lia. simpl Nat.iter.
    destruct (Nat.iter n shr_1 (Build_shr_record M false false)) as [m r s].
    simpl in IHm, IHr. subst m.
    assert (Hpow : 0 < 2 ^ Z.of_nat n) by (apply Z.pow_pos_nonneg; lia).
    rewrite shr_1_spec by (apply Z.div_pos; lia). simpl. split.
    + rewrite Z.div2_div, Z.div_div by lia. f_equal. lia.
    + intros Hodd. rewrite (Z.mul_comm 2 (2 ^ Z.of_nat n)), Z.rem_mul_r by lia.
      rewrite Zmod_odd, Hodd.
      pose proof (Z.mod_pos_bound M (2 ^ Z.of_nat n) Hpow). lia.
Qed.

Lemma shr_spec (p : positive) (M : Z) :
  0 <= M →
  shr_m (SpecFloat.iter_pos shr_1 p (Build_shr_record M false false)) = M / 2 ^ Zpos p ∧
  (shr_r (SpecFloat.iter_pos shr_1 p (Build_shr_record M false false)) = true →
   2 ^ Zpos p <= 2 * (M mod 2 ^ Zpos p)).
Proof.
  intros HM. rewrite iter_pos_nat.
  pose proof (iter_shr_1 (Pos.to_nat p) M HM) as H.
  now rewrite positive_nat_Z in H.
Qed.

Lemma digits2_size (m : positive) : digits2_pos m = Pos.size m.
Proof. induction m; simpl; congruence. Qed.

Lemma digits2_bounds (m : positive) :
  2 ^ (Zpos (digits2_pos m) - 1) <= Zpos m < 2 ^ Zpos (digits2_pos m).
Proof.
  rewrite digits2_size.
  pose proof (Pos.size_le m) as Hle. pose proof (Pos.size_gt m) as Hgt.
  apply Pos2Z.pos_le_pos in Hle. apply Pos2Z.pos_lt_pos in Hgt.
  rewrite Pos2Z.inj_pow in Hle, Hgt.
  replace (Zpos (Pos.size m)) with (Z.succ (Zpos (Pos.size m) - 1)) in Hle by lia.
  rewrite Z.pow_succ_r in Hle by lia. lia.
Qed.

Lemma digits2_unique (m : positive) (n : Z) :
  2 ^ (n - 1) <= Zpos m < 2 ^ n → Zpos (digits2_pos m) = n.
Proof.
  intros [Hlo Hhi]. pose proof (digits2_bounds m) as [Hlo' Hhi'].
  assert (Hn : 0 < n).
  { destruct (Z_lt_le_dec 0 n) as [|Hn]; [assumption|].
    assert (H0 : 2 ^ n <= 2 ^ 0) by (apply Z.pow_le_mono_r; lia).
    change (2 ^ 0) with 1 in H0. lia. }
  destruct (Z_lt_le_dec (Zpos (digits2_pos m)) n) as [Hlt|Hge].
  - assert (2 ^ Zpos (digits2_pos m) <= 2 ^ (n - 1)) by (apply Z.pow_le_mono_r; lia). lia.
  - destruct (Z_lt_le_dec n (Zpos (digits2_pos m))) as [Hlt|Hle]; [|lia].
    assert (2 ^ n <= 2 ^ (Zpos (digits2_pos m) - 1)) by (apply Z.pow_le_mono_r; lia). lia.
Qed.

Lemma fexp_normal (n : Z) : -1074 <= n - 53 → fexp prec emax n = n - 53.
Proof. intros H. unfold fexp, emin, prec, emax. lia. Qed.

Lemma shr_fexp_exact (m : positive) (e : Z) :
  Zpos (digits2_pos m) = 53 → -1074 <= e →
  shr_fexp prec emax (Zpos m) e loc_Exact = (Build_shr_record (Zpos m) false false, e).
Proof.
  intros Hd He. unfold shr_fexp. cbn [Zdigits2]. rewrite Hd, fexp_normal by lia.
  replace (53 + e - 53 - e) with 0 by lia. reflexivity.
Qed.

Lemma round_aux_spec (M : positive) (e p : Z) :
  Zpos (digits2_pos M) = 53 + p → 0 <= p → -1074 <= e + p → e + p + 1 <= 971 →
  ∃ m j, binary_round_aux prec emax false (Zpos M) e loc_Exact
           = S754_finite false m (e + j) ∧
         0 <= j ∧
         2 * (Zpos m * 2 ^ j) <= 2 * Zpos M + 2 ^ p ∧
         (Zpos M mod 2 ^ p = 0 → j = p ∧ Zpos m * 2 ^ p = Zpos M) ∧
         Zpos (digits2_pos m) = 53.
Proof.
  intros Hd Hp Hlo Hhi. unfold binary_round_aux.
  destruct p as [|pp|pp]; [| |lia].
  - rewrite shr_fexp_exact by lia.
    cbn [shr_m loc_of_shr_record round_nearest_even].
    rewrite shr_fexp_exact by lia. cbn [shr_m].
    replace (e <=? emax - prec) with true by (symmetry; apply Z.leb_le; unfold emax, prec; lia).
    exists M, 0. rewrite Z.add_0_r, Z.mul_1_r. repeat split; try lia. 
  - pose proof (digits2_bounds M) as [HMlo HMhi]. rewrite Hd in HMlo, HMhi.
    replace (53 + Zpos pp - 1) with (52 + Zpos pp) in HMlo by lia.
    rewrite Z.pow_add_r in HMlo, HMhi by lia.
    assert (HP : 0 < 2 ^ Zpos pp) by (apply Z.pow_pos_nonneg; lia).
    pose proof (Z.div_mod (Zpos M) (2 ^ Zpos pp) ltac:(lia)) as Hdm.
    pose proof (Z.mod_pos_bound (Zpos M) (2 ^ Zpos pp) HP) as Hmod.
    set (P := 2 ^ Zpos pp) in *. set (q := Zpos M / P) in *. set (rm := Zpos M mod P) in *.
    assert (Hq : 2 ^ 52 <= q < 2 ^ 53) by (change (2 ^ 52) with 4503599627370496 in *; change (2 ^ 53) with 9007199254740992 in *; nia).
    unfold shr_fexp at 1. cbn [Zdigits2 shr_record_of_loc]. rewrite Hd, fexp_normal by lia.
    replace (53 + Zpos pp + e - 53 - e) with (Zpos pp) by lia. cbn [shr].
    pose proof (shr_spec pp (Zpos M) ltac:(lia)) as [Hm Hr].
    fold P in Hm, Hr. fold q in Hm. fold rm in Hr.
    destruct (SpecFloat.iter_pos shr_1 pp (Build_shr_record (Zpos M) false false)) as [m' r' s'].
    cbn [shr_m shr_r] in *. subst m'.
    set (q' := round_nearest_even q (loc_of_shr_record (Build_shr_record q r' s'))).
    assert (Hq' : q' = q ∨ (q' = q + 1 ∧ P <= 2 * rm)).
    { unfold q'. destruct r', s'; cbn [loc_of_shr_record round_nearest_even]; auto.
      destruct (Z.even q); auto. }
    assert (Hexact : rm = 0 → q' = q) by (destruct Hq' as [|[_ ?]]; [auto | lia]).
    assert (HPdef : 2 ^ Zpos pp = P) by reflexivity.
    clearbody q' q rm P.
    destruct (Z_lt_le_dec q' (2 ^ 53)) as [Hlt|Hge].
    all: change (2 ^ 52) with 4503599627370496 in *.
    all: change (2 ^ 53) with 9007199254740992 in *.
    + destruct q' as [|m|m]; try lia.
      rewrite shr_fexp_exact; [|apply digits2_unique; simpl; lia|lia].
      cbn [shr_m].
      replace (e + Zpos pp <=? emax - prec) with true by (symmetry; apply Z.leb_le; unfold emax, prec; lia).
      exists m, (Zpos pp). rewrite HPdef. split; [reflexivity|]. repeat split; try lia.
      apply digits2_unique; simpl; lia.
    + assert (q' = 9007199254740992) as -> by lia.
      replace (shr_fexp prec emax 9007199254740992 (e + Zpos pp) loc_Exact)
        with (Build_shr_record 4503599627370496 false false, e + Zpos pp + 1).
      2:{ unfold shr_fexp. change (Zdigits2 9007199254740992) with 54. rewrite fexp_normal by lia.
          replace (54 + (e + Zpos pp) - 53 - (e + Zpos pp)) with 1 by lia. reflexivity. }
      cbn [shr_m].
      replace (e + Zpos pp + 1 <=? emax - prec) with true by (symmetry; apply Z.leb_le; unfold emax, prec; lia).
      exists 4503599627370496%positive, (Zpos pp + 1). rewrite Z.add_assoc.
      rewrite Z.pow_add_r, HPdef by lia. change (2 ^ 1) with 2.
      split; [reflexivity|]. repeat split; lia.
Qed.

Lemma iter_xO (k : positive) (m : positive) :
  Zpos (Pos.iter xO m k) = Zpos m * 2 ^ Zpos k.
Proof.
  revert m. induction k as [|k IH] using Pos.peano_ind; intros m.
  - simpl. lia.
  - rewrite Pos.iter_succ, Pos2Z.inj_succ, Z.pow_succ_r, Pos2Z.inj_xO, IH by lia. lia.
Qed.

(** The binary64 of an integer [0 < d < 2^53] is exact. *)
Lemma of_uint63_SF (d : positive) :
  Zpos d < 2 ^ 53 →
  ∃ m k, Prim2SF (toFloat (Zpos d)) = S754_finite false m (- k) ∧
         0 <= k <= 52 ∧ Zpos m = Zpos d * 2 ^ k ∧ Zpos (digits2_pos m) = 53.
Proof.
  intros Hd. unfold toFloat. rewrite of_uint63_spec, Uint63.of_Z_spec.
  rewrite Z.mod_small by (change Uint63.wB with (2 ^ 63); change (2 ^ 53) with 9007199254740992 in Hd; change (2 ^ 63) with 9223372036854775808; lia).
  cbn [binary_normalize]. unfold binary_round.
  pose proof (digits2_bounds d) as [Hlo Hhi].
  assert (Hsize : Zpos (digits2_pos d) <= 53).
  { destruct (Z_lt_le_dec 53 (Zpos (digits2_pos d))) as [Hgt|]; [|lia].
    assert (2 ^ 53 <= 2 ^ (Zpos (digits2_pos d) - 1)) by (apply Z.pow_le_mono_r; lia). lia. }
  rewrite Z.add_0_r, fexp_normal by lia. unfold shl_align.
  destruct (Zpos (digits2_pos d) - 53 - 0) as [|k|k] eqn:Hk; try lia.
  - destruct (round_aux_spec d 0 0) as (m & j & -> & Hj & _ & Hex & Hm); try lia.
    destruct Hex as [-> Hex]; [apply Z.mod_1_r|].
    exists m, 0. repeat split; try lia.
  - assert (Hdk : Zpos (digits2_pos (Pos.iter xO d k)) = 53).
    { apply digits2_unique. rewrite iter_xO.
      assert (H1 : 2 ^ (53 - 1) = 2 ^ (Zpos (digits2_pos d) - 1) * 2 ^ Zpos k)
        by (rewrite <- Z.pow_add_r by lia; f_equal; lia).
      assert (H2 : 2 ^ 53 = 2 ^ Zpos (digits2_pos d) * 2 ^ Zpos k)
        by (rewrite <- Z.pow_add_r by lia; f_equal; lia).
      rewrite H1, H2.
      assert (0 < 2 ^ Zpos k) by (apply Z.pow_pos_nonneg; lia). nia. }
    destruct (round_aux_spec (Pos.iter xO d k) (Zpos (digits2_pos d) - 53) 0)
      as (m & j & -> & Hj & _ & Hex & Hm); try lia.
    destruct Hex as [-> Hex]; [apply Z.mod_1_r|].
    exists m, (Zpos k). rewrite Z.add_0_r. split; [f_equal; lia|].
    rewrite <- iter_xO. repeat split; try lia.
Qed.

(** [d / 2^53] is exact too. *)
Lemma unitFloat_SF (d : positive) :
  Zpos d < 2 ^ 53 →
  ∃ m k, Prim2SF (unitFloat (Zpos d)) = S754_finite false m (- k - 53) ∧
         0 <= k <= 52 ∧ Zpos m = Zpos d * 2 ^ k ∧ Zpos (digits2_pos m) = 53.
Proof.
  intros Hd. destruct (of_uint63_SF d Hd) as (m & k & Hsf & Hk & Hm & Hdig).
  exists m, k. split; [|auto].
  unfold unitFloat. rewrite div_spec, Hsf.
  change (Prim2SF (toFloat two53)) with (S754_finite false 4503599627370496 1).
  unfold SF64div, SFdiv, SFdiv_core_binary. cbn [xorb Zdigits2].
  rewrite Hdig. change (Zpos (digits2_pos 4503599627370496)) with 53.
  rewrite fexp_normal by lia.
  replace (Z.min (53 + - k - (53 + 1) - 53) (- k - 1)) with (- k - 54) by lia.
  replace (- k - 1 - (- k - 54)) with 53 by lia.
  rewrite Z.shiftl_mul_pow2 by lia.
  pose proof (Z_div_mod (Zpos m * 2 ^ 53) 4503599627370496 eq_refl) as Hdiv.
  destruct (Z.div_eucl (Zpos m * 2 ^ 53) 4503599627370496) as [q r].
  change (2 ^ 53) with 9007199254740992 in Hdiv.
  assert (q = Zpos m~0 ∧ r = 0) as [-> ->] by lia.
  change (new_location 4503599627370496 0) with loc_Exact.
  destruct (round_aux_spec (m~0) (- k - 54) 1) as (m' & j & -> & Hj & _ & Hex & Hm');
    try lia.
  { cbn [digits2_pos]. lia. }
  destruct Hex as [-> Hex]; [now rewrite Pos2Z.inj_xO, Z.mul_comm, Z.mod_mul|].
  f_equal; lia.
Qed.

(** The shift of [Math_floor], as a quotient. *)
Lemma shiftl_quot (m j E : Z) :
  0 <= j → 0 <= E → Z.shiftl m (j - E) = m * 2 ^ j / 2 ^ E.
Proof.
  intros Hj HE. destruct (Z_le_gt_dec E j) as [Hle|Hgt].
  - rewrite Z.shiftl_mul_pow2 by lia.
    replace j with (j - E + E) at 2 by lia.
    rewrite Z.pow_add_r, Z.mul_assoc, Z.div_mul by (try apply Z.pow_nonzero; lia).
    reflexivity.
  - replace (j - E) with (- (E - j)) by lia.
    rewrite Z.shiftl_opp_r, Z.shiftr_div_pow2 by lia.
    replace E with (j + (E - j)) at 2 by lia.
    rewrite Z.pow_add_r, (Z.mul_comm m) by lia.
    rewrite Z.div_mul_cancel_l; [reflexivity | |]; apply Z.pow_nonzero; lia.
Qed.

(** [Math.floor(Math.random() * n)] stays below [n], for an integer [n]
    with the binary64 mantissa [my] and exponent [ey]. *)
Lemma floor_product_bounds (d n : Z) (f : float) (my : positive) (ey : Z) :
  0 <= d < 2 ^ 53 →
  Prim2SF f = S754_finite false my ey →
  Zpos (digits2_pos my) = 53 → -52 <= ey <= 0 → Zpos my = n * 2 ^ (- ey) →
  0 <= Math_floor (PrimFloat.mul (unitFloat d) f) < n.
Proof.
  intros Hd Hf Hdig Hey Hn.
  assert (Hnpos : 0 < n).
  { assert (0 < 2 ^ (- ey)) by (apply Z.pow_pos_nonneg; lia). nia. }
  unfold Math_floor. rewrite mul_spec, Hf.
  destruct d as [|d|d]; [| |lia].
  { change (Prim2SF (unitFloat 0)) with (S754_zero false). simpl. lia. }
  destruct (unitFloat_SF d (proj2 Hd)) as (m & k & -> & Hk & Hm & Hmdig).
  unfold SF64mul, SFmul. cbn [xorb].
  pose proof (digits2_bounds m) as Hmb. rewrite Hmdig in Hmb.
  pose proof (digits2_bounds my) as Hyb. rewrite Hdig in Hyb.
  pose proof (digits2_bounds (m * my)) as [HMlo HMhi].
  change (2 ^ (53 - 1)) with 4503599627370496 in *.
  change (2 ^ 53) with 9007199254740992 in *.
  rewrite Pos2Z.inj_mul in HMlo, HMhi.
  set (D := Zpos (digits2_pos (m * my))) in *.
  assert (HD : 105 <= D <= 106).
  { split.
    - destruct (Z_lt_le_dec D 105) as [Hlt|]; [|lia].
      assert (2 ^ D <= 2 ^ 104) by (apply Z.pow_le_mono_r; lia).
      change (2 ^ 104) with (4503599627370496 * 4503599627370496) in *. nia.
    - destruct (Z_lt_le_dec 106 D) as [Hlt|]; [|lia].
      assert (2 ^ 106 <= 2 ^ (D - 1)) by (apply Z.pow_le_mono_r; lia).
      change (2 ^ 106) with (9007199254740992 * 9007199254740992) in *. nia. }
  destruct (round_aux_spec (m * my) (- k - 53 + ey) (D - 53))
    as (m' & j & -> & Hj & Hup & _ & _); try lia.
  replace (- k - 53 + ey + j) with (j - (k + 53 - ey)) by lia.
  rewrite shiftl_quot by lia.
  assert (HE : 0 < 2 ^ (k + 53 - ey)) by (apply Z.pow_pos_nonneg; lia).
  split; [apply Z.div_pos; [|exact HE]; assert (0 < 2 ^ j) by (apply Z.pow_pos_nonneg; lia); nia|].
  apply Z.div_lt_upper_bound; [exact HE|].
  replace (k + 53 - ey) with (- ey + k + 53) by lia.
  rewrite !Z.pow_add_r by lia. change (2 ^ 53) with 9007199254740992.
  rewrite Pos2Z.inj_mul in Hup.
  assert (HP : 2 * 2 ^ (D - 53) = 2 ^ (D - 52)).
  { rewrite <- Z.pow_succ_r by lia. f_equal. lia. }
  assert (HP2 : 2 ^ (D - 1) = 4503599627370496 * 2 ^ (D - 53)).
  { change 4503599627370496 with (2 ^ 52). rewrite <- Z.pow_add_r by lia. f_equal. lia. }
  assert (Hk2 : 1 <= 2 ^ k) by (assert (0 < 2 ^ k) by (apply Z.pow_pos_nonneg; lia); lia).
  set (P := 2 ^ (D - 53)) in *. set (K := 2 ^ k) in *. set (Y := 2 ^ (- ey)) in *.
  clearbody P K Y D.
  assert (HPy : P < 2 * Zpos my) by nia.
  nia.
Qed.

(** The rounding is visible: for this numerator the exact product
    [d * 30 / 2^53] is just below 17, and its binary64 is 17. *)
Example floorTimes_rounds_up :
  floorTimes GRID 5104079577686562 = 17 ∧ 5104079577686562 * GRID / two53 = 16.
Proof. split; reflexivity. Qed.

(** Likewise [0.6] and [0.12] are the doubles next to 6/10 and 12/100. *)
Example unitFloat_less_rounded :
  PrimFloat.ltb (unitFloat 5404319552844595) 0x1.3333333333333p-1 = false ∧
  (5404319552844595 * 10 <? 6 * two53) = true.
Proof. split; reflexivity. Qed.

Lemma floorTimes_GRID (d : Z) : 0 <= d < two53 → 0 <= floorTimes GRID d < GRID.
Proof.
  intros Hd.
  apply (floor_product_bounds d GRID (toFloat GRID) 8444249301319680 (-48));
    [exact Hd | reflexivity | reflexivity | lia | reflexivity].
Qed.

(** ** Food spawner *)

(** What [collisionAt(pos)] returns. *)
Definition occupied (s : State) (pos : Cell) : bool :=
  match playerSnake s with Some p => someEq (body p) pos | None => false end ||
  match aiSnake s with Some a => someEq (body a) pos | None => false end.

(** The cell [randCell()] returns at its [k]-th call from [s], when
    nothing else draws in between. *)
Definition sample (s : State) (k : nat) : Cell :=
  {| cx := floorTimes GRID (randoms s (drawn s + 2 * k)%nat mod two53);
     cy := floorTimes GRID (randoms s (drawn s + 2 * k + 1)%nat mod two53) |}.

(** A state that differs from [s] at most in the foods and in how far
    the oracles have been read. *)
Definition spawnFrame (s s' : State) : Prop :=
  s' = set_foods (foods s') (set_drawn (drawn s') (set_clockReads (clockReads s') s)).

(** The outcome [r], [s'] of a run of the placement loop from [s] with
    [n] attempts. *)
Definition placed (n : nat) (type : FoodType) (s : State)
    (r : option Food) (s' : State) : Prop :=
  spawnFrame s s' ∧
  match r with
  | Some f =>
      foods s' = foods s ++ [f] ∧
      ftype f = type ∧
      (is_Some (subtype f) ↔ type = Special) ∧
      occupied s (foodCell f) = false ∧
      insideGrid (foodCell f) = true ∧
      ∃ k, (k < n)%nat ∧ foodCell f = sample s k ∧
           ∀ j, (j < k)%nat → occupied s (sample s j) = true
  | None =>
      foods s' = foods s ∧
      ∀ j, (j < n)%nat → occupied s (sample s j) = true
  end.

Lemma eq_true_iff (a b : Cell) : eq a b = true ↔ a = b.
Proof.
  unfold eq. rewrite andb_true_iff, !Z.eqb_eq.
  destruct a, b; simpl. split; [intros [-> ->]; reflexivity | intros [= -> ->]; auto].
Qed.

Lemma eq_false_iff (a b : Cell) : eq a b = false ↔ a ≠ b.
Proof.
  rewrite <- eq_true_iff. destruct (eq a b); split; congruence.
Qed.

Lemma someEq_true (l : list Cell) (pos : Cell) : someEq l pos = true ↔ pos ∈ l.
Proof.
  unfold someEq. rewrite existsb_exists, list_elem_of_In. split.
  - intros (c & Hc & Heq). apply eq_true_iff in Heq. now subst.
  - intros Hin. exists pos. split; [done | now apply eq_true_iff].
Qed.

Lemma occupied_false (s : State) (pos : Cell) :
  occupied s pos = false ↔
  ∀ who snake, getSnake who s = Some snake → pos ∉ body snake.
Proof.
  unfold occupied. rewrite orb_false_iff. split.
  - intros [Hp Ha] who snake Hget Hin. apply someEq_true in Hin.
    destruct who; simpl in Hget; rewrite Hget in *; congruence.
  - intros H. split.
    + destruct (playerSnake s) as [p|] eqn:Hp; [|done].
      apply not_true_is_false. rewrite someEq_true. now apply (H Player).
    + destruct (aiSnake s) as [a|] eqn:Ha; [|done].
      apply not_true_is_false. rewrite someEq_true. now apply (H Opponent).
Qed.

Lemma collisionAt_Ok (pos : Cell) (s : State) :
  collisionAt pos s = Ok (occupied s pos) s.
Proof.
  unfold collisionAt, occupied. run.
  destruct (match playerSnake s with Some p => someEq (body p) pos | None => false end);
    [reflexivity|].
  destruct (match aiSnake s with Some a => someEq (body a) pos | None => false end);
    reflexivity.
Qed.

Lemma randCell_Ok (s : State) :
  randCell s = Ok (sample s 0) (set_drawn (S (S (drawn s))) s).
Proof.
  unfold randCell, randomBelow, Math_random, sample. run.
  now rewrite !Nat.add_0_r, Nat.add_1_r.
Qed.

Lemma two53_pos : 0 < two53.
Proof. reflexivity. Qed.

Lemma sample_inside (s : State) (k : nat) : insideGrid (sample s k) = true.
Proof.
  assert (Hr : ∀ r, 0 ≤ floorTimes GRID (r mod two53) < GRID).
  { intros r. apply floorTimes_GRID, Z.mod_pos_bound, two53_pos. }
  unfold insideGrid, sample. cbn [cx cy].
  pose proof (Hr (randoms s (drawn s + 2 * k)%nat)).
  pose proof (Hr (randoms s (drawn s + 2 * k + 1)%nat)).
  rewrite !andb_true_iff, !Z.leb_le, !Z.ltb_lt. lia.
Qed.

Lemma sample_shift (s : State) (k : nat) :
  sample (set_drawn (S (S (drawn s))) s) k = sample s (S k).
Proof.
  unfold sample. cbn [drawn randoms set_drawn].
  now replace (S (S (drawn s)) + 2 * k)%nat with (drawn s + 2 * S k)%nat by lia.
Qed.

Lemma randomSpecialSubtype_Ok (s : State) :
  ∃ st, randomSpecialSubtype s = Ok st (set_drawn (S (drawn s)) s).
Proof. unfold randomSpecialSubtype, randomBelow, Math_random. run. eauto. Qed.

Lemma placeFoodFrom_Ok (n : nat) (type : FoodType) (s : State) :
  ∃ r s', placeFoodFrom n type s = Ok r s' ∧ placed n type s r s'.
Proof.
  revert s. induction n as [|n IH]; intros s.
  - exists None, s. split; [reflexivity|]. split; [now destruct s|].
    split; [reflexivity | lia].
  - simpl. rewrite (bind_Ok _ _ _ _ _ (randCell_Ok s)).
    rewrite (bind_Ok _ _ _ _ _ (collisionAt_Ok _ _)).
    change (occupied (set_drawn (S (S (drawn s))) s) (sample s 0))
      with (occupied s (sample s 0)).
    destruct (occupied s (sample s 0)) eqn:Hocc.
    + destruct (IH (set_drawn (S (S (drawn s))) s)) as (r & s' & Hrun & Hframe & Hr).
      exists r, s'. split; [exact Hrun|]. split.
      { unfold spawnFrame in *. rewrite Hframe at 1. reflexivity. }
      assert (Hsamples : ∀ k j, (∀ i, (i < k)%nat →
                 occupied s (sample (set_drawn (S (S (drawn s))) s) i) = true) →
               (j < S k)%nat → occupied s (sample s j) = true).
      { intros k j Hall Hj. destruct j as [|j]; [exact Hocc|].
        rewrite <- sample_shift. apply Hall. lia. }
      destruct r as [f|].
      * destruct Hr as (Hfoods & Htype & Hsub & Hfree & Hin & k & Hk & Hcell & Hbefore).
        repeat split; try assumption; try apply Hsub.
        exists (S k). rewrite <- sample_shift. repeat split; [lia | exact Hcell |].
        intros j Hj. now apply (Hsamples k).
      * destruct Hr as (Hfoods & Hall). split; [exact Hfoods|].
        intros j Hj. now apply (Hsamples n).
    + unfold Date_now. rewrite bind_Ok with (a := clock s (clockReads s))
        (s' := set_clockReads (S (clockReads s)) (set_drawn (S (S (drawn s))) s))
        by reflexivity.
      assert (Hk : ∃ k, (k < S n)%nat ∧ sample s 0 = sample s k ∧
                ∀ j, (j < k)%nat → occupied s (sample s j) = true).
      { exists 0%nat. repeat split; [lia | intros j Hj; lia]. }
      destruct type.
      * run. eexists _, _. split; [reflexivity|]. split; [now destruct s|].
        repeat split; simpl; try done; exact (sample_inside s 0).
      * destruct (randomSpecialSubtype_Ok
          (set_clockReads (S (clockReads s)) (set_drawn (S (S (drawn s))) s)))
          as (st & Hst).
        unfold bind, ret, modify. rewrite Hst.
        eexists _, _. split; [reflexivity|]. split; [now destruct s|].
        repeat split; simpl; try done; try exact (sample_inside s 0); eauto.
Qed.

(** C9. [placeFood] always returns normally, leaving everything but the
    foods and the oracles' read positions as it was. It returns either a
    food of the asked type that it has appended to the foods, on the
    first sampled cell that no snake segment occupies (a cell of the
    grid), or, when all 200 sampled cells were occupied, [null] with the
    foods unchanged. The sampled cells are those of [randCell()]: the
    floors of the binary64 products [Math.random() * GRID]. *)
Theorem placeFood_spec (type : FoodType) (s : State) :
  ∃ r s',
    placeFood type s = Ok r s' ∧
    playerSnake s' = playerSnake s ∧ aiSnake s' = aiSnake s ∧
    spawnFrame s s' ∧
    match r with
    | Some f =>
        foods s' = foods s ++ [f] ∧
        ftype f = type ∧
        insideGrid (foodCell f) = true ∧
        collisionAt (foodCell f) s = Ok false s ∧
        (∀ who snake, getSnake who s = Some snake → foodCell f ∉ body snake) ∧
        ∃ k, (k < 200)%nat ∧ foodCell f = sample s k ∧
             ∀ j, (j < k)%nat → collisionAt (sample s j) s = Ok true s
    | None =>
        foods s' = foods s ∧
        ∀ j, (j < 200)%nat → collisionAt (sample s j) s = Ok true s
    end.
Proof.
  destruct (placeFoodFrom_Ok 200 type s) as (r & s' & Hrun & Hframe & Hr).
  exists r, s'. split; [exact Hrun|].
  split; [now rewrite Hframe|]. split; [now rewrite Hframe|].
  split; [exact Hframe|].
  destruct r as [f|].
  - destruct Hr as (Hfoods & Htype & _ & Hfree & Hin & k & Hk & Hcell & Hbefore).
    repeat split; try assumption.
    + now rewrite collisionAt_Ok, Hfree.
    + now apply occupied_false.
    + exists k. repeat split; try assumption.
      intros j Hj. now rewrite collisionAt_Ok, Hbefore.
  - destruct Hr as (Hfoods & Hall). split; [exact Hfoods|].
    intros j Hj. now rewrite collisionAt_Ok, Hall.
Qed.

(** ** Effect resolver: normal food *)

Lemma getSnake_other (who : Who) (v : Snake) (s : State) :
  getSnake (other who) (setSnake who v s) = getSnake (other who) s.
Proof. now destruct who. Qed.

(** The state when the normal food's effect reaches its last line, the
    call of [placeFood('normal')]. *)
Definition fed (who : Who) (snake : Snake) (s : State) : State :=
  set_speedBoost (Z.max 0 (speedBoost s - 2))
    (setSnake who
       (set_speedMultiplier (PrimFloat.mul (speedMultiplier snake) speedUp)
          (set_pendingGrow (pendingGrow snake + 1) snake))
       match who with
       | Player => set_score (score s + 1) s
       | Opponent => s
       end).

Lemma consumeFood_normal_run (who : Who) (food : Food) (s : State) (snake : Snake) :
  ftype food = Normal →
  getSnake who s = Some snake →
  consumeFood who food s = bind (placeFood Normal) (λ _, ret ()) (fed who snake s).
Proof.
  intros Htype Hget. unfold consumeFood, fed. rewrite Htype.
  destruct who, s; simpl in Hget; subst; reflexivity.
Qed.

(** C6, amended. Eating a normal food: the eater's [pendingGrow] goes up
    by one, its [speedMultiplier] is multiplied by 1.03, the score goes
    up by one when the eater is the player, [speedBoost] becomes
    [max(0, speedBoost - 2)], and [placeFood('normal')] is run in the
    same call on the state so updated: it appends one normal food, on
    the first sampled cell that no snake covers (a cell of the grid), or
    nothing when all its 200 sampled cells are covered. *)
Theorem consumeFood_normal (who : Who) (food : Food) (s : State) (snake : Snake) :
  ftype food = Normal →
  getSnake who s = Some snake →
  let snake1 :=
    set_speedMultiplier (PrimFloat.mul (speedMultiplier snake) speedUp)
      (set_pendingGrow (pendingGrow snake + 1) snake) in
  ∃ r s',
    consumeFood who food s = Ok () s' ∧
    placeFood Normal (fed who snake s) = Ok r s' ∧
    getSnake who s' = Some snake1 ∧
    getSnake (other who) s' = getSnake (other who) s ∧
    pendingGrow snake1 = pendingGrow snake + 1 ∧
    speedMultiplier snake1 = PrimFloat.mul (speedMultiplier snake) speedUp ∧
    body snake1 = body snake ∧
    score s' = match who with Player => score s + 1 | Opponent => score s end ∧
    speedBoost s' = Z.max 0 (speedBoost s - 2) ∧
    match r with
    | Some f =>
        foods s' = foods s ++ [f] ∧ ftype f = Normal ∧
        insideGrid (foodCell f) = true ∧
        ∀ who' sn, getSnake who' s' = Some sn → foodCell f ∉ body sn
    | None =>
        foods s' = foods s ∧
        ∀ j, (j < 200)%nat →
             collisionAt (sample (fed who snake s) j) (fed who snake s) =
               Ok true (fed who snake s)
    end.
Proof.
  intros Htype Hget snake1.
  destruct (placeFoodFrom_Ok 200 Normal (fed who snake s))
    as (r & s' & Hrun & Hframe & Hr).
  exists r, s'.
  assert (Hsnakes : ∀ who', getSnake who' s' = getSnake who' (fed who snake s)).
  { intros []; simpl; now rewrite Hframe. }
  split; [|split; [exact Hrun|]].
  - rewrite (consumeFood_normal_run who food s snake Htype Hget).
    unfold bind, placeFood. now rewrite Hrun.
  - rewrite !Hsnakes. unfold fed.
    split; [now destruct who|]. split; [now destruct who|].
    do 3 (split; [reflexivity|]).
    split; [rewrite Hframe; now destruct who|].
    split; [rewrite Hframe; now destruct who|].
    destruct r as [f|].
    + destruct Hr as (Hfoods & Hty & _ & Hfree & Hin & _).
      split; [rewrite Hfoods; now destruct who|].
      do 2 (split; [assumption|]).
      intros who' sn. rewrite Hsnakes. now apply occupied_false.
    + destruct Hr as (Hfoods & Hall).
      split; [rewrite Hfoods; now destruct who|].
      intros j Hj. now rewrite collisionAt_Ok, Hall.
Qed.

Definition scenarioB : State :=
  set_foods [mkFood 14 15 Normal None 0] (after StartSingle (pageLoad (λ _, 0) (λ _, 0))).

Lemma consumeFood_normal_witness :
  ∃ s',
    consumeFood Player (mkFood 14 15 Normal None 0) scenarioB = Ok () s' ∧
    (pendingGrow <$> playerSnake s') = Some 1 ∧
    score s' = 1 ∧
    speedBoost s' = 0 ∧
    foods s' = [mkFood 14 15 Normal None 0; mkFood 0 0 Normal None 0].
Proof.
  destruct (consumeFood_normal Player (mkFood 14 15 Normal None 0) scenarioB
              (makeSnake [mkCell 13 15; mkCell 12 15; mkCell 11 15])
              eq_refl eq_refl) as (r & s' & Hrun & Hplace & _).
  exists s'. split; [exact Hrun|].
  vm_compute in Hplace. injection Hplace as _ <-. repeat split.
Defined.

(** A solo match in which every sample of [Math.random()] is 31/60:
    the first food is on (15,15), and after one tick the player's head is
    on (14,15), one step from it. *)
Definition lastFoodAhead : State :=
  after Tick (after StartSingle (pageLoad (λ _, 31 * two53 / 60) (λ n, Z.of_nat n))).

(** C6, as stated, fails: no replacement is spawned when every sampled
    cell is covered by a snake. In the reachable state [lastFoodAhead]
    the next tick puts the player's head on the food on (15,15); the
    player eats it (score 1, growth pending), all 200 cells that
    [placeFood] samples are (15,15), under the player's head, and the
    tick ends normally with no food on the board. *)
Lemma no_replacement_when_crowded :
  reachable lastFoodAhead ∧
  (body <$> playerSnake lastFoodAhead) =
    Some [mkCell 14 15; mkCell 13 15; mkCell 12 15] ∧
  foods lastFoodAhead = [mkFood 15 15 Normal None 0] ∧
  let eating := outcome (stepSnake Player Right lastFoodAhead) in
  (body <$> playerSnake eating) =
    Some [mkCell 15 15; mkCell 14 15; mkCell 13 15] ∧
  (∃ s1, consumeFood Player (mkFood 15 15 Normal None 0) eating = Ok () s1 ∧
         foods s1 = foods eating ∧ score s1 = 1 ∧
         (pendingGrow <$> playerSnake s1) = Some 1 ∧ drawn s1 = 402%nat) ∧
  ∃ s', gameTick lastFoodAhead = Ok () s' ∧ foods s' = [] ∧ score s' = 1.
Proof.
  split.
  { apply reach_event; [apply reach_single | now vm_compute]. }
  split; [now vm_compute|]. split; [now vm_compute|].
  split; [now vm_compute|]. split.
  - eexists. split; [now vm_compute|]. now vm_compute.
  - eexists. split; [now vm_compute|]. now vm_compute.
Qed.

(** ** Effect resolver: who eats *)

(** Any consumption by a present snake returns normally; it appends at
    most one food, and it leaves the other snake alone. The eater's body
    only loses segments from its end. *)
Lemma consumeFood_Ok (who : Who) (food : Food) (s : State) (snake : Snake) :
  getSnake who s = Some snake →
  ∃ s1 spawned snake1,
    consumeFood who food s = Ok () s1 ∧
    foods s1 = foods s ++ spawned ∧ (length spawned ≤ 1)%nat ∧
    getSnake (other who) s1 = getSnake (other who) s ∧
    getSnake who s1 = Some snake1 ∧
    ∃ n, body snake1 = take n (body snake).
Proof.
  intros Hget. destruct (ftype food) eqn:Htype.
  - destruct (placeFoodFrom_Ok 200 Normal (fed who snake s))
      as (r & s' & Hrun & Hframe & Hr).
    exists s', (option_list r). eexists.
    split; [rewrite (consumeFood_normal_run who food s snake Htype Hget);
            unfold bind, placeFood; now rewrite Hrun|].
    split; [destruct r; simpl; [destruct Hr as (-> & _)
                               | rewrite app_nil_r; destruct Hr as (-> & _)];
            now destruct who|].
    split; [destruct r; simpl; lia|].
    split; [rewrite Hframe; now destruct who|].
    split; [rewrite Hframe; destruct who; reflexivity|].
    exists (length (body snake)). simpl. now rewrite firstn_all.
  - assert (Hsame : ∃ n, body snake = take n (body snake)).
    { exists (length (body snake)). now rewrite firstn_all. }
    unfold consumeFood. rewrite Htype.
    destruct (subtype food) as [[| | |]|]; unfold updateSnake;
      destruct who; run; rewrite ?Hget; simpl;
      eexists _, [], _; rewrite app_nil_r; simpl;
      (do 5 (split; [first [reflexivity | eassumption | lia]|]));
      rewrite ?pop_pop; eauto.
Qed.

Lemma eqJS_Ok (a b : Cell) (s : State) : eqJS (Some a) (Some b) s = Ok (eq a b) s.
Proof. reflexivity. Qed.

Lemma delete_app_l {A : Type} (i : nat) (l k : list A) :
  (i < length l)%nat → delete i (l ++ k) = delete i l ++ k.
Proof.
  revert i. induction l as [|a l IH]; intros i Hi; simpl in *; [lia|].
  destruct i as [|i]; [reflexivity|]. simpl. f_equal. apply IH. lia.
Qed.

(** ** Invariants of runs

    [wp m Q E s]: run from [s], [m] returns a value and a state that
    satisfy [Q], or throws in a state that satisfies [E]. [keeps I m]:
    [m] keeps the state property [I], returning or throwing. *)

Definition wp {A : Type} (m : M A) (Q : A → State → Prop) (E : State → Prop)
    (s : State) : Prop :=
  match m s with
  | Ok a s' => Q a s'
  | Throw s' => E s'
  end.

Definition keeps {A : Type} (I : State → Prop) (m : M A) : Prop :=
  ∀ s, I s → wp m (λ _, I) I s.

Lemma wp_bind {A B : Type} (m : M A) (f : A → M B) Q E s :
  wp m (λ a s', wp (f a) Q E s') E s → wp (bind m f) Q E s.
Proof. unfold wp, bind. now destruct (m s). Qed.

Lemma wp_bind_modify {B : Type} (g : State → State) (f : unit → M B) Q E s :
  wp (f ()) Q E (g s) → wp (bind (modify g) f) Q E s.
Proof. intros H. exact H. Qed.

Lemma wp_bind_get {B : Type} (f : State → M B) Q E s :
  wp (f s) Q E s → wp (bind get f) Q E s.
Proof. intros H. exact H. Qed.

Lemma wp_mono {A : Type} (m : M A) (Q Q' : A → State → Prop) (E E' : State → Prop) s :
  wp m Q E s → (∀ a s', Q a s' → Q' a s') → (∀ s', E s' → E' s') → wp m Q' E' s.
Proof. unfold wp. destruct (m s); auto. Qed.

Lemma wp_outcome {A : Type} (m : M A) (I : State → Prop) s :
  wp m (λ _, I) I s → I (outcome (m s)).
Proof. unfold wp, outcome. now destruct (m s). Qed.

Section Keeps.

Context (I : State → Prop).

Lemma keeps_ret {A : Type} (a : A) : keeps I (ret a).
Proof. intros s Hs. exact Hs. Qed.

Lemma keeps_bind {A B : Type} (m : M A) (f : A → M B) :
  keeps I m → (∀ a, keeps I (f a)) → keeps I (bind m f).
Proof.
  intros Hm Hf s Hs. apply wp_bind. eapply wp_mono; [apply Hm, Hs | | auto].
  intros a s' Hs'. now apply Hf.
Qed.

Lemma keeps_get : keeps I get.
Proof. intros s Hs. exact Hs. Qed.

Lemma keeps_throw {A : Type} : keeps I (@throwTypeError A).
Proof. intros s Hs. exact Hs. Qed.

Lemma keeps_modify (f : State → State) : (∀ s, I s → I (f s)) → keeps I (modify f).
Proof. intros Hf s Hs. now apply Hf. Qed.

Lemma keeps_when (b : bool) (m : M unit) : keeps I m → keeps I (when b m).
Proof. intros Hm. destruct b; [exact Hm | apply keeps_ret]. Qed.

Lemma keeps_forEach {A : Type} (l : list A) (f : A → M unit) :
  (∀ a, keeps I (f a)) → keeps I (forEach l f).
Proof.
  intros Hf. induction l as [|a l IH]; simpl.
  - apply keeps_ret.
  - apply keeps_bind; auto.
Qed.

Lemma keeps_readSnake (who : Who) : keeps I (readSnake who).
Proof.
  intros s Hs. unfold readSnake, wp. rewrite bind_get.
  now destruct (getSnake who s).
Qed.

Lemma keeps_eqJS (a b : option Cell) : keeps I (eqJS a b).
Proof. intros s Hs. unfold eqJS, wp. now destruct a, b. Qed.

Lemma keeps_updateSnake (who : Who) (f : Snake → Snake) :
  (∀ s snake, I s → getSnake who s = Some snake → I (setSnake who (f snake) s)) →
  keeps I (updateSnake who f).
Proof.
  intros Hf s Hs. unfold updateSnake, wp. rewrite bind_get.
  destruct (getSnake who s) eqn:Hget; [|exact Hs]. now apply Hf.
Qed.

(** The oracles' read positions do not matter to [I]. *)
Definition obliviousToOracles : Prop :=
  ∀ s n k, I s → I (set_drawn n (set_clockReads k s)).

Lemma keeps_Math_random : obliviousToOracles → keeps I Math_random.
Proof.
  intros Hobl s Hs. unfold Math_random, wp.
  specialize (Hobl s (S (drawn s)) (clockReads s) Hs). now destruct s.
Qed.

Lemma keeps_Date_now : obliviousToOracles → keeps I Date_now.
Proof.
  intros Hobl s Hs. unfold Date_now, wp.
  specialize (Hobl s (drawn s) (S (clockReads s)) Hs). now destruct s.
Qed.

Lemma keeps_randomBelow (n : Z) : obliviousToOracles → keeps I (randomBelow n).
Proof.
  intros Hobl. apply keeps_bind; [now apply keeps_Math_random|].
  intros d. apply keeps_ret.
Qed.

Lemma keeps_randomLess (p : float) :
  obliviousToOracles → keeps I (randomLess p).
Proof.
  intros Hobl. apply keeps_bind; [now apply keeps_Math_random|].
  intros d. apply keeps_ret.
Qed.

End Keeps.

(** One step of a proof that a composite computation keeps a property. *)
Ltac keeps_step :=
  match goal with
  | |- keeps _ (bind _ _) => apply keeps_bind; [|intros ?]
  | |- keeps _ (ret _) => apply keeps_ret
  | |- keeps _ get => apply keeps_get
  | |- keeps _ throwTypeError => apply keeps_throw
  | |- keeps _ (when _ _) => apply keeps_when
  | |- keeps _ (forEach _ _) => apply keeps_forEach; intros ?
  | |- keeps _ (readSnake _) => apply keeps_readSnake
  | |- keeps _ (eqJS _ _) => apply keeps_eqJS
  | |- keeps _ (match ?x with _ => _ end) => destruct x
  end.

(** ** The invariant of solo and AI matches *)

Definition cellsInside (l : list Cell) : Prop :=
  Forall (λ c, insideGrid c = true) l.

Definition snakeInside (o : option Snake) : Prop :=
  match o with Some sn => cellsInside (body sn) | None => True end.

(** The number of foods of type ['special']. *)
Definition specialCount (l : list Food) : nat := length (List.filter isSpecial l).

(** The invariant, with the bound [n] on the number of special foods
    left open: the matches keep it for [n = 1]. *)
Record Inv (n : nat) (s : State) : Prop := mkInv {
  inv_mode : mode s = Some Single ∨ mode s = Some AI;
  inv_boost : speedBoost s = 0;
  inv_special : (specialCount (foods s) ≤ n)%nat;
  inv_player : snakeInside (playerSnake s);
  inv_ai : snakeInside (aiSnake s)
}.

Lemma cellsInside_pop (l : list Cell) : cellsInside l → cellsInside (pop l).
Proof. unfold cellsInside, pop. apply Forall_take. Qed.

Lemma specialCount_app (l k : list Food) :
  specialCount (l ++ k) = (specialCount l + specialCount k)%nat.
Proof. unfold specialCount. now rewrite List.filter_app, length_app. Qed.

Lemma specialCount_delete (i : nat) (l : list Food) :
  (specialCount (delete i l) ≤ specialCount l)%nat.
Proof.
  unfold specialCount. revert i. induction l as [|f l IH]; intros [|i]; simpl; auto.
  - destruct (isSpecial f); simpl; lia.
  - specialize (IH i). destruct (isSpecial f); simpl; lia.
Qed.

Lemma specialCount_0 (l : list Food) :
  existsb isSpecial l = false → specialCount l = 0%nat.
Proof.
  unfold specialCount. induction l as [|f l IH]; simpl; [done|].
  destruct (isSpecial f); simpl; [discriminate | exact IH].
Qed.

Lemma Inv_getSnake (n : nat) (who : Who) (s : State) (snake : Snake) :
  Inv n s → getSnake who s = Some snake → cellsInside (body snake).
Proof.
  intros [_ _ _ Hp Ha] Hget.
  destruct who; simpl in Hget; rewrite Hget in *; assumption.
Qed.

Lemma Inv_setSnake (n : nat) (who : Who) (s : State) (v : Snake) :
  Inv n s → cellsInside (body v) → Inv n (setSnake who v s).
Proof. intros [] Hv. destruct who; constructor; simpl; assumption. Qed.

Lemma Inv_oblivious (n : nat) : obliviousToOracles (Inv n).
Proof. intros s d k []. constructor; assumption. Qed.

(** A change of fields the invariant does not read. *)
Ltac inv_frame :=
  let s := fresh "s" in
  let H := fresh "H" in
  intros s H; destruct H as [Hmode Hboost Hspecial Hplayer Hai];
  constructor; simpl in *; auto.

(** Any run of the placement loop keeps the invariant, as long as a
    special food is only asked for when there is none. *)
Lemma Inv_placed (n k : nat) (type : FoodType) (s : State) r s' :
  Inv n s →
  (type = Special → specialCount (foods s) = 0%nat ∧ (1 ≤ n)%nat) →
  placed k type s r s' →
  Inv n s'.
Proof.
  intros [Hm Hb Hs Hp Ha] Hnone [Hframe Hr]. rewrite Hframe.
  constructor; simpl; try assumption.
  destruct r as [f|].
  - destruct Hr as (-> & Htype & _). rewrite specialCount_app.
    unfold specialCount at 2. simpl. unfold isSpecial. rewrite Htype.
    destruct type; simpl; [lia|]. destruct (Hnone eq_refl). lia.
  - destruct Hr as (-> & _). exact Hs.
Qed.

Lemma keeps_placeFood_Normal (n : nat) : keeps (Inv n) (placeFood Normal).
Proof.
  intros s Hs. unfold wp, placeFood.
  destruct (placeFoodFrom_Ok 200 Normal s) as (r & s' & -> & Hplaced).
  now apply (Inv_placed n 200 Normal s r s').
Qed.

Create HintDb keeps.

(** Closes the leaves of a [keeps (Inv n)] goal. *)
Ltac keeps_leaf :=
  match goal with
  | |- keeps (Inv _) (modify _) => apply keeps_modify; inv_frame
  | |- keeps (Inv _) (updateSnake _ _) =>
      apply keeps_updateSnake; intros; apply Inv_setSnake; [assumption|];
      simpl; eauto using Inv_getSnake, cellsInside_pop
  | |- keeps (Inv _) (randomBelow _) => apply keeps_randomBelow, Inv_oblivious
  | |- keeps (Inv _) (randomLess _) => apply keeps_randomLess, Inv_oblivious
  | |- keeps (Inv _) _ => solve [auto with keeps]
  end.

Ltac keeps_inv := repeat first [keeps_step | keeps_leaf].

Lemma keeps_stopTick (n : nat) : keeps (Inv n) stopTick.
Proof. unfold stopTick. keeps_inv. Qed.

Lemma keeps_startTick (n : nat) : keeps (Inv n) startTick.
Proof. unfold startTick. keeps_inv. Qed.

#[global] Hint Resolve keeps_stopTick keeps_startTick keeps_placeFood_Normal : keeps.

Lemma keeps_onPlayerDie (n : nat) (which : Which) : keeps (Inv n) (onPlayerDie which).
Proof. unfold onPlayerDie, showGameOver. keeps_inv. Qed.

Lemma keeps_kill (n : nat) (who : Who) : keeps (Inv n) (kill who).
Proof. unfold kill. keeps_inv. Qed.

#[global] Hint Resolve keeps_onPlayerDie keeps_kill : keeps.

Lemma keeps_stepSnake (n : nat) (who : Who) (d : Dir) : keeps (Inv n) (stepSnake who d).
Proof.
  unfold stepSnake. apply keeps_bind; [apply keeps_get|]. intros s.
  destruct (getSnake who s) as [snake|]; [|keeps_inv].
  destruct (alive snake); simpl; [|keeps_inv].
  destruct (newHead (body snake) d) as [head|]; [|keeps_inv].
  destruct (insideGrid head) eqn:Hin; simpl; [|keeps_inv].
  apply keeps_bind.
  - apply keeps_updateSnake. intros s1 sn Hs1 Hget. apply Inv_setSnake; [assumption|].
    simpl. constructor; [assumption | exact (Inv_getSnake _ _ _ _ Hs1 Hget)].
  - intros _. apply keeps_bind; [apply keeps_readSnake|]. intros sn.
    destruct (0 <? pendingGrow sn); keeps_inv.
Qed.

#[global] Hint Resolve keeps_stepSnake : keeps.

Lemma keeps_consumeFood (n : nat) (who : Who) (food : Food) : keeps (Inv n) (consumeFood who food).
Proof.
  unfold consumeFood. destruct (ftype food).
  - keeps_inv. now rewrite Hboost.
  - keeps_inv.
Qed.

Lemma keeps_splice (n : nat) (i : nat) : keeps (Inv n) (splice i).
Proof.
  unfold splice. apply keeps_modify. inv_frame.
  etransitivity; [apply specialCount_delete | assumption].
Qed.

#[global] Hint Resolve keeps_consumeFood keeps_splice : keeps.

Lemma keeps_foodStep (n : nat) (i : nat) : keeps (Inv n) (foodStep i).
Proof. unfold foodStep. keeps_inv. Qed.

#[global] Hint Resolve keeps_foodStep : keeps.

Lemma keeps_foodLoop (n count : nat) : keeps (Inv n) (foodLoop count).
Proof. induction count as [|count IH]; simpl; keeps_inv. Qed.

#[global] Hint Resolve keeps_foodLoop : keeps.

Lemma keeps_handleFoodCollisions (n : nat) : keeps (Inv n) handleFoodCollisions.
Proof. unfold handleFoodCollisions. keeps_inv. Qed.

Lemma keeps_selfCollision (n : nat) (who : Who) : keeps (Inv n) (selfCollision who).
Proof. unfold selfCollision. keeps_inv. Qed.

Lemma keeps_headIntoBody (n : nat) (mine theirs : Who) : keeps (Inv n) (headIntoBody mine theirs).
Proof. unfold headIntoBody. keeps_inv. Qed.

#[global] Hint Resolve keeps_handleFoodCollisions keeps_selfCollision
  keeps_headIntoBody : keeps.

Lemma keeps_handleCollisionsSingleMode (n : nat) : keeps (Inv n) handleCollisionsSingleMode.
Proof. unfold handleCollisionsSingleMode, playerVsAi. keeps_inv. Qed.

Lemma keeps_findNearestFood (n : nat) (pos : option Cell) : keeps (Inv n) (findNearestFood pos).
Proof. unfold findNearestFood. keeps_inv. Qed.

Lemma keeps_bfsPath (n : nat) (start goal : Cell) : keeps (Inv n) (bfsPath start goal).
Proof. unfold bfsPath. keeps_inv. Qed.

Lemma keeps_setAiDir (n : nat) (d : Dir) : keeps (Inv n) (setAiDir d).
Proof. unfold setAiDir. keeps_inv. Qed.

#[global] Hint Resolve keeps_handleCollisionsSingleMode keeps_findNearestFood
  keeps_bfsPath keeps_setAiDir : keeps.

Lemma keeps_randomDir (n : nat) : keeps (Inv n) randomDir.
Proof. unfold randomDir. keeps_inv. Qed.

Lemma keeps_stepAi (n : nat) : keeps (Inv n) stepAi.
Proof. unfold stepAi. keeps_inv. Qed.

#[global] Hint Resolve keeps_randomDir keeps_stepAi : keeps.

Lemma keeps_aiStep (n : nat) : keeps (Inv n) aiStep.
Proof. unfold aiStep. keeps_inv. Qed.

Lemma keeps_setSpeedFromScore (n : nat) : keeps (Inv n) setSpeedFromScore.
Proof. unfold setSpeedFromScore. keeps_inv. Qed.

#[global] Hint Resolve keeps_aiStep keeps_setSpeedFromScore : keeps.

Lemma wp_keeps {A : Type} (I : State → Prop) (m : M A) (s : State) :
  keeps I m → I s → wp m (λ _, I) I s.
Proof. intros Hm Hs. now apply Hm. Qed.

Lemma keeps_gameTick (n : nat) : keeps (Inv n) gameTick.
Proof.
  unfold gameTick. apply keeps_bind; [keeps_inv|]. intros _ s Hs.
  apply wp_bind_get.
  destruct (inv_mode n s Hs) as [-> | ->]; apply wp_keeps; try assumption; keeps_inv.
Qed.

Lemma keeps_specialSpawn (n : nat) : keeps (Inv (S n)) specialSpawn.
Proof.
  unfold specialSpawn. intros s Hs. unfold wp. rewrite bind_get.
  destruct (existsb isSpecial (foods s)) eqn:Hnone; [exact Hs|].
  unfold randomLess, Math_random, bind, ret.
  set (s1 := set_drawn (S (drawn s)) s).
  assert (Hs1 : Inv (S n) s1) by (destruct Hs; constructor; assumption).
  destruct (PrimFloat.ltb _ _); [|exact Hs1].
  unfold placeFood.
  destruct (placeFoodFrom_Ok 200 Special s1) as (r & s' & -> & Hplaced).
  apply (Inv_placed (S n) 200 Special s1 r s' Hs1); [|exact Hplaced].
  intros _. split; [now apply specialCount_0 | lia].
Qed.

Lemma keeps_slowExpiry (n : nat) : keeps (Inv n) slowExpiry.
Proof. unfold slowExpiry. keeps_inv. Qed.

Lemma keeps_togglePause (n : nat) : keeps (Inv n) togglePause.
Proof. unfold togglePause. keeps_inv. Qed.

#[global] Hint Resolve keeps_togglePause : keeps.

Lemma keeps_turn (n : nat) (blocked wanted : Dir) : keeps (Inv n) (turn blocked wanted).
Proof. unfold turn. keeps_inv. Qed.

#[global] Hint Resolve keeps_turn : keeps.

Lemma keeps_keydown (n : nat) (k : Key) : keeps (Inv n) (keydown k).
Proof. unfold keydown. keeps_inv. Qed.

Lemma keeps_startIfSimulated (n : nat) : keeps (Inv n) startIfSimulated.
Proof. unfold startIfSimulated. keeps_inv. Qed.

(** [initGame] sets the invariant up, whatever the state before, when
    the mode is one of the two simulated ones. *)
Lemma initGame_Inv (n : nat) (s : State) :
  mode s = Some Single ∨ mode s = Some AI →
  wp initGame (λ _, Inv n) (Inv n) s.
Proof.
  intros Hmode. unfold initGame, stopTick, wp.
  rewrite !bind_modify.
  match goal with |- context [bind (placeFood Normal) _ ?s1] => set (s1' := s1) end.
  unfold bind at 1, placeFood.
  destruct (placeFoodFrom_Ok 200 Normal s1') as (r & s' & -> & Hframe & Hr).
  rewrite bind_modify, bind_get.
  assert (Hfoods : specialCount (foods s') = 0%nat).
  { destruct r as [f|].
    - destruct Hr as (-> & Htype & _). subst s1'. unfold specialCount. simpl.
      unfold isSpecial. now rewrite Htype.
    - destruct Hr as (-> & _). reflexivity. }
  assert (Hmode' : mode s' = mode s) by now rewrite Hframe.
  assert (Hplayer : snakeInside (playerSnake s')).
  { rewrite Hframe. subst s1'. simpl. repeat constructor. }
  assert (Hboost : speedBoost s' = 0) by now rewrite Hframe.
  cbn [mode set_specialTimer]. rewrite Hmode'.
  destruct Hmode as [Hm | Hm]; rewrite Hm; unfold bind, modify, ret;
    constructor; simpl; try (rewrite Hmode', Hm); auto; try lia.
  repeat constructor.
Qed.

Lemma startMenuMode_Inv (n : nat) (m : Mode) (s : State) :
  m = Single ∨ m = AI → wp (startMenuMode m) (λ _, Inv n) (Inv n) s.
Proof.
  intros Hm. unfold startMenuMode. apply wp_bind_modify, wp_bind.
  eapply wp_mono; [apply (initGame_Inv n) | | auto].
  - cbn [mode set_mode]. destruct Hm; subst; auto.
  - intros [] s' Hs'. now apply keeps_startIfSimulated.
Qed.

Lemma startAIMode_Inv (n : nat) (diff : Difficulty) (s : State) :
  wp (startAIMode diff) (λ _, Inv n) (Inv n) s.
Proof.
  unfold startAIMode. apply wp_bind_modify, startMenuMode_Inv. auto.
Qed.

Lemma keeps_restartGame (n : nat) : keeps (Inv n) restartGame.
Proof.
  intros s Hs. unfold restartGame. apply wp_bind.
  eapply wp_mono; [apply (initGame_Inv n), (inv_mode n s Hs) | | auto].
  intros [] s' Hs'. now apply keeps_startIfSimulated.
Qed.

(** Every handler but the spawn timer's keeps the invariant with any
    bound on the special foods; the spawn timer's needs room for one. *)
Lemma handler_quiet (n : nat) (e : Event) (s : State) :
  e ≠ SpecialSpawn → Inv n s → wp (handler e) (λ _, Inv n) (Inv n) s.
Proof.
  intros He Hs. destruct e; unfold handler.
  - now apply keeps_gameTick.
  - contradiction.
  - now apply keeps_slowExpiry.
  - now apply keeps_keydown.
  - now apply keeps_togglePause.
  - now apply keeps_restartGame.
  - now apply keeps_stopTick.
  - apply startMenuMode_Inv. auto.
  - apply startAIMode_Inv.
Qed.

Lemma handler_Inv (n : nat) (e : Event) (s : State) :
  Inv (S n) s → wp (handler e) (λ _, Inv (S n)) (Inv (S n)) s.
Proof.
  intros Hs. destruct e; unfold handler.
  - now apply keeps_gameTick.
  - now apply keeps_specialSpawn.
  - now apply keeps_slowExpiry.
  - now apply keeps_keydown.
  - now apply keeps_togglePause.
  - now apply keeps_restartGame.
  - now apply keeps_stopTick.
  - apply startMenuMode_Inv. auto.
  - apply startAIMode_Inv.
Qed.

(** Every state of a solo or AI match satisfies the invariant. *)
Lemma reachable_Inv (s : State) : reachable s → Inv 1 s.
Proof.
  induction 1 as [s0 | diff s0 | e s Hreach IH Hen]; unfold after; apply wp_outcome.
  - apply startMenuMode_Inv. auto.
  - apply startAIMode_Inv.
  - now apply handler_Inv.
Qed.

(** A match just started, from the freshly loaded page with a constant
    oracle. *)
Definition freshSolo : State := after StartSingle (pageLoad (λ _, 0) (λ _, 0)).
Definition freshDuel : State := after (StartAI Hard) (pageLoad (λ _, 0) (λ _, 0)).

Lemma reachable_freshSolo : reachable freshSolo.
Proof. apply reach_single. Qed.

Lemma reachable_freshDuel : reachable freshDuel.
Proof. apply reach_ai. Qed.

(** ** Bounds *)

(** C5, amended. In every state of a solo or AI match each segment of
    each snake is a cell of the grid, and so is the head of a live snake
    that has one. When the computed new head of a live snake is outside
    the grid (or is no cell at all, the body being empty), [stepSnake]
    returns normally having only marked that snake dead and reported its
    death through [onPlayerDie] with who died (['player'] or ['ai']; the
    script records no cause): the body, the other snake, the foods and
    the score are untouched, the tick timer is stopped, and the panel
    shows the text for who died. *)
Theorem wall_death :
  (∀ (s : State) (who : Who) (snake : Snake),
     reachable s → getSnake who s = Some snake →
     cellsInside (body snake) ∧
     ∀ h, alive snake = true → head (body snake) = Some h → insideGrid h = true) ∧
  (∀ (who : Who) (d : Dir) (s : State) (snake : Snake),
     getSnake who s = Some snake →
     alive snake = true →
     match newHead (body snake) d with
     | Some head => insideGrid head
     | None => false
     end = false →
     ∃ s',
       stepSnake who d s = Ok () s' ∧
       getSnake who s' = Some (set_alive false snake) ∧
       body (set_alive false snake) = body snake ∧
       getSnake (other who) s' = getSnake (other who) s ∧
       foods s' = foods s ∧ score s' = score s ∧
       running s' = false ∧ tickTimer s' = None ∧
       gameOverPanel s' = deathPanel (whichOf who) s).
Proof.
  split.
  - intros s who snake Hreach Hget.
    pose proof (Inv_getSnake 1 who s snake (reachable_Inv s Hreach) Hget) as Hin.
    split; [exact Hin|]. intros h _ Hhead.
    destruct (body snake) as [|h' rest]; [discriminate|].
    injection Hhead as ->. now inversion Hin.
  - intros who d s snake Hget Halive Hout.
    exists (afterDeath who (whichOf who) snake s).
    split; [now apply stepSnake_outside|].
    destruct who; repeat split.
Qed.

Definition atTheWall : State :=
  set_playerSnake (Some (makeSnake [mkCell 29 15; mkCell 28 15; mkCell 27 15]))
    freshSolo.

Lemma wall_death_witness :
  stepSnake Player Right atTheWall =
    Ok () (afterDeath Player WhichPlayer
             (makeSnake [mkCell 29 15; mkCell 28 15; mkCell 27 15]) atTheWall) ∧
  cellsInside [mkCell 13 15; mkCell 12 15; mkCell 11 15].
Proof.
  split.
  - destruct (proj2 wall_death Player Right atTheWall
                (makeSnake [mkCell 29 15; mkCell 28 15; mkCell 27 15])
                eq_refl eq_refl eq_refl) as (s' & Hrun & _).
    rewrite Hrun. vm_compute in Hrun. injection Hrun as <-. reflexivity.
  - exact (proj1 (proj1 wall_death freshSolo Player
                    (makeSnake [mkCell 13 15; mkCell 12 15; mkCell 11 15])
                    reachable_freshSolo eq_refl)).
Defined.

(** ** Food exclusivity *)

(** C8. In every state of a solo or AI match at most one food is of type
    ['special']. The spawn timer's callback does nothing when a special
    food exists, and no other event of a match makes the number of
    special foods grow. *)
Theorem one_special_food :
  (∀ s : State, reachable s → (specialCount (foods s) ≤ 1)%nat) ∧
  (∀ s : State, existsb isSpecial (foods s) = true → specialSpawn s = Ok () s) ∧
  (∀ (s : State) (e : Event),
     reachable s → e ≠ SpecialSpawn →
     (specialCount (foods (after e s)) ≤ specialCount (foods s))%nat).
Proof.
  split; [|split].
  - intros s Hreach. apply (inv_special 1), reachable_Inv, Hreach.
  - intros s Hsome. unfold specialSpawn. now rewrite bind_get, Hsome.
  - intros s e Hreach He.
    assert (Hs : Inv (specialCount (foods s)) s).
    { destruct (reachable_Inv s Hreach). constructor; auto. }
    apply (inv_special (specialCount (foods s))). unfold after.
    now apply wp_outcome, handler_quiet.
Qed.

Lemma one_special_food_witness :
  (specialCount (foods freshDuel) ≤ 1)%nat ∧
  (specialCount (foods (after Tick freshDuel)) ≤ specialCount (foods freshDuel))%nat.
Proof.
  split.
  - exact (proj1 one_special_food freshDuel reachable_freshDuel).
  - apply (proj2 (proj2 one_special_food) freshDuel Tick reachable_freshDuel).
    discriminate.
Defined.

(** ** Speed state *)

(** C10. In every state of a solo or AI match [speedBoost] is 0, so the
    interval that [setSpeedFromScore] computes, and leaves in
    [tickInterval], is [max(MIN_TICK, BASE_TICK - floor(score / 5) * 10)]:
    it depends on the score alone. *)
Theorem speedBoost_zero (s : State) :
  reachable s →
  speedBoost s = 0 ∧
  newTickOf s = Z.max MIN_TICK (BASE_TICK - score s / 5 * 10) ∧
  ∃ s', setSpeedFromScore s = Ok () s' ∧
        tickInterval s' = Z.max MIN_TICK (BASE_TICK - score s / 5 * 10) ∧
        speedBoost s' = 0 ∧ score s' = score s.
Proof.
  intros Hreach. pose proof (inv_boost 1 s (reachable_Inv s Hreach)) as Hboost.
  assert (Hnew : newTickOf s = Z.max MIN_TICK (BASE_TICK - score s / 5 * 10)).
  { unfold newTickOf. rewrite Hboost. f_equal. lia. }
  split; [exact Hboost|]. split; [exact Hnew|].
  unfold setSpeedFromScore. rewrite bind_get, <- Hnew.
  destruct (newTickOf s =? tickInterval s) eqn:Hsame; simpl.
  - apply Z.eqb_eq in Hsame. exists s. now rewrite Hsame.
  - rewrite bind_modify, bind_get. cbn [running set_tickInterval].
    destruct (running s); eexists; (split; [reflexivity|]); now simpl.
Qed.

Lemma speedBoost_zero_witness :
  speedBoost freshDuel = 0 ∧ newTickOf freshDuel = 150.
Proof.
  destruct (speedBoost_zero freshDuel reachable_freshDuel) as (Hboost & Hnew & _).
  split; [exact Hboost | exact Hnew].
Defined.

(** ** Collision resolver: self-collision *)

Lemma getSnake_afterDeath (who : Who) (which : Which) (snake : Snake) (s : State) :
  getSnake who (afterDeath who which snake s) = Some (set_alive false snake).
Proof. now destruct who. Qed.

Lemma afterDeath_again (who : Who) (which : Which) (snake : Snake) (s : State) :
  afterDeath who which (set_alive false snake) (afterDeath who which snake s) =
  afterDeath who which snake s.
Proof.
  unfold afterDeath, deathPanel.
  destruct s as [[[| |]|] ? ? ? ? ? ? ? ? ? ? ? ? ? ? ? ? ? ? ? ?];
    destruct who; reflexivity.
Qed.

(** The loop of the self-collision check: the snake dies when, and only
    when, some later segment equals the head. *)
Lemma selfLoop_Ok (who : Who) (h : Cell) (rest : list Cell) :
  ∀ (s : State) (snake : Snake),
    getSnake who s = Some snake →
    forEach rest (λ seg,
      if eq h seg then kill who;; onPlayerDie (whichOf who) else ret ()) s =
    Ok () (if existsb (eq h) rest
           then afterDeath who (whichOf who) snake s else s).
Proof.
  induction rest as [|seg rest IH]; intros s snake Hget; [reflexivity|].
  simpl forEach. simpl existsb. destruct (eq h seg).
  - rewrite (bind_Ok _ _ _ _ _ (die_Ok who (whichOf who) snake s Hget)).
    rewrite (IH _ _ (getSnake_afterDeath _ _ _ _)), afterDeath_again.
    simpl. now destruct (existsb (eq h) rest).
  - rewrite bind_ret. now apply IH.
Qed.

Lemma selfCollision_Ok (who : Who) (s : State) (snake : Snake) (h : Cell)
    (rest : list Cell) :
  getSnake who s = Some snake →
  body snake = h :: rest →
  selfCollision who s =
    Ok () (if existsb (eq h) rest
           then afterDeath who (whichOf who) snake s else s).
Proof.
  intros Hget Hbody. unfold selfCollision.
  rewrite (bind_Ok _ _ _ _ _ (readSnake_Ok who s snake Hget)), Hbody.
  now apply selfLoop_Ok.
Qed.

Lemma selfCollision_headless (who : Who) (s : State) (snake : Snake) :
  getSnake who s = Some snake → body snake = [] → selfCollision who s = Ok () s.
Proof.
  intros Hget Hbody. unfold selfCollision.
  now rewrite (bind_Ok _ _ _ _ _ (readSnake_Ok who s snake Hget)), Hbody.
Qed.

Lemma selfCollision_other (who : Who) (s : State) (sn : Snake) :
  getSnake who s = Some sn →
  ∃ s', selfCollision who s = Ok () s' ∧
        getSnake (other who) s' = getSnake (other who) s.
Proof.
  intros Hget. destruct (body sn) as [|h rest] eqn:Hbody.
  - exists s. now rewrite (selfCollision_headless who s sn Hget Hbody).
  - rewrite (selfCollision_Ok who s sn h rest Hget Hbody).
    destruct (existsb (eq h) rest); eexists; (split; [reflexivity|]);
      [now destruct who | reflexivity].
Qed.

(** The snake [who] is there and dead, and the match is stopped: what
    [snake.alive = false; onPlayerDie(...)] leaves for good. *)
Definition gone (who : Who) (s : State) : Prop :=
  (∃ sn, getSnake who s = Some sn ∧ alive sn = false) ∧
  running s = false ∧ tickTimer s = None.

Lemma keeps_gone_panel (who : Who) (v : option GameOverMsg) :
  keeps (gone who) (modify (set_gameOverPanel v)).
Proof.
  apply keeps_modify. intros s ((sn & Hsn & Hd) & Hr & Ht).
  split; [|now split]. exists sn. split; [now destruct who | exact Hd].
Qed.

Lemma keeps_gone_stop (who : Who) :
  keeps (gone who) (modify (λ s, set_running false (set_tickTimer None s))).
Proof.
  apply keeps_modify. intros s ((sn & Hsn & Hd) & Hr & Ht).
  split; [|now split]. exists sn. split; [now destruct who | exact Hd].
Qed.

Lemma keeps_gone_kill (who who' : Who) :
  keeps (gone who) (updateSnake who' (set_alive false)).
Proof.
  apply keeps_updateSnake. intros s sn' ((sn & Hsn & Hd) & Hr & Ht) Hget.
  split; [|now destruct who'].
  destruct who, who'; simpl in *; eauto.
Qed.

(** Closes the leaves of a [keeps (gone who)] goal. *)
Ltac keeps_gone_leaf :=
  first [apply keeps_gone_panel | apply keeps_gone_stop | apply keeps_gone_kill].

Ltac keeps_gone :=
  unfold headIntoBody, selfCollision, kill, onPlayerDie, showGameOver, stopTick;
  repeat first [keeps_step | keeps_gone_leaf].

(** The checks against the AI never revive a snake, nor restart the
    match. *)
Lemma keeps_gone_playerVsAi (who : Who) : keeps (gone who) playerVsAi.
Proof. unfold playerVsAi. keeps_gone. Qed.

Lemma gone_afterDeath (who : Who) (which : Which) (sn : Snake) (s : State) :
  gone who (afterDeath who which sn s).
Proof.
  split; [|now split]. exists (set_alive false sn).
  split; [apply getSnake_afterDeath | reflexivity].
Qed.

Lemma existsb_eq (h : Cell) (rest : list Cell) : existsb (eq h) rest = true ↔ h ∈ rest.
Proof.
  rewrite existsb_exists, list_elem_of_In. split.
  - intros (c & Hc & Heq). apply eq_true_iff in Heq. now subst.
  - intros Hin. exists h. split; [exact Hin | now apply eq_true_iff].
Qed.

Lemma playerVsAi_solo (s : State) : aiSnake s = None → playerVsAi s = Ok () s.
Proof. intros Hai. unfold playerVsAi. now rewrite bind_get, Hai. Qed.

Definition scenarioC : State :=
  set_playerSnake (Some (makeSnake [mkCell 10 10; mkCell 10 11; mkCell 10 9]))
    freshSolo.

(** C1, as stated, fails: with the body [(10,10),(10,11),(10,9)] the
    collision resolver changes nothing; the player is still alive and no
    death is reported. *)
Lemma scenarioC_no_collision :
  handleCollisionsSingleMode scenarioC = Ok () scenarioC ∧
  (alive <$> playerSnake scenarioC) = Some true ∧
  gameOverPanel scenarioC = None ∧
  running scenarioC = true.
Proof. vm_compute. repeat split. Qed.

(** C1, amended. The head (10,10) of the body [(10,10),(10,11),(10,9)]
    equals neither later segment. The rule holds: a live snake, the
    player or the AI, dies whenever its head equals one of the later
    segments of its body. Its self-collision loop then leaves the snake
    marked dead and the death reported through [onPlayerDie] with who
    died (['player'] or ['ai']; the script records no cause), and the
    collision resolver ends with that snake dead and the match stopped.
    In a solo match the loop is all the resolver does. *)
Theorem self_collision :
  (∀ (who : Who) (s : State) (sn : Snake) (h : Cell) (rest : list Cell),
     getSnake who s = Some sn → body sn = h :: rest →
     selfCollision who s =
       Ok () (if existsb (eq h) rest
              then afterDeath who (whichOf who) sn s else s)) ∧
  (∀ (who : Who) (s : State) (p sn : Snake) (h : Cell) (rest : list Cell),
     playerSnake s = Some p →
     getSnake who s = Some sn → alive sn = true →
     body sn = h :: rest → h ∈ rest →
     gone who (outcome (handleCollisionsSingleMode s))) ∧
  (∀ (s : State) (p : Snake) (h : Cell) (rest : list Cell),
     playerSnake s = Some p → alive p = true → body p = h :: rest →
     aiSnake s = None →
     handleCollisionsSingleMode s =
       Ok () (if existsb (eq h) rest
              then afterDeath Player WhichPlayer p s else s)) ∧
  (∀ (h : Cell) (rest : list Cell), existsb (eq h) rest = true ↔ h ∈ rest) ∧
  existsb (eq (mkCell 10 10)) [mkCell 10 11; mkCell 10 9] = false.
Proof.
  split; [|split; [|split; [|split; [exact existsb_eq | reflexivity]]]].
  - intros who s sn h rest. apply selfCollision_Ok.
  - intros who s p sn h rest Hp Hget Halive Hbody Hin.
    apply existsb_eq in Hin. apply wp_outcome.
    unfold handleCollisionsSingleMode.
    apply wp_bind. unfold wp at 1. rewrite (readSnake_Ok Player s p Hp).
    destruct who; simpl in Hget.
    + assert (p = sn) as -> by congruence. rewrite Halive.
      apply wp_bind. unfold wp at 1.
      rewrite (selfCollision_Ok Player s sn h rest Hp Hbody), Hin.
      apply keeps_gone_playerVsAi, gone_afterDeath.
    + assert (Hself : ∃ s1,
                (if alive p then selfCollision Player else ret ()) s = Ok () s1 ∧
                aiSnake s1 = Some sn).
      { destruct (alive p); [|exists s; auto].
        destruct (selfCollision_other Player s p Hp) as (s1 & Hrun & Hother).
        exists s1. split; [exact Hrun|]. simpl in Hother. congruence. }
      destruct Hself as (s1 & Hrun & Hai).
      apply wp_bind. unfold wp at 1. rewrite Hrun.
      unfold playerVsAi. apply wp_bind_get. rewrite Hai, Halive. cbn [negb].
      apply wp_bind. unfold wp at 1.
      rewrite (selfCollision_Ok Opponent s1 sn h rest Hai Hbody), Hin.
      apply (wp_keeps (gone Opponent)); [keeps_gone | apply gone_afterDeath].
  - intros s p h rest Hp Halive Hbody Hai.
    unfold handleCollisionsSingleMode.
    rewrite (bind_Ok _ _ _ _ _ (readSnake_Ok Player s p Hp)), Halive.
    rewrite (bind_Ok _ _ _ _ _ (selfCollision_Ok Player s p h rest Hp Hbody)).
    apply playerVsAi_solo. now destruct (existsb (eq h) rest).
Qed.

Definition coiled : State :=
  set_playerSnake
    (Some (makeSnake [mkCell 10 10; mkCell 11 10; mkCell 11 11; mkCell 10 11;
                      mkCell 10 10]))
    freshSolo.

Definition coiledAi : State :=
  set_aiSnake
    (Some (set_difficulty (Some Hard)
       (makeSnake [mkCell 4 4; mkCell 5 4; mkCell 5 5; mkCell 4 5; mkCell 4 4])))
    freshDuel.

Lemma self_collision_witness :
  handleCollisionsSingleMode coiled =
    Ok () (afterDeath Player WhichPlayer
             (makeSnake [mkCell 10 10; mkCell 11 10; mkCell 11 11; mkCell 10 11;
                         mkCell 10 10]) coiled) ∧
  gone Player (outcome (handleCollisionsSingleMode coiled)) ∧
  gone Opponent (outcome (handleCollisionsSingleMode coiledAi)).
Proof.
  split; [|split].
  - exact (proj1 (proj2 (proj2 self_collision)) coiled
             (makeSnake [mkCell 10 10; mkCell 11 10; mkCell 11 11; mkCell 10 11;
                         mkCell 10 10])
             (mkCell 10 10) [mkCell 11 10; mkCell 11 11; mkCell 10 11; mkCell 10 10]
             eq_refl eq_refl eq_refl eq_refl).
  - apply (proj1 (proj2 self_collision) Player coiled
             (makeSnake [mkCell 10 10; mkCell 11 10; mkCell 11 11; mkCell 10 11;
                         mkCell 10 10])
             (makeSnake [mkCell 10 10; mkCell 11 10; mkCell 11 11; mkCell 10 11;
                         mkCell 10 10])
             (mkCell 10 10) [mkCell 11 10; mkCell 11 11; mkCell 10 11; mkCell 10 10]
             eq_refl eq_refl eq_refl eq_refl).
    apply existsb_eq. reflexivity.
  - apply (proj1 (proj2 self_collision) Opponent coiledAi
             (makeSnake [mkCell 13 15; mkCell 12 15; mkCell 11 15])
             (set_difficulty (Some Hard)
               (makeSnake [mkCell 4 4; mkCell 5 4; mkCell 5 5; mkCell 4 5; mkCell 4 4]))
             (mkCell 4 4) [mkCell 5 4; mkCell 5 5; mkCell 4 5; mkCell 4 4]
             eq_refl eq_refl eq_refl eq_refl).
    apply existsb_eq. reflexivity.
Defined.

(** ** Keys of cells *)

Fixpoint commaFree (s : string) : bool :=
  match s with
  | EmptyString => true
  | String a s' => negb (Ascii.eqb a ","%char) && commaFree s'
  end.

Lemma commaFree_pretty_N_go (x : N) (s : string) :
  commaFree s = true → commaFree (pretty_N_go x s) = true.
Proof.
  revert s. induction (N.lt_wf_0 x) as [x _ IH]; intros s Hs.
  destruct (decide (x = 0)%N) as [-> | Hx]; [now rewrite pretty_N_go_0|].
  rewrite pretty_N_go_step by lia. apply IH.
  - apply N.div_lt; lia.
  - simpl. rewrite Hs, andb_true_r. unfold pretty_N_char.
    now repeat case_match.
Qed.

Lemma commaFree_pretty_N (x : N) : commaFree (pretty x) = true.
Proof.
  unfold pretty, pretty_N. case_decide; [reflexivity|].
  now apply commaFree_pretty_N_go.
Qed.

Lemma commaFree_pretty_Z (z : Z) : commaFree (pretty z) = true.
Proof.
  destruct z as [|p|p]; unfold pretty, pretty_Z; [reflexivity| |].
  - apply commaFree_pretty_N.
  - simpl. apply commaFree_pretty_N.
Qed.

Lemma append_comma_inj (s1 s2 t1 t2 : string) :
  commaFree s1 = true → commaFree s2 = true →
  s1 +:+ String ","%char t1 = s2 +:+ String ","%char t2 → s1 = s2 ∧ t1 = t2.
Proof.
  revert s2. induction s1 as [|a s1 IH]; intros [|b s2]; simpl; intros H1 H2 Heq.
  - now injection Heq.
  - injection Heq as <- _. now rewrite Ascii.eqb_refl in H2.
  - injection Heq as -> _. now rewrite Ascii.eqb_refl in H1.
  - injection Heq as -> Heq.
    apply andb_true_iff in H1 as [_ H1]. apply andb_true_iff in H2 as [_ H2].
    destruct (IH s2 H1 H2 Heq) as [-> ->]. auto.
Qed.

(** Distinct cells have distinct keys. *)
Lemma key_inj (a b : Cell) : key a = key b → a = b.
Proof.
  unfold key. intros Heq.
  apply append_comma_inj in Heq as [Hx Hy]; try apply commaFree_pretty_Z.
  apply (inj pretty) in Hx. apply (inj pretty) in Hy.
  destruct a, b; simpl in *. now subst.
Qed.

Lemma elem_of_keysOf (c : Cell) (l : list Cell) : key c ∈ keysOf l ↔ c ∈ l.
Proof.
  unfold keysOf. rewrite elem_of_list_to_set, list_elem_of_fmap. split.
  - intros (c' & Hkey & Hin). now rewrite (key_inj _ _ Hkey).
  - intros Hin. eauto.
Qed.

(** The obstacle set of [bfsPath] holds the keys of the cells that
    [collisionAt] finds occupied: the cells of the two snakes' bodies. *)
Lemma elem_of_obstaclesOf (s : State) (c : Cell) :
  key c ∈ obstaclesOf s ↔ occupied s c = true.
Proof.
  unfold obstaclesOf, occupied. rewrite elem_of_union, orb_true_iff.
  destruct (playerSnake s) as [p|], (aiSnake s) as [a|];
    rewrite ?elem_of_keysOf, ?someEq_true, ?elem_of_empty; intuition discriminate.
Qed.

(** ** Breadth-first search *)

(** The cells of the grid. *)
Definition gridCells : list Cell :=
  flat_map (λ i, map (mkCell i) (seqZ 0 GRID)) (seqZ 0 GRID).

Lemma elem_of_gridCells (c : Cell) : insideGrid c = true → c ∈ gridCells.
Proof.
  unfold insideGrid. rewrite !andb_true_iff, !Z.leb_le, !Z.ltb_lt.
  intros [[[Hx0 Hx] Hy0] Hy]. unfold gridCells.
  apply list_elem_of_In, in_flat_map. exists (cx c). split.
  - apply list_elem_of_In, elem_of_seqZ. lia.
  - apply in_map_iff. exists (cy c). split; [now destruct c|].
    apply list_elem_of_In, elem_of_seqZ. lia.
Qed.

(** How many cells of the grid are not in [visited]. *)
Definition unvisited (visited : gset string) : nat :=
  length (filter (λ c, key c ∉ visited) gridCells).

Lemma unvisited_bound (visited : gset string) : (unvisited visited ≤ 900)%nat.
Proof.
  unfold unvisited. etransitivity; [apply length_filter|]. now vm_compute.
Qed.

Lemma length_filter_drop {A : Type} (P Q : A → Prop)
    `{∀ x, Decision (P x)} `{∀ x, Decision (Q x)} (a : A) (l : list A) :
  (∀ x, Q x → P x) → P a → ¬ Q a → a ∈ l →
  (S (length (filter Q l)) ≤ length (filter P l))%nat.
Proof.
  intros HQP HPa HQa.
  assert (Hle : ∀ k, (length (filter Q k) ≤ length (filter P k))%nat).
  { intros k. induction k as [|c k IHk]; [done|].
    rewrite !filter_cons. repeat case_decide; simpl; try lia.
    exfalso. auto. }
  induction l as [|b l IH]; intros Hin.
  - now apply elem_of_nil in Hin.
  - specialize (Hle l). rewrite !filter_cons. apply elem_of_cons in Hin as [<- | Hin].
    + repeat case_decide; simpl; try lia; exfalso; auto.
    + specialize (IH Hin). repeat case_decide; simpl; try lia. exfalso. auto.
Qed.

Lemma unvisited_insert (visited : gset string) (n : Cell) :
  insideGrid n = true → key n ∉ visited →
  (S (unvisited ({[ key n ]} ∪ visited)) ≤ unvisited visited)%nat.
Proof.
  intros Hin Hfresh. unfold unvisited.
  apply length_filter_drop with (a := n).
  - intros c Hc Hv. apply Hc. set_solver.
  - exact Hfresh.
  - intros Hc. apply Hc. set_solver.
  - now apply elem_of_gridCells.
Qed.

Section Bfs.

Variables (start goal : Cell) (obstacles : gset string).

(** A cell the search may enter: inside the grid, and no obstacle unless
    it is the goal. *)
Definition passable (n : Cell) : bool :=
  insideGrid n && negb (bool_decide (key n ∈ obstacles) && negb (eq n goal)).

(** One hop: to one of the four neighbours, when it is passable. *)
Definition hop (p n : Cell) : bool :=
  existsb (eq n) (neighbors p) && passable n.

(** [walk k c]: some sequence of [k] hops leads from the start to [c]. *)
Inductive walk : nat → Cell → Prop :=
  | walk_0 : walk 0 start
  | walk_S k p n : walk k p → hop p n = true → walk (S k) n.

(** [chain path c]: the list [path] starts at the start, ends at [c], and
    goes by hops. *)
Inductive chain : list Cell → Cell → Prop :=
  | chain_start : chain [start] start
  | chain_snoc path p n : chain path p → hop p n = true → chain (path ++ [n]) n.

Lemma chain_walk (path : list Cell) (c : Cell) :
  chain path c → ∃ k, length path = S k ∧ walk k c.
Proof.
  induction 1 as [|path p n _ (k & Hlen & Hwalk) Hhop].
  - exists 0%nat. split; [reflexivity | constructor].
  - exists (S k). split; [rewrite length_app, Hlen; simpl; lia|].
    now apply walk_S with p.
Qed.

Lemma walk_chain (k : nat) (c : Cell) :
  walk k c → ∃ path, chain path c ∧ length path = S k.
Proof.
  induction 1 as [|k p n _ (path & Hchain & Hlen) Hhop].
  - exists [start]. split; [constructor | reflexivity].
  - exists (path ++ [n]). split; [now apply chain_snoc with p|].
    rewrite length_app, Hlen. simpl. lia.
Qed.

Lemma visit_eq (path : list Cell) (v : gset string) (q : list (Cell * list Cell))
    (n : Cell) :
  visit goal obstacles path (v, q) n =
    if passable n && negb (bool_decide (key n ∈ v))
    then ({[ key n ]} ∪ v, q ++ [(n, path ++ [n])])
    else (v, q).
Proof.
  unfold visit, passable. simpl.
  destruct (insideGrid n), (bool_decide (key n ∈ v)),
    (bool_decide (key n ∈ obstacles)), (eq n goal); reflexivity.
Qed.

(** The [for] loop over the neighbours [ns] of a cell reached by [path]:
    it queues, with the path extended, exactly the passable neighbours
    not yet visited, and marks them visited. *)
Lemma fold_visit (path : list Cell) (ns : list Cell) :
  ∀ (v : gset string) (q : list (Cell * list Cell)) v' q',
    fold_left (visit goal obstacles path) ns (v, q) = (v', q') →
    ∃ new,
      q' = q ++ new ∧
      (∀ c, key c ∈ v' ↔ key c ∈ v ∨ ∃ pth, (c, pth) ∈ new) ∧
      (∀ n pth, (n, pth) ∈ new →
         pth = path ++ [n] ∧ n ∈ ns ∧ passable n = true ∧ key n ∉ v) ∧
      (∀ n, n ∈ ns → passable n = true → key n ∈ v') ∧
      (unvisited v' + length new ≤ unvisited v)%nat.
Proof.
  induction ns as [|a ns IH]; intros v q v' q' Hfold; simpl in Hfold.
  - injection Hfold as <- <-. exists []. rewrite app_nil_r.
    split; [reflexivity|]. split; [|split; [|split; [|simpl; lia]]].
    + intros c. split; [now left|].
      intros [Hc | (pth & Hin)]; [exact Hc | now apply elem_of_nil in Hin].
    + intros n pth Hin. now apply elem_of_nil in Hin.
    + intros n Hin. now apply elem_of_nil in Hin.
  - rewrite visit_eq in Hfold.
    destruct (passable a) eqn:Hpass;
      [destruct (bool_decide (key a ∈ v)) eqn:Hvis|]; simpl in Hfold.
    + apply bool_decide_eq_true in Hvis.
      destruct (IH _ _ _ _ Hfold) as (new & Hq & Hv & Hnew & Hns & Hmeasure).
      exists new. split; [exact Hq|]. split; [exact Hv|].
      split; [intros n pth Hin; destruct (Hnew n pth Hin) as (? & ? & ? & ?);
              repeat split; try assumption; now right|].
      split; [|exact Hmeasure].
      intros n Hin Hp. apply elem_of_cons in Hin as [-> | Hin]; [|now apply Hns].
      apply Hv. now left.
    + apply bool_decide_eq_false in Hvis.
      destruct (IH _ _ _ _ Hfold) as (new & Hq & Hv & Hnew & Hns & Hmeasure).
      exists ((a, path ++ [a]) :: new).
      split; [now rewrite Hq, <- app_assoc|]. split; [|split; [|split]].
      * intros c. rewrite Hv, elem_of_union, elem_of_singleton. split.
        -- intros [[Hkey | Hin] | (pth & Hin)].
           ++ right. exists (path ++ [a]). rewrite (key_inj _ _ Hkey). now left.
           ++ now left.
           ++ right. exists pth. now right.
        -- intros [Hin | (pth & Hin)]; [now left; right|].
           apply elem_of_cons in Hin as [[= -> ->] | Hin]; [now left; left|].
           right. now exists pth.
      * intros n pth Hin. apply elem_of_cons in Hin as [[= -> ->] | Hin].
        -- repeat split; try assumption. now left.
        -- destruct (Hnew n pth Hin) as (? & ? & ? & Hfresh).
           repeat split; try assumption; [now right|].
           intros Hn. apply Hfresh, elem_of_union. now right.
      * intros n Hin Hp. apply elem_of_cons in Hin as [-> | Hin]; [|now apply Hns].
        apply Hv. left. apply elem_of_union. left. now apply elem_of_singleton.
      * assert (Hin : insideGrid a = true).
        { unfold passable in Hpass. now apply andb_true_iff in Hpass as [? _]. }
        pose proof (unvisited_insert v a Hin Hvis). simpl. lia.
    + destruct (IH _ _ _ _ Hfold) as (new & Hq & Hv & Hnew & Hns & Hmeasure).
      exists new. split; [exact Hq|]. split; [exact Hv|].
      split; [intros n pth Hin; destruct (Hnew n pth Hin) as (? & ? & ? & ?);
              repeat split; try assumption; now right|].
      split; [|exact Hmeasure].
      intros n Hin Hp. apply elem_of_cons in Hin as [-> | Hin]; [|now apply Hns].
      congruence.
Qed.

(** The state of the search between two passes of the [while] loop, at
    depth [k]: the queue is [A ++ B], where the entries of [A] were
    reached by [k] hops and those of [B] by [k + 1], none by fewer;
    [visited] holds the cells at most [k] hops away and the cells of [B];
    and every cell at most [k] hops away is still in [A] or has been
    expanded, without being the goal. *)
Record frontier (k : nat) (A B : list (Cell * list Cell)) (visited : gset string)
    : Prop := mkFrontier {
  front_A : ∀ p path, (p, path) ∈ A →
    chain path p ∧ length path = S k ∧ ∀ j, walk j p → (k ≤ j)%nat;
  front_B : ∀ p path, (p, path) ∈ B →
    chain path p ∧ length path = S (S k) ∧ ∀ j, walk j p → (S k ≤ j)%nat;
  front_visited : ∀ c, key c ∈ visited →
    (∃ j, (j ≤ k)%nat ∧ walk j c) ∨ (∃ path, (c, path) ∈ B);
  front_near : ∀ j c, (j ≤ k)%nat → walk j c → key c ∈ visited;
  front_done : ∀ j c, (j ≤ k)%nat → walk j c →
    (∃ path, (c, path) ∈ A) ∨
    (c ≠ goal ∧ ∀ n, hop c n = true → key n ∈ visited)
}.

Lemma frontier_start : frontier 0 [(start, [start])] [] {[ key start ]}.
Proof.
  constructor.
  - intros p path Hin. apply list_elem_of_singleton in Hin as [= -> ->].
    repeat split; [constructor | lia].
  - intros p path Hin. now apply elem_of_nil in Hin.
  - intros c Hc. apply elem_of_singleton, key_inj in Hc as ->.
    left. exists 0%nat. split; [lia | constructor].
  - intros j c Hj Hwalk. assert (j = 0%nat) as -> by lia.
    inversion Hwalk. set_solver.
  - intros j c Hj Hwalk. assert (j = 0%nat) as -> by lia.
    inversion Hwalk; subst. left. exists [start]. now left.
Qed.

(** When the entries of depth [k] are used up, those of depth [k + 1]
    take their place. *)
Lemma frontier_next (k : nat) (B : list (Cell * list Cell)) (visited : gset string) :
  frontier k [] B visited → frontier (S k) B [] visited.
Proof.
  intros [HA HB Hvis Hnear Hdone].
  assert (Hexpanded : ∀ j c, (j ≤ k)%nat → walk j c →
            c ≠ goal ∧ ∀ n, hop c n = true → key n ∈ visited).
  { intros j c Hj Hwalk. destruct (Hdone j c Hj Hwalk) as [(path & Hin) | H];
      [now apply elem_of_nil in Hin | exact H]. }
  assert (Hnear' : ∀ j c, (j ≤ S k)%nat → walk j c → key c ∈ visited).
  { intros j c Hj Hwalk. destruct (decide (j ≤ k)%nat) as [Hle | Hgt];
      [now apply (Hnear j)|].
    assert (j = S k) as -> by lia. inversion Hwalk as [|k' p n Hp Hhop]; subst.
    now apply (Hexpanded k p). }
  constructor.
  - exact HB.
  - intros p path Hin. now apply elem_of_nil in Hin.
  - intros c Hc. left. destruct (Hvis c Hc) as [(j & Hj & Hwalk) | (path & Hin)].
    + exists j. split; [lia | exact Hwalk].
    + destruct (HB c path Hin) as (Hchain & Hlen & _).
      destruct (chain_walk _ _ Hchain) as (j & Hlen' & Hwalk).
      exists j. split; [lia | exact Hwalk].
  - exact Hnear'.
  - intros j c Hj Hwalk.
    destruct (Hvis c (Hnear' j c Hj Hwalk)) as [(j' & Hj' & Hwalk') | Hin];
      [right; now apply (Hexpanded j' c) | now left].
Qed.

(** One pass of the loop on an entry that is not the goal. *)
Lemma frontier_expand (k : nat) (p : Cell) (path : list Cell)
    (A B : list (Cell * list Cell)) (visited v' : gset string)
    (q' : list (Cell * list Cell)) :
  frontier k ((p, path) :: A) B visited →
  eq p goal = false →
  fold_left (visit goal obstacles path) (neighbors p) (visited, A ++ B) = (v', q') →
  ∃ new, q' = A ++ (B ++ new) ∧ frontier k A (B ++ new) v' ∧
         (unvisited v' + length new ≤ unvisited visited)%nat.
Proof.
  intros [HA HB Hvis Hnear Hdone] Hgoal Hfold.
  destruct (fold_visit path (neighbors p) _ _ _ _ Hfold)
    as (new & Hq & Hv & Hnew & Hns & Hmeasure).
  exists new. split; [now rewrite Hq, app_assoc|]. split; [|exact Hmeasure].
  destruct (HA p path ltac:(now left)) as (Hchain & Hlen & Hlow).
  destruct (chain_walk _ _ Hchain) as (k' & Hlen' & Hwalk).
  assert (k' = k) as -> by lia.
  constructor.
  - intros c pth Hin. apply HA. now right.
  - intros c pth Hin. apply elem_of_app in Hin as [Hin | Hin]; [now apply HB|].
    destruct (Hnew c pth Hin) as (-> & Hc & Hpass & Hfresh).
    assert (Hhop : hop p c = true).
    { unfold hop. rewrite Hpass, andb_true_r. apply existsb_exists.
      exists c. split; [now apply list_elem_of_In | now apply eq_true_iff]. }
    split; [now apply chain_snoc with p|].
    split; [rewrite length_app, Hlen; simpl; lia|].
    intros j Hj. destruct (decide (j ≤ k)%nat) as [Hle | Hgt]; [|lia].
    exfalso. apply Hfresh. now apply (Hnear j).
  - intros c Hc. apply Hv in Hc as [Hc | (pth & Hin)].
    + destruct (Hvis c Hc) as [Hj | (pth & Hin)]; [now left|].
      right. exists pth. apply elem_of_app. now left.
    + right. exists pth. apply elem_of_app. now right.
  - intros j c Hj Hc. apply Hv. left. now apply (Hnear j).
  - intros j c Hj Hc. destruct (Hdone j c Hj Hc) as [(pth & Hin) | [Hne Hall]].
    + apply elem_of_cons in Hin as [[= -> ->] | Hin]; [|left; now exists pth].
      right. split; [now apply eq_false_iff|].
      intros n Hhop. unfold hop in Hhop. apply andb_true_iff in Hhop as [Hadj Hpass].
      apply Hns; [|exact Hpass].
      apply existsb_exists in Hadj as (n' & Hin & Heq).
      apply eq_true_iff in Heq as ->. now apply list_elem_of_In.
    + right. split; [exact Hne|]. intros n Hhop. apply Hv. left. now apply Hall.
Qed.

(** With the queue empty, the cells visited are all the cells that can
    be reached, and the goal is not among them. *)
Lemma frontier_empty (k : nat) (visited : gset string) :
  frontier k [] [] visited → ∀ j, ¬ walk j goal.
Proof.
  intros [HA HB Hvis Hnear Hdone].
  assert (Hclosed : ∀ j c, walk j c → ∃ j', (j' ≤ k)%nat ∧ walk j' c).
  { induction 1 as [|j p n _ (j' & Hj' & Hp) Hhop].
    - exists 0%nat. split; [lia | constructor].
    - destruct (Hdone j' p Hj' Hp) as [(pth & Hin) | [_ Hall]];
        [now apply elem_of_nil in Hin|].
      destruct (Hvis n (Hall n Hhop)) as [Hn | (pth & Hin)];
        [exact Hn | now apply elem_of_nil in Hin]. }
  intros j Hwalk. destruct (Hclosed j goal Hwalk) as (j' & Hj' & Hwalk').
  destruct (Hdone j' goal Hj' Hwalk') as [(pth & Hin) | [Hne _]];
    [now apply elem_of_nil in Hin | now apply Hne].
Qed.

(** What the search returns: a shortest chain to the goal, or [null]
    when no walk leads there. *)
Definition found (r : option (option (list Cell))) : Prop :=
  match r with
  | Some (Some path) =>
      chain path goal ∧ ∀ j, walk j goal → (length path ≤ S j)%nat
  | Some None => ∀ j, ¬ walk j goal
  | None => False
  end.

Lemma bfsLoop_found (fuel : nat) :
  ∀ k A B visited,
    frontier k A B visited →
    (unvisited visited + length (A ++ B) < fuel)%nat →
    found (bfsLoop fuel goal obstacles visited (A ++ B)).
Proof.
  induction fuel as [|fuel IH]; intros k A B visited Hfront Hfuel; [lia|].
  assert (Hpass : ∀ k p path A B visited,
            frontier k ((p, path) :: A) B visited →
            (unvisited visited + length (((p, path) :: A) ++ B) < S fuel)%nat →
            found (bfsLoop (S fuel) goal obstacles visited (((p, path) :: A) ++ B))).
  { clear k A B visited Hfront Hfuel. intros k p path A B visited Hfront Hfuel.
    change (((p, path) :: A) ++ B) with ((p, path) :: (A ++ B)).
    cbn [bfsLoop]. destruct (eq p goal) eqn:Hgoal.
    - apply eq_true_iff in Hgoal as ->.
      destruct (front_A _ _ _ _ Hfront goal path ltac:(now left))
        as (Hchain & Hlen & Hlow).
      split; [exact Hchain|]. intros j Hj. specialize (Hlow j Hj). lia.
    - destruct (fold_left (visit goal obstacles path) (neighbors p)
                  (visited, A ++ B)) as [v' q'] eqn:Hfold.
      destruct (frontier_expand _ _ _ _ _ _ _ _ Hfront Hgoal Hfold)
        as (new & -> & Hfront' & Hmeasure).
      apply (IH k); [exact Hfront'|].
      simpl in Hfuel. rewrite !length_app in *. lia. }
  destruct A as [|[p path] A].
  - destruct B as [|[p path] B].
    + simpl. now apply (frontier_empty k visited).
    + change ([] ++ (p, path) :: B) with ((p, path) :: B) in *.
      rewrite <- (app_nil_r ((p, path) :: B)) in Hfuel |- *.
      apply (Hpass (S k)); [now apply frontier_next | exact Hfuel].
  - now apply (Hpass k).
Qed.

Lemma bfsSearch_found : found (bfsSearch start goal obstacles).
Proof.
  unfold bfsSearch.
  change [(start, [start])] with ([(start, [start])] ++ @nil (Cell * list Cell)).
  apply (bfsLoop_found bfsFuel 0); [apply frontier_start|].
  pose proof (unvisited_bound {[ key start ]}).
  change bfsFuel with 902%nat. simpl. lia.
Qed.

End Bfs.

(** ** Paths on the grid *)

(** 4-connected neighbours: one step apart along one axis. *)
Definition adjacent (p n : Cell) : bool :=
  Z.abs (cx n - cx p) + Z.abs (cy n - cy p) =? 1.

(** A cell a path may step on in state [s], going to [goal]: inside the
    grid, and on no snake's body unless it is the goal itself. *)
Definition traversable (s : State) (goal n : Cell) : bool :=
  insideGrid n && (negb (occupied s n) || eq n goal).

(** [rest] continues a path from [p] to [target] by steps to adjacent
    traversable cells. *)
Fixpoint pathBetween (s : State) (goal p : Cell) (rest : list Cell)
    (target : Cell) : bool :=
  match rest with
  | [] => eq p target
  | n :: rest' =>
      adjacent p n && traversable s goal n && pathBetween s goal n rest' target
  end.

(** A path from [start] to [goal]: the list of its cells, [start] first.
    The start is where the search stands (in the game, the AI's head,
    itself a body cell) and is not tested. *)
Definition validPath (s : State) (start goal : Cell) (path : list Cell) : bool :=
  match path with
  | [] => false
  | c :: rest => eq c start && pathBetween s goal c rest goal
  end.

(** The hop count of a path. *)
Definition hops (path : list Cell) : nat := (length path - 1)%nat.

Lemma adjacent_neighbors (p n : Cell) : adjacent p n = true ↔ n ∈ neighbors p.
Proof.
  unfold adjacent, neighbors. rewrite Z.eqb_eq, !elem_of_cons, elem_of_nil.
  destruct p as [px py], n as [nx ny]. simpl. split.
  - intros H.
    assert ((nx = px + 1 ∧ ny = py) ∨ (nx = px - 1 ∧ ny = py) ∨
            (nx = px ∧ ny = py + 1) ∨ (nx = px ∧ ny = py - 1)) as Hcases by lia.
    destruct Hcases as [[-> ->] | [[-> ->] | [[-> ->] | [-> ->]]]]; auto.
  - intros [[= -> ->] | [[= -> ->] | [[= -> ->] | [[= -> ->] | []]]]]; lia.
Qed.

Lemma hop_step (s : State) (goal p n : Cell) :
  hop goal (obstaclesOf s) p n = adjacent p n && traversable s goal n.
Proof.
  unfold hop, passable, traversable. f_equal.
  - apply eq_true_iff_eq. rewrite adjacent_neighbors, existsb_exists. split.
    + intros (c & Hin & Heq). apply eq_true_iff in Heq as ->.
      now apply list_elem_of_In.
    + intros Hin. exists n. split; [now apply list_elem_of_In | now apply eq_true_iff].
  - f_equal. assert (bool_decide (key n ∈ obstaclesOf s) = occupied s n) as ->.
    { apply eq_true_iff_eq. now rewrite bool_decide_eq_true, elem_of_obstaclesOf. }
    now destruct (occupied s n), (eq n goal).
Qed.

Lemma pathBetween_snoc (s : State) (goal : Cell) (rest : list Cell) :
  ∀ p t n, pathBetween s goal p rest t = true →
           hop goal (obstaclesOf s) t n = true →
           pathBetween s goal p (rest ++ [n]) n = true.
Proof.
  induction rest as [|c rest IH]; intros p t n Hpath Hhop; simpl in *.
  - apply eq_true_iff in Hpath as ->. rewrite <- hop_step, Hhop.
    now apply eq_true_iff.
  - apply andb_true_iff in Hpath as [-> Hpath]. simpl. now apply (IH c t).
Qed.

Lemma chain_validPath (s : State) (start goal : Cell) (path : list Cell) (c : Cell) :
  chain start goal (obstaclesOf s) path c →
  ∃ rest, path = start :: rest ∧ pathBetween s goal start rest c = true.
Proof.
  induction 1 as [|path p n _ (rest & -> & Hpath) Hhop].
  - exists []. split; [reflexivity | now apply eq_true_iff].
  - exists (rest ++ [n]). split; [reflexivity | now apply pathBetween_snoc with p].
Qed.

Lemma pathBetween_chain (s : State) (start goal : Cell) (rest : list Cell) :
  ∀ p t pre,
    chain start goal (obstaclesOf s) (pre ++ [p]) p →
    pathBetween s goal p rest t = true →
    chain start goal (obstaclesOf s) (pre ++ p :: rest) t.
Proof.
  induction rest as [|n rest IH]; intros p t pre Hchain Hpath; simpl in Hpath.
  - now apply eq_true_iff in Hpath as <-.
  - apply andb_true_iff in Hpath as [Hstep Hpath].
    rewrite <- hop_step in Hstep.
    change (pre ++ p :: n :: rest) with (pre ++ [p] ++ n :: rest).
    rewrite app_assoc. apply IH; [|exact Hpath].
    now apply chain_snoc with p.
Qed.

Lemma validPath_chain (s : State) (start goal : Cell) (path : list Cell) :
  validPath s start goal path = true ↔
  chain start goal (obstaclesOf s) path goal.
Proof.
  split.
  - destruct path as [|c rest]; [discriminate|]. simpl.
    intros [Hc Hpath]%andb_true_iff. apply eq_true_iff in Hc as ->.
    apply (pathBetween_chain s start goal rest start goal []); [constructor | exact Hpath].
  - intros Hchain. destruct (chain_validPath _ _ _ _ _ Hchain) as (rest & -> & Hpath).
    simpl. rewrite Hpath, andb_true_r. now apply eq_true_iff.
Qed.

(** C2. [bfsPath] never runs out of passes. When some path leads from
    the start to the goal by steps to adjacent cells that are inside the
    grid and on no snake's body (the goal cell itself allowed even when
    a body covers it), [bfsPath] returns such a path, and no such path
    has fewer hops; when there is none, it returns [null]. *)
Theorem bfsPath_shortest (s : State) (start goal : Cell) :
  is_Some (bfsSearch start goal (obstaclesOf s)) ∧
  (∀ path, validPath s start goal path = true →
     ∃ best,
       bfsPath start goal s = Ok (Some best) s ∧
       validPath s start goal best = true ∧
       ∀ other, validPath s start goal other = true →
                (hops best ≤ hops other)%nat) ∧
  ((∀ path, validPath s start goal path = false) →
   bfsPath start goal s = Ok None s).
Proof.
  pose proof (bfsSearch_found start goal (obstaclesOf s)) as Hfound.
  unfold bfsPath. rewrite bind_get. unfold ret.
  destruct (bfsSearch start goal (obstaclesOf s)) as [[best|]|]; simpl in *;
    [| |contradiction].
  - destruct Hfound as [Hchain Hshort].
    split; [eauto|]. split.
    + intros _ _. exists best. split; [reflexivity|].
      split; [now apply validPath_chain|].
      intros other Hother. apply validPath_chain, chain_walk in Hother
        as (j & Hlen & Hwalk).
      specialize (Hshort j Hwalk). unfold hops. lia.
    + intros Hnone. apply validPath_chain in Hchain. now rewrite Hnone in Hchain.
  - split; [eauto|]. split; [|reflexivity].
    intros path Hpath. apply validPath_chain, chain_walk in Hpath
      as (j & _ & Hwalk).
    now destruct (Hfound j).
Qed.

Definition scenarioD : State :=
  set_foods [mkFood 2 6 Normal None 0]
    (set_aiSnake
       (Some (set_difficulty (Some Hard)
                (makeSnake [mkCell 2 2; mkCell 1 2; mkCell 0 2])))
       freshDuel).

Lemma bfsPath_shortest_witness :
  ∃ best,
    bfsPath (mkCell 2 2) (mkCell 2 6) scenarioD = Ok (Some best) scenarioD ∧
    validPath scenarioD (mkCell 2 2) (mkCell 2 6) best = true ∧
    (hops best ≤ 4)%nat.
Proof.
  destruct (proj1 (proj2 (bfsPath_shortest scenarioD (mkCell 2 2) (mkCell 2 6)))
              [mkCell 2 2; mkCell 2 3; mkCell 2 4; mkCell 2 5; mkCell 2 6])
    as (best & Hrun & Hvalid & Hshort); [now vm_compute|].
  exists best. split; [exact Hrun|]. split; [exact Hvalid|].
  apply (Hshort [mkCell 2 2; mkCell 2 3; mkCell 2 4; mkCell 2 5; mkCell 2 6]).
  now vm_compute.
Defined.

(** Scenario D, run: from (2,2) to the food at (2,6) the search returns
    the five cells straight down, and the hard AI turns down. *)
Example bfsPath_scenarioD :
  bfsPath (mkCell 2 2) (mkCell 2 6) scenarioD =
    Ok (Some [mkCell 2 2; mkCell 2 3; mkCell 2 4; mkCell 2 5; mkCell 2 6]) scenarioD ∧
  (dir <$> aiSnake (outcome (aiStep scenarioD))) = Some Down.
Proof. split; now vm_compute. Qed.

(** ** A player without segments *)

(** After a poison has taken the last segments of the live player, the
    head [playerSnake.body[0]] is [undefined]: every further pass of
    [handleFoodCollisions] throws on it, and so does
    [handleCollisionsSingleMode] when a live AI snake is there. In the
    match [shortAndPoisoned], one tick does both: the player of two
    segments eats the poison, and the tick ends in the throw, the player
    alive and without segments. *)
Definition shortAndPoisoned : State :=
  set_foods [mkFood 14 15 Special (Some Poison) 0]
    (set_playerSnake (Some (makeSnake [mkCell 13 15; mkCell 12 15])) freshDuel).

Theorem headless_player_throws :
  (∀ (i : nat) (s : State) (p : Snake),
     playerSnake s = Some p → body p = [] → foodStep i s = Throw s) ∧
  (∀ (s : State) (p a : Snake),
     playerSnake s = Some p → alive p = true → body p = [] →
     aiSnake s = Some a → alive a = true →
     ∃ s', handleCollisionsSingleMode s = Throw s') ∧
  (∃ s', gameTick shortAndPoisoned = Throw s' ∧
         (body <$> playerSnake s') = Some [] ∧
         (alive <$> playerSnake s') = Some true).
Proof.
  split; [|split].
  - intros i s p Hp Hbody. unfold foodStep.
    rewrite bind_get, (bind_Ok _ _ _ _ _ (readSnake_Ok Player s p Hp)), Hbody.
    simpl. now destruct (foods s !! i).
  - intros s p a Hp Halive Hbody Ha Haalive. unfold handleCollisionsSingleMode.
    rewrite (bind_Ok _ _ _ _ _ (readSnake_Ok Player s p Hp)), Halive.
    rewrite (bind_Ok _ _ _ _ _ (selfCollision_headless Player s p Hp Hbody)).
    unfold playerVsAi. rewrite bind_get, Ha, Haalive. cbn [negb].
    assert (Hself : ∃ s2, selfCollision Opponent s = Ok () s2 ∧
                          playerSnake s2 = Some p ∧ is_Some (aiSnake s2)).
    { destruct (body a) as [|h rest] eqn:Hab.
      - exists s. rewrite (selfCollision_headless Opponent s a Ha Hab). eauto.
      - rewrite (selfCollision_Ok Opponent s a h rest Ha Hab).
        destruct (existsb (eq h) rest); eexists; (split; [reflexivity|]); simpl; eauto. }
    destruct Hself as (s2 & Hrun & Hp2 & a2 & Ha2).
    rewrite (bind_Ok _ _ _ _ _ Hrun).
    rewrite (bind_Ok _ _ _ _ _ (readSnake_Ok Player s2 p Hp2)), Halive.
    exists s2. apply bind_Throw.
    rewrite (bind_Ok _ _ _ _ _ (readSnake_Ok Opponent s2 a2 Ha2)), Hbody.
    reflexivity.
  - eexists. split; [now vm_compute | split; reflexivity].
Qed.

(** ** A match in which poison leaves the player without segments *)

(** The states reached from [s] by the events [es], in order. *)
Definition run (es : list Event) (s : State) : State :=
  fold_left (λ s e, after e s) es s.

(** Each event of [es] is enabled when its turn comes. *)
Fixpoint allEnabled (es : list Event) (s : State) : bool :=
  match es with
  | [] => true
  | e :: es' => enabled e s && allEnabled es' (after e s)
  end.

Lemma reachable_run (es : list Event) :
  ∀ s, reachable s → allEnabled es s = true → reachable (run es s).
Proof.
  induction es as [|e es IH]; intros s Hs Hen; simpl in *; [exact Hs|].
  apply andb_true_iff in Hen as [He Hes].
  apply IH; [now apply reach_event | exact Hes].
Qed.

(** [run es s], when each event of [es] is enabled at its turn. *)
Fixpoint runEnabled (es : list Event) (s : State) : option State :=
  match es with
  | [] => Some s
  | e :: es' => if enabled e s then runEnabled es' (after e s) else None
  end.

Lemma runEnabled_Some (es : list Event) :
  ∀ s s', runEnabled es s = Some s' → allEnabled es s = true ∧ run es s = s'.
Proof.
  induction es as [|e es IH]; intros s s' H; simpl in *.
  - injection H as <-. auto.
  - destruct (enabled e s); [|discriminate]. now apply IH.
Qed.

Lemma reachable_runEnabled (es : list Event) (s s' : State) :
  reachable s → runEnabled es s = Some s' → reachable s'.
Proof.
  intros Hs H. destruct (runEnabled_Some es s s' H) as [Hen <-].
  now apply reachable_run.
Qed.

(** The sample [a / b] of [Math.random()], as a numerator over [2^53]. *)
Definition sampleOf (a b : Z) : Z := a * two53 / b.

(** The samples [Math.random()] returns in the match below: the first
    food on (16,15); a special food due, on (15,15), poison; the
    replacement food on (0,29); a special food due, on (18,15), poison. *)
Definition poisonDraws : list Z :=
  [ sampleOf 33 60; sampleOf 31 60;
    0; sampleOf 31 60; sampleOf 31 60; sampleOf 5 8;
    0; sampleOf 59 60;
    0; sampleOf 37 60; sampleOf 31 60; sampleOf 5 8 ].

(** An AI match on hard: the player, going right, eats the poison on
    (15,15) and is left with one segment, eats the normal food on (16,15)
    and grows to two, and has the second poison spawned just ahead. *)
Definition beforeLastBite : State :=
  run [SpecialSpawn; Tick; Tick; Tick; Tick; SpecialSpawn]
    (after (StartAI Hard) (pageLoad (λ n, nth n poisonDraws 0) (λ n, Z.of_nat n))).

(** The state [beforeLastBite], field by field. *)
Definition twoSegmentsLeft : State :=
  {| mode := Some AI; running := true; tickInterval := 150;
     tickTimer := Some 150; score := 1; playerDir := Right;
     invisibleTailTicks := 0; speedBoost := 0;
     playerSnake :=
       Some (mkSnake [mkCell 17 15; mkCell 16 15] Right true 0 speedUp None);
     aiSnake :=
       Some (mkSnake [mkCell 9 7; mkCell 9 6; mkCell 8 6] Down true 0
               PrimFloat.one (Some Hard));
     foods := [mkFood 0 29 Normal None 2; mkFood 18 15 Special (Some Poison) 3];
     gameTime := 0x1.3333333333333p-1%float; aiDifficulty := Hard;
     roomState := None; specialTimer := true; slowTimers := 0%nat;
     gameOverPanel := None; randoms := λ n, nth n poisonDraws 0; drawn := 12%nat;
     clock := λ n, Z.of_nat n; clockReads := 4%nat |}.

Lemma beforeLastBite_run :
  runEnabled [SpecialSpawn; Tick; Tick; Tick; Tick; SpecialSpawn]
    (after (StartAI Hard) (pageLoad (λ n, nth n poisonDraws 0) (λ n, Z.of_nat n))) =
  Some twoSegmentsLeft.
Proof. now vm_compute. Qed.

Lemma beforeLastBite_state : beforeLastBite = twoSegmentsLeft.
Proof. exact (proj2 (runEnabled_Some _ _ _ beforeLastBite_run)). Qed.

Lemma reachable_beforeLastBite : reachable beforeLastBite.
Proof.
  rewrite beforeLastBite_state.
  exact (reachable_runEnabled _ _ _ (reach_ai Hard _) beforeLastBite_run).
Qed.

(** C3, on the code. The poison effect itself is as stated
    ([consumeFood_poison]), but the tick in which a snake of two segments
    eats a poison does not end normally: in the reachable state
    [beforeLastBite] the player has two segments and steps onto the
    poison; the effect leaves its body empty, and the same tick throws a
    [TypeError] at the next read of [playerSnake.body[0]], leaving the
    player alive and without segments. *)
Theorem poison_tick_throws :
  reachable beforeLastBite ∧
  (body <$> playerSnake beforeLastBite) = Some [mkCell 17 15; mkCell 16 15] ∧
  (alive <$> aiSnake beforeLastBite) = Some true ∧
  foods beforeLastBite =
    [mkFood 0 29 Normal None 2; mkFood 18 15 Special (Some Poison) 3] ∧
  ∃ s',
    gameTick beforeLastBite = Throw s' ∧
    (body <$> playerSnake s') = Some [] ∧
    (alive <$> playerSnake s') = Some true ∧
    foods s' = [mkFood 0 29 Normal None 2].
Proof.
  split; [exact reachable_beforeLastBite|].
  rewrite beforeLastBite_state.
  do 3 (split; [reflexivity|]).
  eexists. split; [now vm_compute | repeat split].
Qed.

(** ** Deaths carry no cause, and a live snake can be without a head *)

(** A solo match: the first food on (0,29); a poison is spawned on
    (14,15) and eaten, which leaves the player one segment; a poison is
    spawned on (15,15) and eaten, which leaves it none, and the tick
    throws at the pass over the food. *)
Definition emptiedDraws : list Z :=
  [ 0; sampleOf 59 60;
    0; sampleOf 29 60; sampleOf 31 60; sampleOf 5 8;
    0; sampleOf 31 60; sampleOf 31 60; sampleOf 5 8 ].

Definition emptied : State :=
  run [SpecialSpawn; Tick; SpecialSpawn; Tick]
    (after StartSingle (pageLoad (λ n, nth n emptiedDraws 0) (λ n, Z.of_nat n))).

(** C5, as stated, fails. There is no death cause in the script: the
    player's death at the wall ([atTheWall]) and its death by
    self-collision ([coiled]) are both reported by [onPlayerDie('player')]
    and leave the same panel, and the two states after them differ in
    the player snake only. And a live snake need not have a head: in the
    reachable state [emptied] the player is alive and without
    segments. *)
Lemma death_without_cause :
  stepSnake Player Right atTheWall =
    Ok () (outcome (stepSnake Player Right atTheWall)) ∧
  handleCollisionsSingleMode coiled =
    Ok () (outcome (handleCollisionsSingleMode coiled)) ∧
  gameOverPanel (outcome (stepSnake Player Right atTheWall)) = Some (GameOver 0) ∧
  gameOverPanel (outcome (handleCollisionsSingleMode coiled)) = Some (GameOver 0) ∧
  set_playerSnake None (outcome (stepSnake Player Right atTheWall)) =
    set_playerSnake None (outcome (handleCollisionsSingleMode coiled)) ∧
  reachable emptied ∧
  (alive <$> playerSnake emptied) = Some true ∧
  (body <$> playerSnake emptied) = Some [].
Proof.
  split; [now vm_compute|]. split; [now vm_compute|]. split; [now vm_compute|].
  split; [now vm_compute|]. split; [now vm_compute|].
  split; [|split; now vm_compute].
  apply reachable_run; [apply reach_single | now vm_compute].
Qed.

(** ** A tie on a cell that holds a food and a poison *)

(** The samples [Math.random()] returns in the match below: the first
    food on (12,9); a special food due, on (14,15), poison; the AI's
    draw of the first tick; a special food due, on (12,9), poison; the
    AI's draws of eight more ticks, which make it turn once, down. *)
Definition tieDraws : list Z :=
  [ sampleOf 25 60; sampleOf 19 60;
    0; sampleOf 29 60; sampleOf 31 60; sampleOf 5 8;
    sampleOf 1 2;
    0; sampleOf 25 60; sampleOf 19 60; sampleOf 5 8;
    sampleOf 1 2; sampleOf 1 2; sampleOf 1 2; sampleOf 1 2; sampleOf 1 2;
    0; sampleOf 3 8;
    sampleOf 1 2; sampleOf 1 2 ].

Definition tieEvents : list Event :=
  [ SpecialSpawn; Tick; SpecialSpawn; KeyDown KeyW;
    Tick; Tick; Tick; Tick; Tick; Tick; KeyDown KeyA; Tick ].

(** An AI match on easy with the first food on (12,9). The player,
    going right, eats the poison spawned just ahead and is left with one
    segment; a second poison is spawned on the cell of the food; the
    player goes up from (14,15) and turns left at (14,9), the AI goes
    right from (6,6) and turns down at (12,6), and both heads are one
    step from (12,9). *)
Definition beforeTie : State :=
  run tieEvents
    (after (StartAI Easy) (pageLoad (λ n, nth n tieDraws 0) (λ n, Z.of_nat n))).

(** The state of the next tick when it calls [handleFoodCollisions]:
    both snakes have stepped. *)
Definition tieAtFood : State :=
  outcome ((stepSnake Player (playerDir beforeTie);; aiStep) beforeTie).

Definition foodOnTie : Food := mkFood 12 9 Normal None 0.
Definition poisonOnTie : Food := mkFood 12 9 Special (Some Poison) 2.

(** The AI snake with its head on (12,9), as it stepped there. *)
Definition aiOnTie : Snake :=
  set_dir Down (set_difficulty (Some Easy)
    (makeSnake [mkCell 12 9; mkCell 12 8; mkCell 12 7])).

(** C7, on the code. In the reachable state [beforeTie] the next tick
    puts the head of the player, of one segment, and the head of the
    live AI snake on (12,9), the cell of a normal food and of a poison.
    [handleFoodCollisions] passes over the poison first: the player
    eats it, it is removed, and the player is left without segments.
    The pass over the normal food then throws a [TypeError] at the read
    of [playerSnake.body[0]]: the normal food is consumed by neither
    snake (the player's score and pending growth and the AI snake are as
    they were) and it stays in the food list. The tick ends in that
    throw. *)
Theorem tie_food_uneaten :
  reachable beforeTie ∧
  (body <$> playerSnake beforeTie) = Some [mkCell 13 9] ∧
  (body <$> aiSnake beforeTie) = Some [mkCell 12 8; mkCell 12 7; mkCell 12 6] ∧
  foods beforeTie = [foodOnTie; poisonOnTie] ∧
  (stepSnake Player (playerDir beforeTie);; aiStep) beforeTie = Ok () tieAtFood ∧
  playerSnake tieAtFood = Some (makeSnake [mkCell 12 9]) ∧
  aiSnake tieAtFood = Some aiOnTie ∧
  foods tieAtFood = [foodOnTie; poisonOnTie] ∧
  score tieAtFood = 0 ∧
  handleFoodCollisions tieAtFood =
    Throw (set_foods [foodOnTie]
             (set_playerSnake (Some (makeSnake [])) tieAtFood)) ∧
  ∃ s', gameTick beforeTie = Throw s' ∧
        playerSnake s' = Some (makeSnake []) ∧
        aiSnake s' = Some aiOnTie ∧
        foods s' = [foodOnTie] ∧
        score s' = 0.
Proof.
  split.
  { apply reachable_run; [apply reach_ai | now vm_compute]. }
  do 9 (split; [now vm_compute|]).
  eexists. split; [now vm_compute | now vm_compute].
Qed.

(** ** AI: the choice of a target *)

(** The Manhattan distance [findNearestFood] computes for a food. *)
Definition distance (pos : Cell) (f : Food) : Z :=
  Z.abs (fx f - cx pos) + Z.abs (fy f - cy pos).

(** What the loop of [findNearestFood] holds in [best], [bestDist] after
    the foods [l]: nothing when [l] is empty, else the first food of [l]
    at the least distance. *)
Definition bestOf (pos : Cell) (l : list Food) (acc : option (Food * Z)) : Prop :=
  match acc with
  | None => l = []
  | Some (t, d) =>
      d = distance pos t ∧
      ∃ i, l !! i = Some t ∧
           (∀ f, f ∈ l → d ≤ distance pos f) ∧
           (∀ j f, (j < i)%nat → l !! j = Some f → d < distance pos f)
  end.

Lemma nearer_bestOf (pos : Cell) (l : list Food) (acc : option (Food * Z)) (f : Food) :
  bestOf pos l acc → bestOf pos (l ++ [f]) (nearer pos acc f).
Proof.
  unfold nearer. fold (distance pos f). destruct acc as [[t d]|]; simpl.
  - intros (Hd & i & Hi & Hmin & Hfirst).
    destruct (distance pos f <? d) eqn:Hlt; simpl.
    + apply Z.ltb_lt in Hlt. split; [reflexivity|]. exists (length l).
      split; [now rewrite lookup_app_r, Nat.sub_diag by lia|]. split.
      * intros g [Hg | Hg%list_elem_of_singleton]%elem_of_app; [|subst; lia].
        specialize (Hmin g Hg). lia.
      * intros j g Hj Hg. rewrite lookup_app_l in Hg by exact Hj.
        apply list_elem_of_lookup_2 in Hg. specialize (Hmin g Hg). lia.
    + apply Z.ltb_ge in Hlt. split; [exact Hd|]. exists i.
      pose proof (lookup_lt_Some _ _ _ Hi) as Hlen.
      split; [now rewrite lookup_app_l|]. split.
      * intros g [Hg | Hg%list_elem_of_singleton]%elem_of_app; [now apply Hmin|].
        now subst.
      * intros j g Hj Hg. rewrite lookup_app_l in Hg by lia. now apply (Hfirst j).
  - intros ->. split; [reflexivity|]. exists 0%nat. split; [reflexivity|]. split.
    + intros g Hg%list_elem_of_singleton. subst. lia.
    + intros j g Hj. lia.
Qed.

Lemma fold_nearer_bestOf (pos : Cell) (rest : list Food) :
  ∀ pre acc, bestOf pos pre acc →
             bestOf pos (pre ++ rest) (fold_left (nearer pos) rest acc).
Proof.
  induction rest as [|f rest IH]; intros pre acc Hacc; simpl.
  - now rewrite app_nil_r.
  - rewrite (assoc_L (++) pre [f] rest : pre ++ f :: rest = (pre ++ [f]) ++ rest).
    apply IH. now apply nearer_bestOf.
Qed.

(** [findNearestFood] returns [null] exactly when there is no food.
    Otherwise it returns a food of the list at the least Manhattan
    distance from [pos], and of those the first in the list: every
    earlier food is strictly farther. With foods on the board and no
    position to measure from ([undefined], the head of an empty body), it
    throws. *)
Theorem findNearestFood_nearest (pos : Cell) (s : State) :
  (foods s = [] → ∀ o, findNearestFood o s = Ok None s) ∧
  (foods s ≠ [] →
   findNearestFood None s = Throw s ∧
   ∃ i t,
     findNearestFood (Some pos) s = Ok (Some t) s ∧
     foods s !! i = Some t ∧
     (∀ f, f ∈ foods s → distance pos t ≤ distance pos f) ∧
     (∀ j f, (j < i)%nat → foods s !! j = Some f →
             distance pos t < distance pos f)).
Proof.
  split.
  - intros Hnil o. unfold findNearestFood. now rewrite bind_get, Hnil.
  - intros Hne.
    pose proof (fold_nearer_bestOf pos (foods s) [] None eq_refl) as Hbest.
    simpl in Hbest. unfold findNearestFood. rewrite !bind_get.
    destruct (foods s) as [|f0 l] eqn:Hfoods; [done|]. split; [reflexivity|].
    destruct (fold_left (nearer pos) (f0 :: l) None) as [[t d]|] eqn:Hfold;
      [|discriminate].
    destruct Hbest as (-> & i & Hi & Hmin & Hfirst).
    exists i, t. repeat split; assumption.
Qed.

Definition threeFoods : State :=
  set_foods [mkFood 9 9 Normal None 0; mkFood 3 4 Normal None 0;
             mkFood 4 3 Special (Some Bonus) 0]
    (pageLoad (λ _, 0) (λ _, 0)).

Lemma findNearestFood_nearest_witness :
  findNearestFood (Some (mkCell 3 3)) threeFoods =
    Ok (Some (mkFood 3 4 Normal None 0)) threeFoods.
Proof.
  destruct (proj2 (findNearestFood_nearest (mkCell 3 3) threeFoods))
    as (_ & i & t & Hrun & _); [discriminate|].
  rewrite Hrun. vm_compute in Hrun. injection Hrun as <-. reflexivity.
Defined.

(** ** Step engine: a step that stays on the grid *)

(** The snake after [stepSnake] has put [head] in front of it. *)
Definition advance (head : Cell) (sn : Snake) : Snake :=
  if 0 <? pendingGrow sn
  then set_pendingGrow (pendingGrow sn - 1) (set_body (head :: body sn) sn)
  else set_body (pop (head :: body sn)) sn.

Lemma stepSnake_advance (who : Who) (d : Dir) (s : State) (snake : Snake)
    (h : Cell) (rest : list Cell) :
  getSnake who s = Some snake →
  alive snake = true →
  body snake = h :: rest →
  insideGrid (moved h d) = true →
  stepSnake who d s = Ok () (setSnake who (advance (moved h d) snake) s).
Proof.
  intros Hget Halive Hbody Hin. unfold stepSnake.
  rewrite bind_get, Hget, Halive, Hbody. simpl. rewrite Hin. simpl.
  rewrite (bind_Ok _ _ _ _ _ (updateSnake_Ok _ _ _ _ Hget)).
  rewrite (bind_Ok _ _ _ _ _ (readSnake_Ok _ _ _ (getSnake_setSnake _ _ _))).
  unfold advance. simpl.
  destruct (0 <? pendingGrow snake);
    rewrite (updateSnake_Ok _ _ _ _ (getSnake_setSnake _ _ _)), setSnake_setSnake;
    simpl; rewrite Hbody; reflexivity.
Qed.

Lemma advance_head (c : Cell) (sn : Snake) :
  body sn ≠ [] → head (body (advance c sn)) = Some c.
Proof.
  intros Hne. unfold advance. destruct (0 <? pendingGrow sn); simpl; [done|].
  destruct (body sn) as [|c' l]; [done|]. now rewrite pop_cons.
Qed.

(** ** AI on easy: it keeps off the walls *)

(** The AI snake [a] turned to [d], with [n] samples drawn. *)
Definition aimed (a : Snake) (s : State) (d : Dir) (n : nat) : State :=
  set_aiSnake (Some (set_dir d a)) (set_drawn n s).

(** The direction after the four tests [if (head.x < 2) ...] of the easy
    AI, starting with direction [d]. *)
Definition inward (h : Cell) (d : Dir) : Dir :=
  let d := if cx h <? 2 then Right else d in
  let d := if GRID - 3 <? cx h then Left else d in
  let d := if cy h <? 2 then Down else d in
  if GRID - 3 <? cy h then Up else d.

Lemma aimed_self (a : Snake) (s : State) :
  aiSnake s = Some a → s = aimed a s (dir a) (drawn s).
Proof. intros Hai. destruct s, a. simpl in Hai. now subst. Qed.

Lemma inward_inside (h : Cell) (d : Dir) :
  insideGrid h = true → insideGrid (moved h (inward h d)) = true.
Proof.
  unfold insideGrid, inward, GRID.
  rewrite !andb_true_iff, !Z.leb_le, !Z.ltb_lt. intros Hin.
  destruct (cx h <? 2) eqn:H1, (30 - 3 <? cx h) eqn:H2,
    (cy h <? 2) eqn:H3, (30 - 3 <? cy h) eqn:H4;
    rewrite ?Z.ltb_lt, ?Z.ltb_ge in *; try lia; destruct d; simpl; lia.
Qed.

Lemma easy_turn (a : Snake) (s : State) (n : nat) :
  ∃ d n',
    bind (randomLess 0x1.999999999999ap-3%float) (λ r, when r randomDir) (aimed a s (dir a) n) =
      Ok () (aimed a s d n').
Proof.
  unfold randomLess, Math_random, randomDir, randomBelow. run.
  destruct (PrimFloat.ltb _ _); simpl; eexists _, _; reflexivity.
Qed.

Lemma easy_steer (a : Snake) (s : State) (h : Cell) (d : Dir) (n : nat)
    (k : M unit) :
  bind (when (cx h <? 2) (setAiDir Right)) (λ _,
    bind (when (GRID - 3 <? cx h) (setAiDir Left)) (λ _,
      bind (when (cy h <? 2) (setAiDir Down)) (λ _,
        bind (when (GRID - 3 <? cy h) (setAiDir Up)) (λ _, k))))
    (aimed a s d n) =
  k (aimed a s (inward h d) n).
Proof.
  unfold inward.
  destruct (cx h <? 2), (GRID - 3 <? cx h), (cy h <? 2), (GRID - 3 <? cy h);
    reflexivity.
Qed.

(** On easy, the AI never steps off the grid. Whatever the samples of
    [Math.random()], a live AI snake whose head is on the grid takes one
    step to a cell of the grid and stays alive through [aiStep]: next to
    a wall the four tests of its head turn it inward, and elsewhere any
    direction is safe. Nothing else of the game changes. *)
Theorem aiStep_easy_inside (s : State) (a : Snake) (h : Cell) (rest : list Cell) :
  aiSnake s = Some a →
  alive a = true →
  difficulty a = Some Easy →
  body a = h :: rest →
  insideGrid h = true →
  ∃ d0 n,
    let d := inward h d0 in
    let a' := advance (moved h d) (set_dir d a) in
    aiStep s = Ok () (set_aiSnake (Some a') (set_drawn n s)) ∧
    alive a' = true ∧
    head (body a') = Some (moved h d) ∧
    insideGrid (moved h d) = true.
Proof.
  intros Hai Halive Hdiff Hbody Hin.
  destruct (easy_turn a s (drawn s)) as (d0 & n & Hturn).
  exists d0, n. simpl.
  pose proof (inward_inside h d0 Hin) as Hinside.
  split; [|split; [|split; [|exact Hinside]]].
  - rewrite (aimed_self a s Hai) at 1. unfold aiStep.
    rewrite (bind_Ok _ _ _ _ _ (readSnake_Ok Opponent (aimed a s (dir a) (drawn s)) (set_dir (dir a) a) eq_refl)).
    cbn [alive difficulty body set_dir]. rewrite Halive, Hdiff, Hbody.
    cbn [negb head].
    assert (Hsplit : ∀ (k : M unit) st,
              bind (r ← randomLess 0x1.999999999999ap-3%float; when r randomDir) (λ _, k) st =
              bind (randomLess 0x1.999999999999ap-3%float) (λ r, bind (when r randomDir) (λ _, k)) st).
    { intros k st. unfold bind. now destruct (randomLess 0x1.999999999999ap-3%float st). }
    rewrite <- Hsplit, (bind_Ok _ _ _ _ _ Hturn), easy_steer.
    unfold stepAi.
    rewrite (bind_Ok _ _ _ _ _ (readSnake_Ok Opponent (aimed a s (inward h d0) n) (set_dir (inward h d0) a) eq_refl)).
    cbn [dir set_dir].
    rewrite (stepSnake_advance Opponent _ (aimed a s (inward h d0) n)
               (set_dir (inward h d0) a) h rest eq_refl Halive Hbody Hinside).
    reflexivity.
  - unfold advance. now destruct (0 <? _).
  - apply advance_head. simpl. now rewrite Hbody.
Qed.

Definition easyAtTheWall : State :=
  set_aiSnake
    (Some (set_difficulty (Some Easy)
             (makeSnake [mkCell 29 6; mkCell 28 6; mkCell 27 6])))
    (after (StartAI Easy) (pageLoad (λ _, 0) (λ _, 0))).

Lemma aiStep_easy_inside_witness :
  (body <$> aiSnake (outcome (aiStep easyAtTheWall))) =
    Some [mkCell 28 6; mkCell 29 6; mkCell 28 6].
Proof.
  destruct (aiStep_easy_inside easyAtTheWall
              (set_difficulty (Some Easy)
                 (makeSnake [mkCell 29 6; mkCell 28 6; mkCell 27 6]))
              (mkCell 29 6) [mkCell 28 6; mkCell 27 6]
              eq_refl eq_refl eq_refl eq_refl eq_refl) as (d0 & n & Hrun & _).
  rewrite Hrun. vm_compute in Hrun. injection Hrun as Hrun. reflexivity.
Defined.

(** ** AI on hard: it follows the path found *)

(** The direction after the four tests [if (next.x > head.x) ...],
    starting with direction [d]. *)
Definition toward (h next : Cell) (d : Dir) : Dir :=
  let d := if cx h <? cx next then Right else d in
  let d := if cx next <? cx h then Left else d in
  let d := if cy h <? cy next then Down else d in
  if cy next <? cy h then Up else d.

Lemma toward_moved (h next : Cell) (d : Dir) :
  adjacent h next = true → moved h (toward h next d) = next.
Proof.
  intros Hadj%adjacent_neighbors. unfold neighbors in Hadj.
  rewrite !elem_of_cons, elem_of_nil in Hadj. unfold toward.
  destruct h as [x y].
  destruct Hadj as [-> | [-> | [-> | [-> | []]]]]; cbn [cx cy];
    repeat match goal with
           | |- context [?a <? ?b] =>
               first [rewrite (proj2 (Z.ltb_lt a b)) by lia
                     | rewrite (proj2 (Z.ltb_ge a b)) by lia]
           end; simpl; f_equal; lia.
Qed.

Lemma hard_steer (a : Snake) (s : State) (h next : Cell) (k : M unit) :
  aiSnake s = Some a →
  adjacent h next = true →
  bind (when (cx h <? cx next) (setAiDir Right)) (λ _,
    bind (when (cx next <? cx h) (setAiDir Left)) (λ _,
      bind (when (cy h <? cy next) (setAiDir Down)) (λ _,
        bind (when (cy next <? cy h) (setAiDir Up)) (λ _, k)))) s =
  k (set_aiSnake (Some (set_dir (toward h next (dir a)) a)) s).
Proof.
  intros Hai Hadj%adjacent_neighbors. unfold neighbors in Hadj.
  rewrite !elem_of_cons, elem_of_nil in Hadj. unfold toward, setAiDir.
  destruct h as [x y].
  destruct Hadj as [-> | [-> | [-> | [-> | []]]]]; cbn [cx cy];
    repeat match goal with
           | |- context [?a <? ?b] =>
               first [rewrite (proj2 (Z.ltb_lt a b)) by lia
                     | rewrite (proj2 (Z.ltb_ge a b)) by lia]
           end; unfold when; rewrite ?bind_ret;
    rewrite (bind_Ok _ _ _ _ _ (updateSnake_Ok Opponent _ s a Hai));
    rewrite ?bind_ret; reflexivity.
Qed.

(** On hard, when [bfsPath] returns a path of two cells or more to the
    nearest food, [aiStep] moves the AI's head onto the second cell of
    that path: a cell next to the old head, on the grid, and on no
    snake's body unless it is the food's own cell. The AI is alive after
    the step, and nothing but the AI snake has changed. *)
Theorem aiStep_follows_path (s : State) (a : Snake) (h : Cell) (rest : list Cell)
    (t : Food) (p0 next : Cell) (more : list Cell) :
  aiSnake s = Some a →
  alive a = true →
  difficulty a = Some Hard →
  body a = h :: rest →
  findNearestFood (Some h) s = Ok (Some t) s →
  bfsPath h (foodCell t) s = Ok (Some (p0 :: next :: more)) s →
  ∃ d,
    let a' := advance next (set_dir d a) in
    aiStep s = Ok () (set_aiSnake (Some a') s) ∧
    p0 = h ∧ moved h d = next ∧
    alive a' = true ∧ dir a' = d ∧
    head (body a') = Some next ∧
    insideGrid next = true ∧
    (occupied s next = false ∨ next = foodCell t).
Proof.
  intros Hai Halive Hdiff Hbody Hfood Hpath.
  assert (Hchain : chain h (foodCell t) (obstaclesOf s) (p0 :: next :: more)
                     (foodCell t)).
  { pose proof (bfsSearch_found h (foodCell t) (obstaclesOf s)) as Hfound.
    unfold bfsPath in Hpath. rewrite bind_get in Hpath. unfold ret in Hpath.
    destruct (bfsSearch h (foodCell t) (obstaclesOf s)) as [[path|]|];
      simpl in *; [|discriminate|contradiction].
    injection Hpath as ->. exact (proj1 Hfound). }
  destruct (chain_validPath _ _ _ _ _ Hchain) as (rest' & [= -> <-] & Hvalid).
  simpl in Hvalid.
  apply andb_true_iff in Hvalid as [[Hadj Htrav]%andb_true_iff _].
  apply andb_true_iff in Htrav as [Hin Hfree].
  exists (toward h next (dir a)). simpl.
  pose proof (toward_moved h next (dir a) Hadj) as Hmoved.
  split; [|split; [reflexivity|split; [exact Hmoved|]]].
  - unfold aiStep.
    rewrite (bind_Ok _ _ _ _ _ (readSnake_Ok Opponent s a Hai)).
    rewrite Halive, Hdiff, Hbody. cbn [negb head].
    rewrite (bind_Ok _ _ _ _ _ Hfood), (bind_Ok _ _ _ _ _ Hpath).
    assert (Hassoc : ∀ (m1 m2 m3 m4 k : M unit) st,
              bind (bind m1 (λ _, bind m2 (λ _, bind m3 (λ _, m4)))) (λ _, k) st =
              bind m1 (λ _, bind m2 (λ _, bind m3 (λ _, bind m4 (λ _, k)))) st).
    { intros m1 m2 m3 m4 k st. unfold bind.
      destruct (m1 st) as [[] s1|]; [|done]. destruct (m2 s1) as [[] s2|]; [|done].
      now destruct (m3 s2) as [[] s3|]. }
    rewrite Hassoc, (hard_steer a s h next _ Hai Hadj), bind_ret.
    unfold stepAi.
    rewrite (bind_Ok _ _ _ _ _
               (readSnake_Ok Opponent
                  (set_aiSnake (Some (set_dir (toward h next (dir a)) a)) s)
                  (set_dir (toward h next (dir a)) a) eq_refl)).
    cbn [dir set_dir].
    rewrite (stepSnake_advance Opponent _
               (set_aiSnake (Some (set_dir (toward h next (dir a)) a)) s)
               (set_dir (toward h next (dir a)) a) h rest eq_refl Halive Hbody)
      by now rewrite Hmoved.
    rewrite Hmoved. reflexivity.
  - split; [unfold advance; now destruct (0 <? _)|].
    split; [unfold advance; now destruct (0 <? _)|].
    split; [apply advance_head; simpl; now rewrite Hbody|].
    split; [exact Hin|].
    apply orb_true_iff in Hfree as [Hfree | Hgoal].
    + left. now apply negb_true_iff.
    + right. now apply eq_true_iff.
Qed.

Lemma aiStep_follows_path_witness :
  (body <$> aiSnake (outcome (aiStep scenarioD))) =
    Some [mkCell 2 3; mkCell 2 2; mkCell 1 2].
Proof.
  destruct (aiStep_follows_path scenarioD
              (set_difficulty (Some Hard)
                 (makeSnake [mkCell 2 2; mkCell 1 2; mkCell 0 2]))
              (mkCell 2 2) [mkCell 1 2; mkCell 0 2]
              (mkFood 2 6 Normal None 0) (mkCell 2 2) (mkCell 2 3)
              [mkCell 2 4; mkCell 2 5; mkCell 2 6]
              eq_refl eq_refl eq_refl eq_refl)
    as (d & Hrun & _ & Hd & _); [now vm_compute | now vm_compute |].
  rewrite Hrun. simpl. destruct d; try discriminate Hd. reflexivity.
Defined.

(** ** Collision resolver: who survives *)

Lemma bind_assoc {A B C : Type} (m : M A) (f : A → M B) (g : B → M C) (s : State) :
  bind (bind m f) g s = bind m (λ x, bind (f x) g) s.
Proof. unfold bind. now destruct (m s). Qed.

(** A loop whose passes either do nothing or bring the state to [s1],
    where it stays. *)
Lemma forEach_flip {A : Type} (l : list A) (f : A → M unit) (test : A → bool)
    (s0 s1 : State) :
  (∀ x, f x s0 = Ok () (if test x then s1 else s0)) →
  (∀ x, f x s1 = Ok () s1) →
  forEach l f s0 = Ok () (if existsb test l then s1 else s0).
Proof.
  intros H0 H1. induction l as [|x l IH]; [reflexivity|].
  simpl. rewrite (bind_Ok _ _ _ _ _ (H0 x)). destruct (test x); simpl.
  - clear IH. induction l as [|y l IH]; [reflexivity|].
    simpl. now rewrite (bind_Ok _ _ _ _ _ (H1 y)).
  - exact IH.
Qed.

(** The state [s] with the two snakes [p], [a] given the alive flags
    [pa], [aa], the game-over panel set to [panel] and, when [stopped],
    the tick timer cleared. *)
Definition verdict (p a : Snake) (pa aa : bool) (panel : option GameOverMsg)
    (stopped : bool) (s : State) : State :=
  let s1 :=
    set_gameOverPanel panel
      (set_playerSnake (Some (set_alive pa p))
         (set_aiSnake (Some (set_alive aa a)) s)) in
  if stopped then set_running false (set_tickTimer None s1) else s1.

Lemma verdict_self (p a : Snake) (s : State) :
  playerSnake s = Some p → aiSnake s = Some a →
  alive p = true → alive a = true →
  s = verdict p a true true (gameOverPanel s) false s.
Proof. intros Hp Ha Hpa Haa. destruct s, p, a. simpl in *. now subst. Qed.

Section Verdict.

Variables (s : State) (p a : Snake) (hp ha : Cell) (rp ra : list Cell).
Hypothesis Hmode : mode s = Some AI.
Hypothesis Hbp : body p = hp :: rp.
Hypothesis Hba : body a = ha :: ra.

Lemma die_player (pa aa : bool) (panel : option GameOverMsg) (stopped : bool) :
  bind (kill Player) (λ _, onPlayerDie WhichPlayer)
    (verdict p a pa aa panel stopped s) =
  Ok () (verdict p a false aa (Some (YouDied (score s))) true s).
Proof.
  rewrite (die_Ok Player WhichPlayer (set_alive pa p))
    by now destruct stopped.
  unfold afterDeath, deathPanel, verdict. destruct stopped; simpl; now rewrite Hmode.
Qed.

Lemma die_ai (pa aa : bool) (panel : option GameOverMsg) (stopped : bool) :
  bind (kill Opponent) (λ _, onPlayerDie WhichAI)
    (verdict p a pa aa panel stopped s) =
  Ok () (verdict p a pa false (Some (AIDied (score s))) true s).
Proof.
  rewrite (die_Ok Opponent WhichAI (set_alive aa a))
    by now destruct stopped.
  unfold afterDeath, deathPanel, verdict. destruct stopped; simpl; now rewrite Hmode.
Qed.

Lemma die_both (pa aa : bool) (panel : option GameOverMsg) (stopped : bool) :
  bind (kill Player) (λ _, bind (kill Opponent) (λ _, onPlayerDie WhichBoth))
    (verdict p a pa aa panel stopped s) =
  Ok () (verdict p a false false (Some (BothDied (score s))) true s).
Proof.
  unfold kill.
  assert (Hp : getSnake Player (verdict p a pa aa panel stopped s) =
               Some (set_alive pa p)) by now destruct stopped.
  rewrite (bind_Ok _ _ _ _ _ (updateSnake_Ok Player _ _ _ Hp)).
  assert (Ha : getSnake Opponent
                 (setSnake Player (set_alive false (set_alive pa p))
                    (verdict p a pa aa panel stopped s)) =
               Some (set_alive aa a)) by now destruct stopped.
  rewrite (bind_Ok _ _ _ _ _ (updateSnake_Ok Opponent _ _ _ Ha)).
  rewrite onPlayerDie_Ok.
  unfold deathPanel, verdict. destruct stopped; simpl; now rewrite Hmode.
Qed.

Lemma selfCollision_player (pa aa : bool) (panel : option GameOverMsg)
    (stopped : bool) :
  selfCollision Player (verdict p a pa aa panel stopped s) =
  Ok () (if existsb (eq hp) rp
         then verdict p a false aa (Some (YouDied (score s))) true s
         else verdict p a pa aa panel stopped s).
Proof.
  unfold selfCollision.
  rewrite (bind_Ok _ _ _ _ _
             (readSnake_Ok Player (verdict p a pa aa panel stopped s)
                (set_alive pa p) ltac:(now destruct stopped))).
  cbn [body set_alive]. rewrite Hbp. apply forEach_flip.
  - intros x. destruct (eq hp x); [apply die_player | reflexivity].
  - intros x. destruct (eq hp x); [apply die_player | reflexivity].
Qed.

Lemma selfCollision_ai (pa aa : bool) (panel : option GameOverMsg)
    (stopped : bool) :
  selfCollision Opponent (verdict p a pa aa panel stopped s) =
  Ok () (if existsb (eq ha) ra
         then verdict p a pa false (Some (AIDied (score s))) true s
         else verdict p a pa aa panel stopped s).
Proof.
  unfold selfCollision.
  rewrite (bind_Ok _ _ _ _ _
             (readSnake_Ok Opponent (verdict p a pa aa panel stopped s)
                (set_alive aa a) ltac:(now destruct stopped))).
  cbn [body set_alive]. rewrite Hba. apply forEach_flip.
  - intros x. destruct (eq ha x); [apply die_ai | reflexivity].
  - intros x. destruct (eq ha x); [apply die_ai | reflexivity].
Qed.

Lemma headIntoBody_player (pa aa : bool) (panel : option GameOverMsg)
    (stopped : bool) :
  headIntoBody Player Opponent (verdict p a pa aa panel stopped s) =
  Ok () (if existsb (eq hp) (ha :: ra)
         then verdict p a false aa (Some (YouDied (score s))) true s
         else verdict p a pa aa panel stopped s).
Proof.
  unfold headIntoBody.
  rewrite (bind_Ok _ _ _ _ _
             (readSnake_Ok Opponent (verdict p a pa aa panel stopped s)
                (set_alive aa a) ltac:(now destruct stopped))).
  cbn [body set_alive]. rewrite Hba.
  assert (Hpass : ∀ pa' panel' stopped' x,
            bind (readSnake Player) (λ m,
              bind (eqJS (head (body m)) (Some x)) (λ hit,
                if hit then bind (kill Player) (λ _, onPlayerDie (whichOf Player))
                else ret ()))
              (verdict p a pa' aa panel' stopped' s) =
            Ok () (if eq hp x
                   then verdict p a false aa (Some (YouDied (score s))) true s
                   else verdict p a pa' aa panel' stopped' s)).
  { intros pa' panel' stopped' x.
    rewrite (bind_Ok _ _ _ _ _
               (readSnake_Ok Player (verdict p a pa' aa panel' stopped' s)
                  (set_alive pa' p) ltac:(now destruct stopped'))).
    cbn [body set_alive]. rewrite Hbp. cbn [head]. rewrite (bind_Ok _ _ _ _ _ (eqJS_Ok _ _ _)).
    destruct (eq hp x); [apply die_player | reflexivity]. }
  apply forEach_flip.
  - intros x. apply Hpass.
  - intros x. rewrite Hpass. now destruct (eq hp x).
Qed.

Lemma headIntoBody_ai (pa aa : bool) (panel : option GameOverMsg)
    (stopped : bool) :
  headIntoBody Opponent Player (verdict p a pa aa panel stopped s) =
  Ok () (if existsb (eq ha) (hp :: rp)
         then verdict p a pa false (Some (AIDied (score s))) true s
         else verdict p a pa aa panel stopped s).
Proof.
  unfold headIntoBody.
  rewrite (bind_Ok _ _ _ _ _
             (readSnake_Ok Player (verdict p a pa aa panel stopped s)
                (set_alive pa p) ltac:(now destruct stopped))).
  cbn [body set_alive]. rewrite Hbp.
  assert (Hpass : ∀ aa' panel' stopped' x,
            bind (readSnake Opponent) (λ m,
              bind (eqJS (head (body m)) (Some x)) (λ hit,
                if hit then bind (kill Opponent) (λ _, onPlayerDie (whichOf Opponent))
                else ret ()))
              (verdict p a pa aa' panel' stopped' s) =
            Ok () (if eq ha x
                   then verdict p a pa false (Some (AIDied (score s))) true s
                   else verdict p a pa aa' panel' stopped' s)).
  { intros aa' panel' stopped' x.
    rewrite (bind_Ok _ _ _ _ _
               (readSnake_Ok Opponent (verdict p a pa aa' panel' stopped' s)
                  (set_alive aa' a) ltac:(now destruct stopped'))).
    cbn [body set_alive]. rewrite Hba. cbn [head]. rewrite (bind_Ok _ _ _ _ _ (eqJS_Ok _ _ _)).
    destruct (eq ha x); [apply die_ai | reflexivity]. }
  apply forEach_flip.
  - intros x. apply Hpass.
  - intros x. rewrite Hpass. now destruct (eq ha x).
Qed.

Lemma readSnake_verdict_player (pa aa : bool) (panel : option GameOverMsg)
    (stopped : bool) :
  readSnake Player (verdict p a pa aa panel stopped s) =
  Ok (set_alive pa p) (verdict p a pa aa panel stopped s).
Proof. apply readSnake_Ok. now destruct stopped. Qed.

Lemma readSnake_verdict_ai (pa aa : bool) (panel : option GameOverMsg)
    (stopped : bool) :
  readSnake Opponent (verdict p a pa aa panel stopped s) =
  Ok (set_alive aa a) (verdict p a pa aa panel stopped s).
Proof. apply readSnake_Ok. now destruct stopped. Qed.

Lemma aiSnake_verdict (pa aa : bool) (panel : option GameOverMsg) (stopped : bool) :
  aiSnake (verdict p a pa aa panel stopped s) = Some (set_alive aa a).
Proof. now destruct stopped. Qed.

End Verdict.

(** One step of a run of the collision resolver on a [verdict] state. *)
Ltac verdict_step Hmode Hbp Hba :=
  first
    [ rewrite bind_get
    | rewrite bind_ret
    | rewrite aiSnake_verdict
    | rewrite (bind_Ok _ _ _ _ _ (readSnake_verdict_player _ _ _ _ _ _ _))
    | rewrite (bind_Ok _ _ _ _ _ (readSnake_verdict_ai _ _ _ _ _ _ _))
    | rewrite readSnake_verdict_ai
    | rewrite (bind_Ok _ _ _ _ _ (selfCollision_player _ _ _ _ _ Hmode Hbp _ _ _ _))
    | rewrite (bind_Ok _ _ _ _ _ (selfCollision_ai _ _ _ _ _ Hmode Hba _ _ _ _))
    | rewrite (bind_Ok _ _ _ _ _ (headIntoBody_player _ _ _ _ _ _ _ Hmode Hbp Hba _ _ _ _))
    | rewrite (headIntoBody_ai _ _ _ _ _ _ _ Hmode Hbp Hba _ _ _ _)
    | rewrite (bind_Ok _ _ _ _ _ (eqJS_Ok _ _ _))
    | rewrite (bind_Ok _ _ _ _ _ (die_both _ _ _ Hmode _ _ _ _))
    | progress cbn [alive set_alive negb body head orb]
    | rewrite Hbp
    | rewrite Hba
    | rewrite bind_assoc ].

(** The collision resolver in an AI match, with both snakes alive and
    each with a head. A snake survives exactly when its head lies on no
    other segment of either snake: not on its own later segments, and on
    no segment of the other snake, head included. The bodies are not
    touched. When a snake dies, the tick timer is stopped and the panel
    shows the death reported last: the player's alone when only the
    player died, the AI's alone when only the AI died; when both died,
    [Both Died] for heads on one cell (unless the player had hit itself
    before), else the AI's death, except that the player's death in the
    AI's body is reported after an AI that hit itself. *)
Theorem collisions_verdict (s : State) (p a : Snake) (hp ha : Cell)
    (rp ra : list Cell) :
  mode s = Some AI →
  playerSnake s = Some p → aiSnake s = Some a →
  alive p = true → alive a = true →
  body p = hp :: rp → body a = ha :: ra →
  let selfP := existsb (eq hp) rp in
  let selfA := existsb (eq ha) ra in
  let playerHit := selfP || existsb (eq hp) (ha :: ra) in
  let aiHit := selfA || existsb (eq ha) (hp :: rp) in
  let panel :=
    match playerHit, aiHit with
    | false, false => gameOverPanel s
    | true, false => Some (YouDied (score s))
    | false, true => Some (AIDied (score s))
    | true, true =>
        Some (if selfP then AIDied (score s)
              else if eq hp ha then BothDied (score s)
              else if selfA then YouDied (score s)
              else AIDied (score s))
    end in
  handleCollisionsSingleMode s =
    Ok () (verdict p a (negb playerHit) (negb aiHit) panel (playerHit || aiHit) s).
Proof.
  intros Hmode Hp Ha Hpa Haa Hbp Hba. simpl.
  assert (Hsym : eq ha hp = eq hp ha).
  { unfold eq. now rewrite (Z.eqb_sym (cx ha)), (Z.eqb_sym (cy ha)). }
  rewrite Hsym.
  rewrite (verdict_self p a s Hp Ha Hpa Haa) at 1.
  generalize (gameOverPanel s). intros pn.
  unfold handleCollisionsSingleMode, playerVsAi.
  repeat verdict_step Hmode Hbp Hba.
  destruct (existsb (eq hp) rp) eqn:HselfP;
    repeat verdict_step Hmode Hbp Hba;
    destruct (existsb (eq ha) ra) eqn:HselfA;
    repeat verdict_step Hmode Hbp Hba;
    destruct (eq hp ha) eqn:Hsame;
    repeat verdict_step Hmode Hbp Hba;
    cbn [existsb] in *; rewrite ?Hsame, ?Hsym, ?Hsame;
    destruct (existsb (eq hp) ra) eqn:HpInA;
    repeat verdict_step Hmode Hbp Hba;
    cbn [existsb] in *; rewrite ?Hsame, ?Hsym, ?Hsame;
    destruct (existsb (eq ha) rp) eqn:HaInP;
    repeat verdict_step Hmode Hbp Hba;
    reflexivity.
Qed.

Definition headToHead : State :=
  set_playerSnake (Some (makeSnake [mkCell 6 6; mkCell 6 7; mkCell 6 8]))
    (after (StartAI Hard) (pageLoad (λ _, 0) (λ _, 0))).

Lemma collisions_verdict_witness :
  ∃ s',
    handleCollisionsSingleMode headToHead = Ok () s' ∧
    (alive <$> playerSnake s') = Some false ∧
    (alive <$> aiSnake s') = Some false ∧
    gameOverPanel s' = Some (BothDied 0) ∧
    running s' = false.
Proof.
  eexists. split.
  - exact (collisions_verdict headToHead
             (makeSnake [mkCell 6 6; mkCell 6 7; mkCell 6 8])
             (set_difficulty (Some Hard)
                (makeSnake [mkCell 6 6; mkCell 5 6; mkCell 4 6]))
             (mkCell 6 6) (mkCell 6 6) [mkCell 6 7; mkCell 6 8]
             [mkCell 5 6; mkCell 4 6]
             eq_refl eq_refl eq_refl eq_refl eq_refl eq_refl eq_refl).
  - repeat split.
Defined.

(** ** Input: turning *)

Definition opposite (d : Dir) : Dir :=
  match d with Up => Down | Down => Up | Left => Right | Right => Left end.

(** The key that turns the player to [d]. *)
Definition keyFor (d : Dir) : Key :=
  match d with Up => KeyW | Down => KeyS | Left => KeyA | Right => KeyD end.

Lemma keydown_turn (d : Dir) (s : State) :
  playerDir s ≠ opposite d → keydown (keyFor d) s = Ok () (set_playerDir d s).
Proof.
  intros Hd. unfold keydown, turn. rewrite bind_get.
  destruct d, (running s), (playerDir s) eqn:Hdir; simpl in *;
    unfold bind, get; rewrite ?Hdir; try reflexivity; congruence.
Qed.

Lemma keydown_Ok (k : Key) (s : State) :
  ∃ s', keydown k s = Ok () s' ∧ playerDir s' ≠ opposite (playerDir s) ∧
        playerSnake s' = playerSnake s.
Proof.
  unfold keydown, turn, togglePause, startTick, stopTick. rewrite bind_get.
  destruct k, (running s) eqn:Hrun, (playerDir s) eqn:Hdir; simpl;
    unfold bind, get, modify, ret; rewrite ?Hdir, ?Hrun;
    eexists; (split; [reflexivity|]); simpl; rewrite ?Hdir; split; congruence.
Qed.

(** The food resolver with no food under the player's head, and no AI
    snake. *)
Lemma foodLoop_miss (s : State) (p : Snake) (h : Cell) :
  playerSnake s = Some p →
  head (body p) = Some h →
  aiSnake s = None →
  (∀ f, f ∈ foods s → foodCell f ≠ h) →
  ∀ n, (n ≤ length (foods s))%nat → foodLoop n s = Ok () s.
Proof.
  intros Hp Hh Hai Hmiss. induction n as [|n IH]; intros Hn; [reflexivity|].
  simpl. assert (Hstep : foodStep n s = Ok () s).
  { unfold foodStep. rewrite bind_get.
    destruct (lookup_lt_is_Some_2 (foods s) n ltac:(lia)) as (f & Hf).
    rewrite Hf, (bind_Ok _ _ _ _ _ (readSnake_Ok Player s p Hp)), Hh.
    simpl. rewrite bind_ret.
    rewrite (proj2 (eq_false_iff _ _) (Hmiss f (list_elem_of_lookup_2 _ _ _ Hf))).
    now rewrite Hai. }
  rewrite (bind_Ok _ _ _ _ _ Hstep). apply IH. lia.
Qed.

Lemma setSpeedFromScore_idle (s : State) :
  running s = false →
  setSpeedFromScore s = Ok () (set_tickInterval (newTickOf s) s).
Proof.
  intros Hrun. unfold setSpeedFromScore. rewrite bind_get.
  destruct (newTickOf s =? tickInterval s) eqn:Hsame; simpl.
  - apply Z.eqb_eq in Hsame. rewrite Hsame. now destruct s.
  - rewrite bind_modify, bind_get. simpl. now rewrite Hrun.
Qed.

(** One key press never turns the player straight back: the direction
    after it is not the opposite of the direction before. Two presses
    between two ticks do: a key to the side, then the key against the
    direction of travel. The next tick then steps the head back onto the
    neck, and in a solo match a snake of three segments or more, with no
    food on that cell, dies of it: the game is over. *)
Theorem double_turn :
  (∀ (k : Key) (s : State),
     ∃ s', keydown k s = Ok () s' ∧ playerDir s' ≠ opposite (playerDir s)) ∧
  (∀ (s : State) (p : Snake) (h r : Cell) (rest : list Cell) (side : Dir),
     let back := opposite (playerDir s) in
     mode s = Some Single →
     aiSnake s = None →
     playerSnake s = Some p →
     alive p = true →
     body p = h :: moved h back :: r :: rest →
     insideGrid (moved h back) = true →
     (∀ f, f ∈ foods s → foodCell f ≠ moved h back) →
     side ≠ playerDir s → side ≠ back →
     ∃ s1 s2 s',
       keydown (keyFor side) s = Ok () s1 ∧
       keydown (keyFor back) s1 = Ok () s2 ∧
       playerDir s2 = back ∧
       gameTick s2 = Ok () s' ∧
       (alive <$> playerSnake s') = Some false ∧
       (head <$> (body <$> playerSnake s')) = Some (Some (moved h back)) ∧
       gameOverPanel s' = Some (GameOver (score s)) ∧
       running s' = false ∧ tickTimer s' = None).
Proof.
  split.
  - intros k s. destruct (keydown_Ok k s) as (s' & Hrun & Hdir & _). eauto.
  - intros s p h r rest side back Hmode Hai Hp Halive Hbody Hin Hmiss Hside Hback.
    set (n := moved h back) in *.
    assert (Hk1 : keydown (keyFor side) s = Ok () (set_playerDir side s)).
    { apply keydown_turn. intros Heq. apply Hback. subst back.
      rewrite Heq. now destruct side. }
    assert (Hk2 : keydown (keyFor back) (set_playerDir side s) =
                  Ok () (set_playerDir back s)).
    { rewrite keydown_turn; [reflexivity|]. simpl. intros Heq. apply Hside.
      rewrite Heq. subst back. now destruct (playerDir s). }
    set (snake := advance n p).
    assert (Hsnake : alive snake = true ∧ ∃ tl, body snake = n :: h :: n :: tl).
    { unfold snake, advance. destruct (0 <? pendingGrow p); simpl.
      - rewrite Hbody. eauto.
      - rewrite Hbody, !pop_cons by done. eauto. }
    destruct Hsnake as (Hsalive & tl & Hsbody).
    set (s2 := set_playerDir back s).
    set (s3 := set_gameTime
                 (PrimFloat.add (gameTime s2)
                    (PrimFloat.div (floatOfZ (tickInterval s2)) (floatOfZ 1000))) s2).
    set (s4 := setSnake Player snake s3).
    set (s5 := afterDeath Player WhichPlayer snake s4).
    set (s6 := set_tickInterval (newTickOf s5) s5).
    assert (Hfood : handleFoodCollisions s4 = Ok () s4).
    { unfold handleFoodCollisions. rewrite bind_get.
      apply (foodLoop_miss s4 snake n); try done.
      now rewrite Hsbody. }
    assert (Hcoll : handleCollisionsSingleMode s4 = Ok () s5).
    { unfold handleCollisionsSingleMode.
      rewrite (bind_Ok _ _ _ _ _ (readSnake_Ok Player s4 snake eq_refl)), Hsalive.
      rewrite (bind_Ok _ _ _ _ _
                 (selfCollision_Ok Player s4 snake n _ eq_refl Hsbody)).
      assert (Hhit : existsb (eq n) (h :: n :: tl) = true).
      { simpl. rewrite (proj2 (eq_true_iff n n) eq_refl). now rewrite orb_true_r. }
      rewrite Hhit. now apply playerVsAi_solo. }
    assert (Htick : gameTick s2 =
              Ok () (if 0 <? invisibleTailTicks s
                     then set_invisibleTailTicks (invisibleTailTicks s - 1) s6
                     else s6)).
    { unfold gameTick. rewrite bind_modify, bind_get. fold s3.
      change (mode s3) with (mode s). rewrite Hmode.
      change (playerDir s3) with back.
      rewrite (bind_Ok _ _ _ _ _
                 (stepSnake_advance Player back s3 p h _ Hp Halive Hbody Hin)).
      fold n snake s4. rewrite bind_get.
      change (mode s4) with (mode s). rewrite Hmode, bind_ret.
      rewrite (bind_Ok _ _ _ _ _ Hfood), (bind_Ok _ _ _ _ _ Hcoll).
      rewrite (bind_Ok _ _ _ _ _ (setSpeedFromScore_idle s5 eq_refl)).
      fold s6. rewrite bind_get. unfold when.
      change (invisibleTailTicks s6) with (invisibleTailTicks s).
      now destruct (0 <? invisibleTailTicks s). }
    eexists _, _, _. split; [exact Hk1|]. split; [exact Hk2|].
    split; [reflexivity|]. split; [exact Htick|].
    assert (Hpanel : deathPanel WhichPlayer s4 = Some (GameOver (score s))).
    { unfold deathPanel. change (mode s4) with (mode s). now rewrite Hmode. }
    destruct (0 <? invisibleTailTicks s); simpl; rewrite Hsbody, Hpanel;
      repeat split.
Qed.

Lemma double_turn_witness :
  ∃ s',
    gameTick (set_playerDir Left freshSolo) = Ok () s' ∧
    (alive <$> playerSnake s') = Some false ∧
    gameOverPanel s' = Some (GameOver 0).
Proof.
  destruct (proj2 double_turn freshSolo
              (makeSnake [mkCell 13 15; mkCell 12 15; mkCell 11 15])
              (mkCell 13 15) (mkCell 11 15) [] Up
              eq_refl eq_refl eq_refl eq_refl eq_refl eq_refl)
    as (s1 & s2 & s' & Hk1 & Hk2 & _ & Htick & Hdead & _ & Hpanel & _).
  - intros f Hf. vm_compute in Hf. apply list_elem_of_singleton in Hf as ->.
    discriminate.
  - discriminate.
  - discriminate.
  - vm_compute in Hk1. injection Hk1 as <-.
    vm_compute in Hk2. injection Hk2 as <-.
    exists s'. repeat split; assumption.
Defined.

(** ** The timing and the cast of a match *)

(** What every state of a solo or AI match satisfies, besides the
    invariant [Inv]: the score is not negative; the tick interval lies
    between [MIN_TICK] and the cap 400 of the slow food; the invisibility
    counter lies between 0 and floor(5000 / MIN_TICK); [running] says
    whether the tick timer is armed; an armed timer has a period in the
    same bounds, and its period is the current [tickInterval] unless a
    slow food has just raised it; the player snake is there; the AI snake
    is there, with its difficulty, exactly in mode ['ai']. *)
Record Wf (s : State) : Prop := mkWf {
  wf_mode : mode s = Some Single ∨ mode s = Some AI;
  wf_boost : speedBoost s = 0;
  wf_score : 0 ≤ score s;
  wf_interval : MIN_TICK ≤ tickInterval s ≤ 400;
  wf_invisible : 0 ≤ invisibleTailTicks s ≤ 83;
  wf_running : running s = true ↔ is_Some (tickTimer s);
  wf_period : ∀ p, tickTimer s = Some p →
    MIN_TICK ≤ p ≤ 400 ∧ (p = tickInterval s ∨ BASE_TICK < tickInterval s);
  wf_player : is_Some (playerSnake s);
  wf_solo : mode s = Some Single → aiSnake s = None;
  wf_duel : mode s = Some AI → ∃ a, aiSnake s = Some a ∧ is_Some (difficulty a)
}.

Lemma Wf_oblivious : obliviousToOracles Wf.
Proof. intros s d k []. constructor; assumption. Qed.

Create HintDb wf.

(** A change of fields [Wf] does not read, or one that plainly keeps
    its bounds. *)
Ltac wf_frame :=
  let s := fresh "s" in
  let H := fresh "H" in
  intros s H;
  destruct H as [Hmode Hboost Hscore Hinterval Hinvisible Hrunning Hperiod
                 Hplayer Hsolo Hduel];
  constructor; simpl in *; auto; try lia.

(** An assignment to a field of one of the two snakes. *)
Ltac wf_snake :=
  let s := fresh "s" in
  let sn := fresh "sn" in
  let H := fresh "H" in
  let Hget := fresh "Hget" in
  intros s sn H Hget;
  destruct H as [Hmode Hboost Hscore Hinterval Hinvisible Hrunning Hperiod
                 Hplayer Hsolo Hduel];
  match goal with
  | |- Wf (setSnake ?who _ _) =>
      destruct who; simpl in Hget; constructor; simpl; auto;
      [ intros Hm; specialize (Hsolo Hm); congruence
      | let Ha := fresh "Ha" in
        let Hd := fresh "Hd" in
        intros Hm; destruct (Hduel Hm) as (? & Ha & Hd);
        rewrite Hget in Ha; injection Ha as <-; eauto ]
  end.

Ltac wf_leaf :=
  match goal with
  | |- keeps Wf (modify _) => apply keeps_modify; wf_frame
  | |- keeps Wf (updateSnake _ _) => apply keeps_updateSnake; wf_snake
  | |- keeps Wf (randomBelow _) => apply keeps_randomBelow, Wf_oblivious
  | |- keeps Wf (randomLess _) => apply keeps_randomLess, Wf_oblivious
  | |- keeps Wf _ => solve [auto with wf]
  end.

Ltac keeps_wf := repeat first [keeps_step | wf_leaf].

Lemma Wf_stopTick : keeps Wf stopTick.
Proof.
  unfold stopTick. apply keeps_modify. wf_frame.
  - split; [discriminate | intros []; discriminate].
  - intros p [=].
Qed.

Lemma Wf_startTick : keeps Wf startTick.
Proof.
  unfold startTick. apply keeps_modify. wf_frame.
  - split; eauto.
  - intros p [= <-]. auto.
Qed.

#[global] Hint Resolve Wf_stopTick Wf_startTick : wf.

Lemma Wf_placed (k : nat) (type : FoodType) (s : State) r s' :
  Wf s → placed k type s r s' → Wf s'.
Proof.
  intros [] [Hframe _]. rewrite Hframe. constructor; simpl; assumption.
Qed.

Lemma Wf_placeFood (type : FoodType) : keeps Wf (placeFood type).
Proof.
  intros s Hs. unfold wp, placeFood.
  destruct (placeFoodFrom_Ok 200 type s) as (r & s' & -> & Hplaced).
  now apply (Wf_placed 200 type s r s').
Qed.

#[global] Hint Resolve Wf_placeFood : wf.

Lemma Wf_onPlayerDie (which : Which) : keeps Wf (onPlayerDie which).
Proof. unfold onPlayerDie, showGameOver. keeps_wf. Qed.

Lemma Wf_kill (who : Who) : keeps Wf (kill who).
Proof. unfold kill. keeps_wf. Qed.

#[global] Hint Resolve Wf_onPlayerDie Wf_kill : wf.

Lemma Wf_stepSnake (who : Who) (d : Dir) : keeps Wf (stepSnake who d).
Proof. unfold stepSnake. keeps_wf. Qed.

#[global] Hint Resolve Wf_stepSnake : wf.

Lemma Wf_consumeFood (who : Who) (food : Food) : keeps Wf (consumeFood who food).
Proof.
  unfold consumeFood. destruct (ftype food).
  - keeps_wf. unfold SCORE_PER_FOOD. lia.
  - keeps_wf.
    + intros p Hp. destruct (Hperiod p Hp). split; [assumption|].
      right. unfold MIN_TICK, BASE_TICK in *. lia.
    + unfold MIN_TICK in *. split.
      * apply Z.div_pos; lia.
      * cut (5000 / tickInterval s < 84); [lia|].
        apply Z.div_lt_upper_bound; lia.
Qed.

Lemma Wf_splice (i : nat) : keeps Wf (splice i).
Proof. unfold splice. keeps_wf. Qed.

#[global] Hint Resolve Wf_consumeFood Wf_splice : wf.

Lemma Wf_foodStep (i : nat) : keeps Wf (foodStep i).
Proof. unfold foodStep. keeps_wf. Qed.

#[global] Hint Resolve Wf_foodStep : wf.

Lemma Wf_foodLoop (count : nat) : keeps Wf (foodLoop count).
Proof. induction count as [|count IH]; simpl; keeps_wf. Qed.

#[global] Hint Resolve Wf_foodLoop : wf.

Lemma Wf_handleFoodCollisions : keeps Wf handleFoodCollisions.
Proof. unfold handleFoodCollisions. keeps_wf. Qed.

Lemma Wf_selfCollision (who : Who) : keeps Wf (selfCollision who).
Proof. unfold selfCollision. keeps_wf. Qed.

Lemma Wf_headIntoBody (mine theirs : Who) : keeps Wf (headIntoBody mine theirs).
Proof. unfold headIntoBody. keeps_wf. Qed.

#[global] Hint Resolve Wf_handleFoodCollisions Wf_selfCollision Wf_headIntoBody : wf.

Lemma Wf_handleCollisionsSingleMode : keeps Wf handleCollisionsSingleMode.
Proof. unfold handleCollisionsSingleMode, playerVsAi. keeps_wf. Qed.

Lemma Wf_findNearestFood (pos : option Cell) : keeps Wf (findNearestFood pos).
Proof. unfold findNearestFood. keeps_wf. Qed.

Lemma Wf_bfsPath (start goal : Cell) : keeps Wf (bfsPath start goal).
Proof. unfold bfsPath. keeps_wf. Qed.

Lemma Wf_setAiDir (d : Dir) : keeps Wf (setAiDir d).
Proof. unfold setAiDir. keeps_wf. Qed.

#[global] Hint Resolve Wf_handleCollisionsSingleMode Wf_findNearestFood
  Wf_bfsPath Wf_setAiDir : wf.

Lemma Wf_randomDir : keeps Wf randomDir.
Proof. unfold randomDir. keeps_wf. Qed.

Lemma Wf_stepAi : keeps Wf stepAi.
Proof. unfold stepAi. keeps_wf. Qed.

#[global] Hint Resolve Wf_randomDir Wf_stepAi : wf.

Lemma Wf_aiStep : keeps Wf aiStep.
Proof. unfold aiStep. keeps_wf. Qed.

#[global] Hint Resolve Wf_aiStep : wf.

(** ** Match start: the state [initGame] leaves *)

(** The cells of the player snake at the start of a match, head first,
    and those of the AI snake. *)
Definition playerStart : list Cell := [mkCell 13 15; mkCell 12 15; mkCell 11 15].
Definition aiStart : list Cell := [mkCell 6 6; mkCell 5 6; mkCell 4 6].

(** What [initGame] does, from any state. *)
Lemma initGame_run (s : State) :
  ∃ s',
    initGame s = Ok () s' ∧
    mode s' = mode s ∧ score s' = 0 ∧ tickInterval s' = BASE_TICK ∧
    speedBoost s' = 0 ∧ invisibleTailTicks s' = 0 ∧ playerDir s' = Right ∧
    running s' = false ∧ tickTimer s' = None ∧ gameOverPanel s' = None ∧
    specialTimer s' = true ∧
    playerSnake s' = Some (makeSnake playerStart) ∧
    aiSnake s' =
      match mode s with
      | Some AI => Some (set_difficulty (Some (aiDifficulty s)) (makeSnake aiStart))
      | _ => None
      end ∧
    (foods s' = [] ∨
     ∃ f, foods s' = [f] ∧ ftype f = Normal ∧ insideGrid (foodCell f) = true ∧
          (foodCell f ∉ playerStart) ∧
          ∀ a, aiSnake s = Some a → foodCell f ∉ body a) ∧
    (sample s 0 ∉ playerStart →
     (∀ a, aiSnake s = Some a → sample s 0 ∉ body a) →
     ∃ f, foods s' = [f] ∧ foodCell f = sample s 0).
Proof.
  unfold initGame, stopTick. rewrite !bind_modify.
  match goal with |- context [bind (placeFood Normal) _ ?st] => set (s1 := st) end.
  unfold bind at 1, placeFood.
  destruct (placeFoodFrom_Ok 200 Normal s1) as (r & s' & -> & Hframe & Hr).
  rewrite bind_modify, bind_get.
  assert (Hmode : mode s' = mode s) by now rewrite Hframe.
  assert (Hocc : ∀ c, occupied s1 c = false ↔
            (c ∉ playerStart) ∧ ∀ a, aiSnake s = Some a → c ∉ body a).
  { intros c. rewrite occupied_false. split.
    - intros H. split; [apply (H Player (makeSnake playerStart) eq_refl)|].
      intros a Ha. now apply (H Opponent a).
    - intros [Hp Ha] [] snake Hget; simpl in Hget.
      + now injection Hget as <-.
      + now apply Ha. }
  assert (Hfoods :
    (foods s' = [] ∨
     ∃ f, foods s' = [f] ∧ ftype f = Normal ∧ insideGrid (foodCell f) = true ∧
          (foodCell f ∉ playerStart) ∧
          ∀ a, aiSnake s = Some a → foodCell f ∉ body a) ∧
    (sample s 0 ∉ playerStart →
     (∀ a, aiSnake s = Some a → sample s 0 ∉ body a) →
     ∃ f, foods s' = [f] ∧ foodCell f = sample s 0)).
  { destruct r as [f|].
    - destruct Hr as (Hf & Htype & _ & Hfree & Hin & k & Hk & Hcell & Hbefore).
      apply Hocc in Hfree as [Hfp Hfa]. split.
      + right. exists f. repeat split; assumption.
      + intros Hp Ha. exists f. split; [exact Hf|]. rewrite Hcell.
        destruct k as [|k]; [reflexivity|].
        specialize (Hbefore 0%nat ltac:(lia)).
        assert (occupied s1 (sample s1 0) = false) as Hfalse by now apply Hocc.
        congruence.
    - destruct Hr as (Hf & Hall). split; [now left|].
      intros Hp Ha. specialize (Hall 0%nat ltac:(lia)).
      assert (occupied s1 (sample s1 0) = false) as Hfalse by now apply Hocc.
      congruence. }
  cbn [mode set_specialTimer]. rewrite Hmode.
  destruct (mode s) as [[| |]|] eqn:Hm; (eexists; split; [reflexivity|]);
    cbn; rewrite Hframe; cbn; rewrite ?Hm;
    (repeat (split; [reflexivity|])); exact Hfoods.
Qed.

(** [initGame] returns normally whatever the state before, and leaves a
    fresh match: score 0, the base tick interval, no power-up running,
    the tick timer stopped and the panel hidden, the spawn timer armed;
    the player snake on (13,15), (12,15), (11,15) heading right; in mode
    ['ai'] the AI snake on (6,6), (5,6), (4,6) heading right, with the
    difficulty chosen, and no AI snake in the other modes; and at most
    one food, a normal one on a cell of the grid. That food is placed
    before the AI snake is replaced: its cell is off the new player
    snake and off the AI snake of the match before, if there was one, but
    not necessarily off the new AI snake. It is the first sampled cell
    whenever that cell is off those two. *)
Theorem initGame_fresh (s : State) :
  ∃ s',
    initGame s = Ok () s' ∧
    mode s' = mode s ∧ score s' = 0 ∧ tickInterval s' = BASE_TICK ∧
    speedBoost s' = 0 ∧ invisibleTailTicks s' = 0 ∧ playerDir s' = Right ∧
    running s' = false ∧ tickTimer s' = None ∧ gameOverPanel s' = None ∧
    specialTimer s' = true ∧
    playerSnake s' = Some (makeSnake playerStart) ∧
    aiSnake s' =
      match mode s with
      | Some AI => Some (set_difficulty (Some (aiDifficulty s)) (makeSnake aiStart))
      | _ => None
      end ∧
    (foods s' = [] ∨
     ∃ f, foods s' = [f] ∧ ftype f = Normal ∧ insideGrid (foodCell f) = true ∧
          (foodCell f ∉ playerStart) ∧
          ∀ a, aiSnake s = Some a → foodCell f ∉ body a) ∧
    (sample s 0 ∉ playerStart →
     (∀ a, aiSnake s = Some a → sample s 0 ∉ body a) →
     ∃ f, foods s' = [f] ∧ foodCell f = sample s 0).
Proof. exact (initGame_run s). Qed.

(** The AI mode chosen on the freshly loaded page, every sample of
    [Math.random()] being 13/60. *)
Definition foodUnderAi : State :=
  set_mode (Some AI) (pageLoad (λ _, sampleOf 13 60) (λ _, 0)).

Lemma initGame_fresh_witness :
  ∃ s' f,
    initGame foodUnderAi = Ok () s' ∧
    foods s' = [f] ∧ foodCell f = mkCell 6 6 ∧
    (body <$> aiSnake s') = Some [mkCell 6 6; mkCell 5 6; mkCell 4 6].
Proof.
  destruct (initGame_fresh foodUnderAi)
    as (s' & Hrun & _ & _ & _ & _ & _ & _ & _ & _ & _ & _ & _ & Hai & _ & Hfirst).
  destruct Hfirst as (f & Hf & Hcell).
  - intros Hin. vm_compute in Hin.
    repeat (apply elem_of_cons in Hin as [Hin | Hin]; [discriminate Hin|]).
    now apply elem_of_nil in Hin.
  - intros a Ha. discriminate Ha.
  - exists s', f. split; [exact Hrun|]. split; [exact Hf|].
    split; [exact Hcell|]. now rewrite Hai.
Defined.

(** ** The timing of a match, continued *)

Lemma newTickOf_bounds (s : State) :
  speedBoost s = 0 → 0 ≤ score s → MIN_TICK ≤ newTickOf s ≤ BASE_TICK.
Proof.
  intros Hboost Hscore. unfold newTickOf, MIN_TICK, BASE_TICK. rewrite Hboost.
  pose proof (Z.div_pos (score s) 5 Hscore ltac:(lia)). lia.
Qed.

(** The tick interval is the one the score asks for, and an armed tick
    timer runs at it. *)
Definition settled (s : State) : Prop :=
  tickInterval s = newTickOf s ∧
  (running s = true → tickTimer s = Some (tickInterval s)).

Lemma setSpeedFromScore_settled (s : State) :
  Wf s → wp setSpeedFromScore (λ _ s', Wf s' ∧ settled s') (λ _, False) s.
Proof.
  intros Hs. pose proof (newTickOf_bounds s (wf_boost s Hs) (wf_score s Hs)) as Hnew.
  destruct Hs as [Hmode Hboost Hscore Hinterval Hinvisible Hrunning Hperiod
                  Hplayer Hsolo Hduel].
  unfold setSpeedFromScore, wp. rewrite bind_get.
  destruct (newTickOf s =? tickInterval s) eqn:Hsame; simpl.
  - apply Z.eqb_eq in Hsame. split; [now constructor|]. split; [now symmetry|].
    intros Hrun. apply Hrunning in Hrun as (p & Hp). rewrite Hp. f_equal.
    destruct (Hperiod p Hp) as [_ [-> | Hslow]]; [reflexivity|].
    unfold BASE_TICK in *. lia.
  - rewrite bind_modify, bind_get. cbn [running set_tickInterval].
    unfold MIN_TICK, BASE_TICK in *.
    destruct (running s) eqn:Hrun; simpl.
    + split; [|split; [reflexivity | reflexivity]].
      constructor; simpl; unfold MIN_TICK, BASE_TICK; auto; try lia.
      * split; eauto.
      * intros p [= <-]. split; [lia | now left].
    + split; [|split; [reflexivity | simpl; rewrite Hrun; discriminate]].
      constructor; simpl; unfold MIN_TICK, BASE_TICK; auto; try lia.
      * now rewrite Hrun.
      * intros p Hp. assert (false = true) by (apply Hrunning; eauto).
        discriminate.
Qed.

Lemma Wf_setSpeedFromScore : keeps Wf setSpeedFromScore.
Proof.
  intros s Hs. eapply wp_mono; [now apply setSpeedFromScore_settled | | done].
  now intros _ s' [Hs' _].
Qed.

#[global] Hint Resolve Wf_setSpeedFromScore : wf.

(** The last statement of the tick: the countdown of the invisibility. *)
Lemma Wf_fade :
  keeps Wf (bind get (λ s,
    when (0 <? invisibleTailTicks s)
      (modify (set_invisibleTailTicks (invisibleTailTicks s - 1))))).
Proof.
  intros s Hs. unfold wp. rewrite bind_get. unfold when.
  destruct (0 <? invisibleTailTicks s) eqn:Hpos; [|exact Hs].
  apply Z.ltb_lt in Hpos. revert s Hs Hpos. wf_frame.
Qed.

Lemma Wf_gameTick : keeps Wf gameTick.
Proof.
  unfold gameTick. apply keeps_bind; [keeps_wf|]. intros _ s Hs.
  apply wp_bind_get.
  destruct (wf_mode s Hs) as [-> | ->]; apply wp_keeps; try assumption;
    repeat first [apply Wf_fade | apply keeps_bind; [keeps_wf | intros ?]].
Qed.

Lemma Wf_specialSpawn : keeps Wf specialSpawn.
Proof. unfold specialSpawn. keeps_wf. Qed.

Lemma Wf_slowExpiry : keeps Wf slowExpiry.
Proof.
  intros s Hs. pose proof (newTickOf_bounds s (wf_boost s Hs) (wf_score s Hs)) as Hnew.
  destruct Hs as [Hmode Hboost Hscore Hinterval Hinvisible Hrunning Hperiod
                  Hplayer Hsolo Hduel].
  unfold slowExpiry, wp, when, startTick. rewrite !bind_modify, bind_get.
  cbn [running set_tickInterval set_slowTimers].
  change (newTickOf (set_slowTimers (Nat.pred (slowTimers s)) s)) with (newTickOf s).
  unfold MIN_TICK, BASE_TICK in *.
  destruct (running s) eqn:Hrun; simpl; constructor; simpl;
    unfold MIN_TICK, BASE_TICK; auto; try lia.
  - split; eauto.
  - intros p [= <-]. split; [lia | now left].
  - now rewrite Hrun.
  - intros p Hp. assert (false = true) by (apply Hrunning; eauto).
    discriminate.
Qed.

Lemma Wf_togglePause : keeps Wf togglePause.
Proof. unfold togglePause. keeps_wf. Qed.

#[global] Hint Resolve Wf_togglePause : wf.

Lemma Wf_turn (blocked wanted : Dir) : keeps Wf (turn blocked wanted).
Proof. unfold turn. keeps_wf. Qed.

#[global] Hint Resolve Wf_turn : wf.

Lemma Wf_keydown (k : Key) : keeps Wf (keydown k).
Proof. unfold keydown. keeps_wf. Qed.

Lemma Wf_startIfSimulated : keeps Wf startIfSimulated.
Proof. unfold startIfSimulated. keeps_wf. Qed.

Lemma initGame_Wf (s : State) :
  mode s = Some Single ∨ mode s = Some AI →
  wp initGame (λ _, Wf) Wf s.
Proof.
  intros Hmode.
  destruct (initGame_run s)
    as (s' & Hrun & Hm & Hscore & Hint & Hboost & Hinv & _ & Hrunning & Htimer &
        _ & _ & Hp & Ha & _).
  unfold wp. rewrite Hrun. unfold BASE_TICK, MIN_TICK in *.
  constructor; rewrite ?Hm, ?Hscore, ?Hint, ?Hboost, ?Hinv, ?Hrunning, ?Htimer,
    ?Hp, ?Ha; unfold BASE_TICK, MIN_TICK; auto; try lia.
  - split; [discriminate | intros []; discriminate].
  - intros p [=].
  - intros Hsingle. now rewrite Hsingle.
  - intros Hai. rewrite Hai. eexists. split; [reflexivity | now eexists].
Qed.

Lemma startMenuMode_Wf (m : Mode) (s : State) :
  m = Single ∨ m = AI → wp (startMenuMode m) (λ _, Wf) Wf s.
Proof.
  intros Hm. unfold startMenuMode. apply wp_bind_modify, wp_bind.
  eapply wp_mono; [apply initGame_Wf | | auto].
  - cbn [mode set_mode]. destruct Hm; subst; auto.
  - intros [] s' Hs'. now apply Wf_startIfSimulated.
Qed.

Lemma startAIMode_Wf (diff : Difficulty) (s : State) :
  wp (startAIMode diff) (λ _, Wf) Wf s.
Proof. unfold startAIMode. apply wp_bind_modify, startMenuMode_Wf. auto. Qed.

Lemma Wf_restartGame : keeps Wf restartGame.
Proof.
  intros s Hs. unfold restartGame. apply wp_bind.
  eapply wp_mono; [apply initGame_Wf, (wf_mode s Hs) | | auto].
  intros [] s' Hs'. now apply Wf_startIfSimulated.
Qed.

Lemma handler_Wf (e : Event) (s : State) :
  Wf s → wp (handler e) (λ _, Wf) Wf s.
Proof.
  intros Hs. destruct e; unfold handler.
  - now apply Wf_gameTick.
  - now apply Wf_specialSpawn.
  - now apply Wf_slowExpiry.
  - now apply Wf_keydown.
  - now apply Wf_togglePause.
  - now apply Wf_restartGame.
  - now apply Wf_stopTick.
  - apply startMenuMode_Wf. auto.
  - apply startAIMode_Wf.
Qed.

Lemma reachable_Wf (s : State) : reachable s → Wf s.
Proof.
  induction 1 as [s0 | diff s0 | e s Hreach IH Hen]; unfold after; apply wp_outcome.
  - apply startMenuMode_Wf. auto.
  - apply startAIMode_Wf.
  - now apply handler_Wf.
Qed.

(** In every state of a solo or AI match: the score is not negative;
    the tick interval is at least [MIN_TICK] and at most 400, the cap of
    the slow food; the invisibility counter is between 0 and 83;
    [running] is true exactly when the tick timer is armed, and the
    period of an armed timer is within the same bounds as the interval;
    the player snake exists; a solo match has no AI snake, and an AI
    match has one, with its difficulty set. *)
Theorem match_bounds (s : State) :
  reachable s →
  0 ≤ score s ∧
  MIN_TICK ≤ tickInterval s ≤ 400 ∧
  0 ≤ invisibleTailTicks s ≤ 83 ∧
  (running s = true ↔ is_Some (tickTimer s)) ∧
  (∀ p, tickTimer s = Some p → MIN_TICK ≤ p ≤ 400) ∧
  is_Some (playerSnake s) ∧
  (mode s = Some Single → aiSnake s = None) ∧
  (mode s = Some AI → ∃ a, aiSnake s = Some a ∧ is_Some (difficulty a)).
Proof.
  intros Hreach.
  destruct (reachable_Wf s Hreach)
    as [Hmode Hboost Hscore Hinterval Hinvisible Hrunning Hperiod
        Hplayer Hsolo Hduel].
  split; [exact Hscore|]. split; [exact Hinterval|]. split; [exact Hinvisible|].
  split; [exact Hrunning|]. split; [|split; [exact Hplayer|split; assumption]].
  intros p Hp. exact (proj1 (Hperiod p Hp)).
Qed.

Lemma match_bounds_witness :
  0 ≤ score freshDuel ∧ MIN_TICK ≤ tickInterval freshDuel ≤ 400 ∧
  is_Some (playerSnake freshDuel).
Proof.
  destruct (match_bounds freshDuel reachable_freshDuel)
    as (Hscore & Hint & _ & _ & _ & Hp & _).
  repeat split; [exact Hscore | apply Hint | apply Hint | exact Hp].
Defined.

(** ** The slow food does not outlast its tick *)

Lemma keeps_wp {A B : Type} (I : State → Prop) (m : M A) (f : A → M B)
    (Q : B → State → Prop) (s : State) :
  keeps I m → I s →
  (∀ a s', I s' → wp (f a) Q (λ _, True) s') →
  wp (bind m f) Q (λ _, True) s.
Proof.
  intros Hm Hs Hf. apply wp_bind.
  eapply wp_mono; [apply Hm, Hs | | done]. intros a s' Hs'. now apply Hf.
Qed.

Lemma gameTick_settled (s : State) :
  Wf s → wp gameTick (λ _ s', Wf s' ∧ settled s') (λ _, True) s.
Proof.
  intros Hs. unfold gameTick.
  apply (keeps_wp Wf); [keeps_wf | exact Hs|]. intros _ s1 Hs1.
  apply wp_bind_get.
  assert (Hrest : wp
    (bind (stepSnake Player (playerDir s1)) (λ _,
       bind get (λ s0,
         bind match mode s0, aiSnake s0 with
              | Some AI, Some a => when (alive a) aiStep
              | _, _ => ret ()
              end (λ _,
           bind handleFoodCollisions (λ _,
             bind handleCollisionsSingleMode (λ _,
               bind setSpeedFromScore (λ _,
                 bind get (λ s2,
                   when (0 <? invisibleTailTicks s2)
                     (modify (set_invisibleTailTicks
                                (invisibleTailTicks s2 - 1)))))))))))
    (λ _ s', Wf s' ∧ settled s') (λ _, True) s1).
  { apply (keeps_wp Wf); [keeps_wf | exact Hs1|]. intros _ s2 Hs2.
    apply wp_bind_get.
    apply (keeps_wp Wf); [keeps_wf | exact Hs2|]. intros _ s3 Hs3.
    apply (keeps_wp Wf); [keeps_wf | exact Hs3|]. intros _ s4 Hs4.
    apply (keeps_wp Wf); [keeps_wf | exact Hs4|]. intros _ s5 Hs5.
    apply wp_bind.
    eapply wp_mono; [apply setSpeedFromScore_settled, Hs5 | | done].
    intros _ s6 [Hs6 Hset]. apply wp_bind_get. unfold when, wp.
    destruct (0 <? invisibleTailTicks s6) eqn:Hpos; [|now split].
    simpl. split; [|exact Hset].
    apply Z.ltb_lt in Hpos. revert s6 Hs6 Hset Hpos. wf_frame. }
  destruct (wf_mode s1 Hs1) as [-> | ->]; exact Hrest.
Qed.

(** The slow food raises [tickInterval] by 120, up to 400, which is
    above [BASE_TICK] whatever the interval was. But the tick that eats
    it ends with [setSpeedFromScore], which puts the interval back: after
    every tick of a solo or AI match that returns, [tickInterval] is
    [max(MIN_TICK, BASE_TICK - floor(score / 5) * 10)], at most
    [BASE_TICK], and a running tick timer is armed with that period. The
    slowed interval never times a tick. *)
Theorem slow_food_undone :
  (∀ (who : Who) (food : Food) (s : State),
     ftype food = Special → subtype food = Some Slow →
     consumeFood who food s =
       Ok () (set_slowTimers (S (slowTimers s))
                (set_tickInterval (Z.min 400 (tickInterval s + 120)) s)) ∧
     (MIN_TICK ≤ tickInterval s → BASE_TICK < Z.min 400 (tickInterval s + 120))) ∧
  (∀ (s s' : State),
     reachable s → gameTick s = Ok () s' →
     tickInterval s' = Z.max MIN_TICK (BASE_TICK - score s' / 5 * 10) ∧
     tickInterval s' ≤ BASE_TICK ∧
     (running s' = true → tickTimer s' = Some (tickInterval s'))).
Proof.
  split.
  - intros who food s Htype Hsub. split.
    + unfold consumeFood. now rewrite Htype, Hsub.
    + unfold MIN_TICK, BASE_TICK. lia.
  - intros s s' Hreach Hrun.
    pose proof (gameTick_settled s (reachable_Wf s Hreach)) as Hwp.
    unfold wp in Hwp. rewrite Hrun in Hwp. destruct Hwp as [Hs' [Hint Htimer]].
    pose proof (newTickOf_bounds s' (wf_boost s' Hs') (wf_score s' Hs')) as Hnew.
    split; [|split; [rewrite Hint; apply Hnew | exact Htimer]].
    rewrite Hint. unfold newTickOf. rewrite (wf_boost s' Hs'). f_equal. lia.
Qed.

(** A solo match in which the spawn timer has put a slow food on
    (14,15), right ahead of the player. *)
Definition slowAhead : State :=
  run [SpecialSpawn]
    (after StartSingle
       (pageLoad (λ n, nth n [0; 0; 0; sampleOf 29 60; sampleOf 31 60; sampleOf 3 8] 0)
          (λ _, 0))).

Lemma slow_food_undone_witness :
  foods slowAhead =
    [mkFood 0 0 Normal None 0; mkFood 14 15 Special (Some Slow) 0] ∧
  foods (outcome (gameTick slowAhead)) = [mkFood 0 0 Normal None 0] ∧
  slowTimers (outcome (gameTick slowAhead)) = 1%nat ∧
  tickInterval (outcome (gameTick slowAhead)) = 150.
Proof.
  split; [now vm_compute|]. split; [now vm_compute|]. split; [now vm_compute|].
  assert (Hreach : reachable slowAhead).
  { apply reachable_run; [apply reach_single | now vm_compute]. }
  assert (Hrun : gameTick slowAhead = Ok () (outcome (gameTick slowAhead))).
  { now vm_compute. }
  destruct (proj2 slow_food_undone slowAhead _ Hreach Hrun) as (Hint & _).
  rewrite Hint. now vm_compute.
Defined.

(** ** A tick that cannot throw *)

(** From [s] to [s'] the mode and the foods have not changed, the same
    snakes exist and none has got shorter. *)
Definition grown (s s' : State) : Prop :=
  mode s' = mode s ∧ foods s' = foods s ∧
  ∀ who,
    match getSnake who s with
    | Some sn => ∃ sn', getSnake who s' = Some sn' ∧
                        (length (body sn) ≤ length (body sn'))%nat
    | None => getSnake who s' = None
    end.

Lemma grown_refl (s : State) : grown s s.
Proof.
  split; [reflexivity|]. split; [reflexivity|].
  intros who. destruct (getSnake who s) as [sn|]; eauto.
Qed.

Lemma grown_trans (s1 s2 s3 : State) : grown s1 s2 → grown s2 s3 → grown s1 s3.
Proof.
  intros (Hm1 & Hf1 & H1) (Hm2 & Hf2 & H2).
  split; [congruence|]. split; [congruence|].
  intros who. specialize (H1 who). specialize (H2 who).
  destruct (getSnake who s1) as [sn|].
  - destruct H1 as (sn' & Hget & Hlen). rewrite Hget in H2.
    destruct H2 as (sn'' & Hget' & Hlen'). exists sn''. split; [exact Hget' | lia].
  - now rewrite H1 in H2.
Qed.

Lemma grown_setSnake (who : Who) (s : State) (snake v : Snake) :
  getSnake who s = Some snake →
  (length (body snake) ≤ length (body v))%nat →
  grown s (setSnake who v s).
Proof.
  intros Hget Hlen. split; [now destruct who|]. split; [now destruct who|].
  intros who'. destruct who, who'; simpl in *; rewrite ?Hget; eauto;
    match goal with |- context [match ?x with _ => _ end] => destruct x end; eauto.
Qed.

(** A change of fields that [grown] does not read. *)
Ltac grown_frame :=
  split; [reflexivity|]; split; [reflexivity|];
  let who := fresh "who" in
  intros who; destruct who; simpl;
  match goal with |- context [match ?x with _ => _ end] => destruct x end; eauto.

(** [m], run from a state with [P], returns and leaves the board grown. *)
Definition sound {A : Type} (P : State → Prop) (m : M A) : Prop :=
  ∀ s, P s → wp m (λ _ s', grown s s') (λ _, False) s.

Definition stable (P : State → Prop) : Prop :=
  ∀ s s', grown s s' → P s → P s'.

(** The snake [who] exists and has a head. *)
Definition headed (who : Who) (s : State) : Prop :=
  ∃ sn, getSnake who s = Some sn ∧ body sn ≠ [].

Lemma headed_stable (who : Who) : stable (headed who).
Proof.
  intros s s' (_ & _ & H) (sn & Hget & Hne). specialize (H who).
  rewrite Hget in H. destruct H as (sn' & Hget' & Hlen).
  exists sn'. split; [exact Hget'|]. destruct (body sn), (body sn'); simpl in *; try done; lia.
Qed.

Section Sound.

Context (P : State → Prop) (HP : stable P).

Lemma sound_ret {A : Type} (a : A) : sound P (ret a).
Proof. intros s _. apply grown_refl. Qed.

Lemma sound_get : sound P get.
Proof. intros s _. apply grown_refl. Qed.

Lemma sound_bind {A B : Type} (m : M A) (f : A → M B) :
  sound P m → (∀ a, sound P (f a)) → sound P (bind m f).
Proof.
  intros Hm Hf s Hs. apply wp_bind. eapply wp_mono; [apply Hm, Hs | | done].
  intros a s1 H1. eapply wp_mono; [apply Hf, (HP s s1 H1 Hs) | | done].
  intros b s2 H2. now apply grown_trans with s1.
Qed.

Lemma sound_when (b : bool) (m : M unit) : sound P m → sound P (when b m).
Proof. intros Hm. destruct b; [exact Hm | apply sound_ret]. Qed.

Lemma sound_forEach {A : Type} (l : list A) (f : A → M unit) :
  (∀ a, sound P (f a)) → sound P (forEach l f).
Proof.
  intros Hf. induction l as [|a l IH]; simpl; [apply sound_ret|].
  apply sound_bind; auto.
Qed.

Lemma sound_modify (f : State → State) : (∀ s, grown s (f s)) → sound P (modify f).
Proof. intros Hf s _. apply Hf. Qed.

Lemma sound_readSnake (who : Who) :
  (∀ s, P s → is_Some (getSnake who s)) → sound P (readSnake who).
Proof.
  intros Hwho s Hs. unfold readSnake, wp. rewrite bind_get.
  destruct (Hwho s Hs) as (sn & ->). apply grown_refl.
Qed.

Lemma sound_updateSnake (who : Who) (f : Snake → Snake) :
  (∀ s, P s → is_Some (getSnake who s)) →
  (∀ sn, (length (body sn) ≤ length (body (f sn)))%nat) →
  sound P (updateSnake who f).
Proof.
  intros Hwho Hf s Hs. unfold updateSnake, wp. rewrite bind_get.
  destruct (Hwho s Hs) as (sn & Hget). rewrite Hget.
  now apply (grown_setSnake who s sn).
Qed.

Lemma sound_Math_random : sound P Math_random.
Proof. intros s _. unfold wp, Math_random. grown_frame. Qed.

Lemma sound_findNearestFood (pos : Cell) : sound P (findNearestFood (Some pos)).
Proof.
  intros s _. unfold wp, findNearestFood. rewrite bind_get.
  destruct (foods s); apply grown_refl.
Qed.

Lemma sound_bfsPath (start goal : Cell) : sound P (bfsPath start goal).
Proof. intros s _. apply grown_refl. Qed.

Lemma sound_stepSnake (who : Who) (d : Dir) : sound P (stepSnake who d).
Proof.
  intros s _. unfold wp.
  destruct (getSnake who s) as [snake|] eqn:Hget.
  - destruct (alive snake) eqn:Halive.
    + destruct (match newHead (body snake) d with
                | Some c => insideGrid c
                | None => false
                end) eqn:Hin.
      * destruct (body snake) as [|h rest] eqn:Hbody; [discriminate|].
        rewrite (stepSnake_advance who d s snake h rest Hget Halive Hbody Hin).
        apply (grown_setSnake who s snake); [exact Hget|].
        unfold advance. destruct (0 <? pendingGrow snake); simpl;
          rewrite ?length_pop, Hbody; simpl; lia.
      * rewrite (stepSnake_outside who d s snake Hget Halive Hin).
        unfold afterDeath.
        apply grown_trans with (setSnake who (set_alive false snake) s).
        -- now apply (grown_setSnake who s snake).
        -- grown_frame.
    + unfold stepSnake. rewrite bind_get, Hget, Halive. apply grown_refl.
  - unfold stepSnake. rewrite bind_get, Hget. apply grown_refl.
Qed.

End Sound.

Create HintDb sound.

#[global] Hint Resolve headed_stable : sound.

Lemma headed_is_Some (who : Who) (s : State) :
  headed who s → is_Some (getSnake who s).
Proof. intros (sn & Hget & _). eauto. Qed.

#[global] Hint Resolve headed_is_Some : sound.

(** One step of a proof that a composite computation is sound. *)
Ltac sound_step :=
  match goal with
  | |- sound _ (bind _ _) => apply sound_bind; [solve [auto with sound] | | intros ?]
  | |- sound _ (ret _) => apply sound_ret
  | |- sound _ get => apply sound_get
  | |- sound _ (when _ _) => apply sound_when
  | |- sound _ (forEach _ _) =>
      apply sound_forEach; [solve [auto with sound] | intros ?]
  | |- sound _ (modify _) => apply sound_modify; intros ?; grown_frame
  | |- sound _ (readSnake _) => apply sound_readSnake; solve [auto with sound]
  | |- sound _ (updateSnake _ _) =>
      apply sound_updateSnake;
      [solve [auto with sound] | intros ?; simpl; rewrite ?length_pop; lia]
  | |- sound _ Math_random => apply sound_Math_random
  | |- sound _ (findNearestFood (Some _)) => apply sound_findNearestFood
  | |- sound _ (bfsPath _ _) => apply sound_bfsPath
  | |- sound _ (stepSnake _ _) => apply sound_stepSnake
  | |- sound _ (match ?x with _ => _ end) => destruct x
  end.

Ltac sound_all := repeat sound_step.

Section SoundEngine.

Context (P : State → Prop) (HP : stable P).

Local Hint Resolve HP : sound.

Lemma sound_onPlayerDie (which : Which) : sound P (onPlayerDie which).
Proof. unfold onPlayerDie, showGameOver, stopTick. sound_all. Qed.

Lemma sound_setSpeedFromScore : sound P setSpeedFromScore.
Proof. unfold setSpeedFromScore, startTick. sound_all. Qed.

Lemma sound_fade :
  sound P (bind get (λ s,
    when (0 <? invisibleTailTicks s)
      (modify (set_invisibleTailTicks (invisibleTailTicks s - 1))))).
Proof. sound_all. Qed.

Section Who.

Variable who : Who.
Hypothesis Hwho : ∀ s, P s → headed who s.

Local Lemma present (s : State) : P s → is_Some (getSnake who s).
Proof. intros Hs. apply headed_is_Some, Hwho, Hs. Qed.

Local Hint Resolve present : sound.

Lemma sound_kill : sound P (kill who).
Proof. unfold kill. sound_all. Qed.

Lemma sound_die (which : Which) :
  sound P (bind (kill who) (λ _, onPlayerDie which)).
Proof.
  apply sound_bind; [exact HP | apply sound_kill | intros _].
  apply sound_onPlayerDie.
Qed.

Lemma sound_selfCollision : sound P (selfCollision who).
Proof.
  unfold selfCollision. sound_all; auto using sound_kill, sound_onPlayerDie.
Qed.

(** One pass of the loop of [headIntoBody], the head being [who]'s. *)
Lemma sound_headPass (seg : Cell) :
  sound P (bind (readSnake who) (λ m,
    bind (eqJS (head (body m)) (Some seg)) (λ hit,
      if hit then bind (kill who) (λ _, onPlayerDie (whichOf who)) else ret ()))).
Proof.
  intros s Hs. destruct (Hwho s Hs) as (m & Hget & Hne).
  unfold wp. rewrite (bind_Ok _ _ _ _ _ (readSnake_Ok who s m Hget)).
  destruct (body m) as [|h rest]; [done|]. cbn [head].
  rewrite (bind_Ok _ _ _ _ _ (eqJS_Ok h seg s)).
  destruct (eq h seg); [now apply sound_die | apply grown_refl].
Qed.

End Who.

End SoundEngine.

(** Both snakes exist, each with a head. *)
Definition duel (s : State) : Prop := headed Player s ∧ headed Opponent s.

Lemma duel_stable : stable duel.
Proof.
  intros s s' Hgrown [Hp Ha].
  split; [now apply (headed_stable Player s s') | now apply (headed_stable Opponent s s')].
Qed.

Lemma duel_headed (who : Who) (s : State) : duel s → headed who s.
Proof. intros [Hp Ha]. now destruct who. Qed.

#[global] Hint Resolve duel_stable : sound.

Lemma sound_headIntoBody (mine theirs : Who) : sound duel (headIntoBody mine theirs).
Proof.
  unfold headIntoBody. apply sound_bind; [apply duel_stable | |].
  - apply sound_readSnake. intros s Hs. apply headed_is_Some, duel_headed, Hs.
  - intros o. apply sound_forEach; [apply duel_stable|]. intros seg.
    apply sound_headPass; auto using duel_stable, duel_headed.
Qed.

Lemma wp_grown_bind {A B : Type} (m : M A) (f : A → M B) (s : State) :
  wp m (λ _ s1, grown s s1) (λ _, False) s →
  (∀ a s1, grown s s1 → wp (f a) (λ _ s2, grown s1 s2) (λ _, False) s1) →
  wp (bind m f) (λ _ s2, grown s s2) (λ _, False) s.
Proof.
  intros Hm Hf. apply wp_bind. eapply wp_mono; [exact Hm | | done].
  intros a s1 H1. eapply wp_mono; [now apply Hf | | done].
  intros b s2 H2. now apply grown_trans with s1.
Qed.

Lemma wp_readSnake {B : Type} (who : Who) (f : Snake → M B) Q E (s : State)
    (sn : Snake) :
  getSnake who s = Some sn → wp (f sn) Q E s → wp (bind (readSnake who) f) Q E s.
Proof.
  intros Hget Hf. unfold wp. now rewrite (bind_Ok _ _ _ _ _ (readSnake_Ok who s sn Hget)).
Qed.

(** The head-to-head test of [handleCollisionsSingleMode], [p] being the
    player snake just read. *)
Lemma headToHead_wp (s : State) (p : Snake) :
  duel s → playerSnake s = Some p →
  wp (if alive p then
        bind (readSnake Opponent) (λ a,
          bind (eqJS (head (body p)) (head (body a))) (λ hit,
            if hit
            then bind (kill Player) (λ _,
                   bind (kill Opponent) (λ _, onPlayerDie WhichBoth))
            else ret ()))
      else ret ())
    (λ _ s', grown s s') (λ _, False) s.
Proof.
  intros Hd Hp. pose proof Hd as [(p' & Hp' & Hpne) (a & Ha & Hane)].
  simpl in Hp'. rewrite Hp in Hp'. injection Hp' as <-.
  destruct (alive p); [|apply grown_refl].
  apply (wp_readSnake Opponent _ _ _ s a Ha).
  destruct (body p) as [|hp rp]; [done|].
  destruct (body a) as [|ha ra]; [done|]. cbn [head].
  unfold wp. rewrite (bind_Ok _ _ _ _ _ (eqJS_Ok hp ha s)).
  destruct (eq hp ha); [|apply grown_refl].
  assert (Hboth : sound duel (bind (kill Player) (λ _,
            bind (kill Opponent) (λ _, onPlayerDie WhichBoth)))).
  { apply sound_bind; [apply duel_stable | |intros _].
    - apply sound_kill; auto using duel_stable, duel_headed.
    - apply sound_die; auto using duel_stable, duel_headed. }
  exact (Hboth s Hd).
Qed.

(** Every snake that exists has a head, and the player snake exists. *)
Definition allHeaded (s : State) : Prop :=
  headed Player s ∧ (aiSnake s = None ∨ headed Opponent s).

Lemma allHeaded_stable : stable allHeaded.
Proof.
  intros s s' Hgrown [Hp Ha]. split; [now apply (headed_stable Player s s')|].
  destruct Ha as [Ha | Ha]; [|right; now apply (headed_stable Opponent s s')].
  left. destruct Hgrown as (_ & _ & H). specialize (H Opponent). simpl in H.
  now rewrite Ha in H.
Qed.

#[global] Hint Resolve allHeaded_stable : sound.

Lemma sound_playerVsAi : sound allHeaded playerVsAi.
Proof.
  intros s [Hp Ha]. unfold playerVsAi. apply wp_bind_get.
  destruct (aiSnake s) as [a|] eqn:Hai; [|apply grown_refl].
  destruct (alive a); [|apply grown_refl]. cbn [negb].
  assert (Hd : duel s) by (split; [exact Hp | now destruct Ha]).
  assert (Hread : ∀ who, sound duel (readSnake who)).
  { intros who. apply sound_readSnake. intros s0 Hs0.
    apply headed_is_Some, duel_headed, Hs0. }
  apply wp_grown_bind.
  { exact (sound_selfCollision duel duel_stable Opponent (duel_headed Opponent) s Hd). }
  intros _ s1 H1. pose proof (duel_stable s s1 H1 Hd) as Hd1.
  destruct Hd1 as [(p1 & Hp1 & Hne1) Ha1].
  apply (wp_readSnake Player _ _ _ s1 p1 Hp1).
  apply wp_grown_bind.
  { exact (headToHead_wp s1 p1 (conj (ex_intro _ p1 (conj Hp1 Hne1)) Ha1) Hp1). }
  intros _ s2 H2.
  assert (Hd2 : duel s2).
  { apply (duel_stable s1 s2 H2).
    exact (conj (ex_intro _ p1 (conj Hp1 Hne1)) Ha1). }
  revert s2 Hd2 H2. clear. intros s2 Hd2 _.
  assert (Hread : ∀ who, sound duel (readSnake who)).
  { intros who. apply sound_readSnake. intros s0 Hs0.
    apply headed_is_Some, duel_headed, Hs0. }
  assert (Hrest : sound duel
    (bind (readSnake Player) (λ p,
       bind (if alive p then headIntoBody Player Opponent else ret ()) (λ _,
         bind (readSnake Opponent) (λ a,
           if alive a then headIntoBody Opponent Player else ret ()))))).
  { apply sound_bind; [apply duel_stable | apply Hread |intros p].
    apply sound_bind; [apply duel_stable | |intros _].
    { destruct (alive p); [apply sound_headIntoBody | now apply sound_ret]. }
    apply sound_bind; [apply duel_stable | apply Hread |intros a].
    destruct (alive a); [apply sound_headIntoBody | now apply sound_ret]. }
  exact (Hrest s2 Hd2).
Qed.

Lemma sound_handleCollisionsSingleMode : sound allHeaded handleCollisionsSingleMode.
Proof.
  unfold handleCollisionsSingleMode.
  apply sound_bind; [apply allHeaded_stable | |intros p].
  { apply sound_readSnake. intros s [Hp _]. now apply headed_is_Some. }
  apply sound_bind; [apply allHeaded_stable | |intros _; apply sound_playerVsAi].
  destruct (alive p); [|now apply sound_ret].
  apply sound_selfCollision; [apply allHeaded_stable | now intros s [Hp _]].
Qed.

(** ** The AI step cannot throw *)

Lemma sound_aiStep : sound (headed Opponent) aiStep.
Proof.
  assert (Hpresent : ∀ s, headed Opponent s → is_Some (getSnake Opponent s)).
  { intros s. apply headed_is_Some. }
  assert (Hdir : ∀ d, sound (headed Opponent) (setAiDir d)).
  { intros d. unfold setAiDir. sound_all. }
  assert (Hrandom : sound (headed Opponent) randomDir).
  { unfold randomDir, randomBelow. sound_all. apply Hdir. }
  assert (Hstep : sound (headed Opponent) stepAi).
  { unfold stepAi. sound_all. }
  intros s Hs. pose proof Hs as (a & Ha & Hne).
  unfold aiStep. apply (wp_readSnake Opponent _ _ _ s a Ha).
  destruct (alive a); [|apply grown_refl]. cbn [negb].
  destruct (body a) as [|h rest]; [done|]. cbn [head].
  revert s Hs Ha.
  match goal with
  | |- ∀ s, headed Opponent s → _ → wp ?m _ _ s =>
      cut (sound (headed Opponent) m); [intros Hm s Hs _; exact (Hm s Hs)|]
  end.
  destruct (difficulty a) as [[| |]|]; unfold randomLess;
    sound_all; auto.
Qed.

(** ** The food resolver cannot throw while the snakes are long enough *)

Definition isPoison (f : Food) : bool :=
  match ftype f, subtype f with
  | Special, Some Poison => true
  | _, _ => false
  end.

(** What any consumption does to the board: it returns; it appends at
    most one food, a normal one on a cell no snake covers; it leaves the
    other snake alone; and it cuts the last two segments off the eater
    when the food is a poison, and leaves its body alone otherwise. *)
Lemma consumeFood_effect (who : Who) (food : Food) (s : State) (snake : Snake) :
  getSnake who s = Some snake →
  ∃ s1 spawned snake1,
    consumeFood who food s = Ok () s1 ∧ mode s1 = mode s ∧
    foods s1 = foods s ++ spawned ∧ (length spawned ≤ 1)%nat ∧
    (∀ f, f ∈ spawned → ftype f = Normal ∧ occupied s1 (foodCell f) = false) ∧
    getSnake (other who) s1 = getSnake (other who) s ∧
    getSnake who s1 = Some snake1 ∧
    alive snake1 = alive snake ∧
    body snake1 = if isPoison food
                  then take (length (body snake) - 2) (body snake)
                  else body snake.
Proof.
  intros Hget. unfold isPoison. destruct (ftype food) eqn:Htype.
  - destruct (placeFoodFrom_Ok 200 Normal (fed who snake s))
      as (r & s' & Hrun & Hframe & Hr).
    exists s', (option_list r). eexists.
    split; [rewrite (consumeFood_normal_run who food s snake Htype Hget);
            unfold bind, placeFood; now rewrite Hrun|].
    split; [rewrite Hframe; now destruct who|].
    split; [destruct r; simpl; [destruct Hr as (-> & _)
                               | rewrite app_nil_r; destruct Hr as (-> & _)];
            now destruct who|].
    split; [destruct r; simpl; lia|].
    split.
    { intros f Hf. destruct r as [f'|]; simpl in Hf; [|now apply elem_of_nil in Hf].
      apply list_elem_of_singleton in Hf as ->.
      destruct Hr as (_ & Hty & _ & Hfree & _). split; [exact Hty|].
      rewrite <- Hfree. unfold occupied. now rewrite Hframe. }
    split; [rewrite Hframe; now destruct who|].
    split; [rewrite Hframe; destruct who; reflexivity|].
    split; reflexivity.
  - unfold consumeFood. rewrite Htype.
    destruct (subtype food) as [[| | |]|]; unfold updateSnake;
      destruct who; run; rewrite ?Hget; simpl;
      eexists _, [], _; rewrite app_nil_r; simpl;
      (do 4 (split; [first [reflexivity | eassumption | lia]|]));
      (split; [intros f Hf; now apply elem_of_nil in Hf|]);
      (do 3 (split; [first [reflexivity | eassumption]|]));
      rewrite ?pop_pop; reflexivity.
Qed.

(** The player snake exists, and every snake has more than twice as
    many segments as there are special foods on the board: no poison can
    take a snake's last segment. *)
Definition roomy (s : State) : Prop :=
  is_Some (playerSnake s) ∧
  ∀ who sn, getSnake who s = Some sn →
            (2 * specialCount (foods s) < length (body sn))%nat.

Lemma roomy_grown (s s' : State) : roomy s → grown s s' → roomy s'.
Proof.
  intros [(p & Hp) Hlen] (_ & Hfoods & Hsnakes). split.
  - pose proof (Hsnakes Player) as H. simpl in H. rewrite Hp in H.
    destruct H as (p' & Hp' & _). eauto.
  - intros who sn' Hget. rewrite Hfoods. specialize (Hsnakes who).
    destruct (getSnake who s) as [sn|] eqn:Hsn; [|congruence].
    destruct Hsnakes as (sn'' & Hget'' & Hle).
    rewrite Hget in Hget''. injection Hget'' as <-.
    specialize (Hlen who sn Hsn). lia.
Qed.

Lemma roomy_headed (who : Who) (s : State) (sn : Snake) :
  roomy s → getSnake who s = Some sn → headed who s.
Proof.
  intros [_ Hlen] Hget. exists sn. split; [exact Hget|].
  specialize (Hlen who sn Hget). destruct (body sn); simpl in *; [lia | done].
Qed.

Lemma roomy_allHeaded (s : State) : roomy s → allHeaded s.
Proof.
  intros Hs. pose proof Hs as [(p & Hp) _]. split.
  - now apply (roomy_headed Player s p).
  - destruct (aiSnake s) as [a|] eqn:Ha; [right | now left].
    now apply (roomy_headed Opponent s a).
Qed.

Lemma specialCount_lookup_delete (i : nat) (l : list Food) (f : Food) :
  l !! i = Some f →
  (specialCount (delete i l) + (if isSpecial f then 1 else 0) = specialCount l)%nat.
Proof.
  unfold specialCount. revert i. induction l as [|g l IH]; intros [|i] Hf;
    simpl in *; try discriminate.
  - injection Hf as ->. destruct (isSpecial f); simpl; lia.
  - specialize (IH i Hf). destruct (isSpecial g); simpl; lia.
Qed.

Lemma specialCount_normal (l : list Food) :
  (∀ f, f ∈ l → ftype f = Normal) → specialCount l = 0%nat.
Proof.
  intros Hl. apply specialCount_0. apply not_true_is_false.
  intros (f & Hf & Hsp)%existsb_exists. apply list_elem_of_In in Hf.
  unfold isSpecial in Hsp. now rewrite (Hl f Hf) in Hsp.
Qed.

(** A consumption of the food at index [i], followed by its removal. *)
Lemma eat_roomy (who : Who) (i : nat) (s : State) (f : Food) (snake : Snake) :
  roomy s → foods s !! i = Some f → getSnake who s = Some snake →
  wp (bind (consumeFood who f) (λ _, splice i))
    (λ _ s', roomy s' ∧ (i ≤ length (foods s'))%nat ∧ mode s' = mode s)
    (λ _, False) s.
Proof.
  intros [Hp Hlen] Hf Hget.
  destruct (consumeFood_effect who f s snake Hget)
    as (s1 & spawned & snake1 & Hrun & Hmode & Hfoods & _ & Hspawned & Hother &
        Hget1 & _ & Hbody).
  unfold wp. rewrite (bind_Ok _ _ _ _ _ Hrun). unfold splice, modify.
  pose proof (lookup_lt_Some _ _ _ Hf) as Hi.
  assert (Hdel : delete i (foods s1) = delete i (foods s) ++ spawned).
  { rewrite Hfoods. now apply delete_app_l. }
  assert (Hcount : (specialCount (delete i (foods s1)) +
                    (if isSpecial f then 1 else 0) = specialCount (foods s))%nat).
  { rewrite Hdel, specialCount_app, (specialCount_normal spawned).
    - rewrite Nat.add_0_r. now apply specialCount_lookup_delete.
    - intros g Hg. now apply Hspawned. }
  split; [|split; [|exact Hmode]].
  - split.
    + destruct who; simpl in *; [eauto|]. now rewrite Hother.
    + intros who' sn Hsn. cbn [foods set_foods].
      assert (Hsn' : getSnake who' s1 = Some sn) by now destruct who'.
      assert (Hcases : who' = who ∨ who' = other who) by (destruct who, who'; auto).
      destruct Hcases as [-> | ->].
      * rewrite Hget1 in Hsn'. injection Hsn' as <-. rewrite Hbody.
        specialize (Hlen who snake Hget). unfold isPoison, isSpecial in *.
        destruct (ftype f); [lia|]. destruct (subtype f) as [[| | |]|];
          rewrite ?length_take; lia.
      * rewrite Hother in Hsn'. specialize (Hlen (other who) sn Hsn').
        destruct (isSpecial f); lia.
  - cbn [foods set_foods]. rewrite Hdel, length_app, length_delete by eauto. lia.
Qed.

Lemma foodStep_roomy (i : nat) (s : State) :
  roomy s → (i < length (foods s))%nat →
  wp (foodStep i)
    (λ _ s', roomy s' ∧ (i ≤ length (foods s'))%nat ∧ mode s' = mode s)
    (λ _, False) s.
Proof.
  intros Hs Hi. pose proof Hs as [(p & Hp) _].
  destruct (lookup_lt_is_Some_2 (foods s) i Hi) as (f & Hf).
  destruct (roomy_headed Player s p Hs Hp) as (p' & Hp' & Hpne).
  simpl in Hp'. rewrite Hp in Hp'. injection Hp' as <-.
  unfold foodStep, wp. rewrite bind_get, Hf.
  rewrite (bind_Ok _ _ _ _ _ (readSnake_Ok Player s p Hp)).
  destruct (body p) as [|hp rp]; [done|]. simpl. rewrite bind_ret.
  destruct (eq (foodCell f) hp).
  - exact (eat_roomy Player i s f p Hs Hf Hp).
  - destruct (aiSnake s) as [a|] eqn:Ha;
      [|simpl; split; [exact Hs | split; [lia | reflexivity]]].
    destruct (alive a); [|simpl; split; [exact Hs | split; [lia | reflexivity]]].
    destruct (roomy_headed Opponent s a Hs Ha) as (a' & Ha' & Hane).
    simpl in Ha'. rewrite Ha in Ha'. injection Ha' as <-.
    destruct (body a) as [|ha ra]; [done|]. simpl. rewrite bind_ret.
    destruct (eq (foodCell f) ha).
    + exact (eat_roomy Opponent i s f a Hs Hf Ha).
    + simpl. split; [exact Hs | split; [lia | reflexivity]].
Qed.

Lemma foodLoop_roomy (n : nat) :
  ∀ s, roomy s → (n ≤ length (foods s))%nat →
       wp (foodLoop n) (λ _ s', roomy s' ∧ mode s' = mode s) (λ _, False) s.
Proof.
  induction n as [|n IH]; intros s Hs Hn; [now split|].
  simpl. apply wp_bind.
  eapply wp_mono; [apply (foodStep_roomy n s Hs); lia | | done].
  intros _ s1 (Hs1 & Hn1 & Hm1).
  eapply wp_mono; [apply (IH s1 Hs1 Hn1) | | done].
  intros _ s2 [Hs2 Hm2]. split; [exact Hs2 | congruence].
Qed.

(** [m], run from a roomy state, returns, in a roomy state of the same
    mode. *)
Definition calm {A : Type} (m : M A) : Prop :=
  ∀ s, roomy s → wp m (λ _ s', roomy s' ∧ mode s' = mode s) (λ _, False) s.

Lemma calm_bind {A B : Type} (m : M A) (f : A → M B) :
  calm m → (∀ a, calm (f a)) → calm (bind m f).
Proof.
  intros Hm Hf s Hs. apply wp_bind. eapply wp_mono; [apply Hm, Hs | | done].
  intros a s1 [Hs1 Hm1]. eapply wp_mono; [apply Hf, Hs1 | | done].
  intros b s2 [Hs2 Hm2]. split; [exact Hs2 | congruence].
Qed.

Lemma sound_calm {A : Type} (P : State → Prop) (m : M A) :
  (∀ s, roomy s → P s) → sound P m → calm m.
Proof.
  intros HP Hm s Hs. eapply wp_mono; [apply Hm, HP, Hs | | done].
  intros a s' Hgrown. split; [now apply (roomy_grown s) | apply Hgrown].
Qed.

Lemma True_stable : stable (λ _, True).
Proof. done. Qed.

Lemma calm_handleFoodCollisions : calm handleFoodCollisions.
Proof.
  intros s Hs. unfold handleFoodCollisions. apply wp_bind_get.
  now apply foodLoop_roomy.
Qed.

(** The AI's move in [gameTick]. *)
Lemma aiMove_wp (s : State) :
  roomy s →
  wp match mode s, aiSnake s with
     | Some AI, Some a => when (alive a) aiStep
     | _, _ => ret ()
     end
    (λ _ s', roomy s' ∧ mode s' = mode s) (λ _, False) s.
Proof.
  intros Hs.
  assert (Hstay : wp (ret ()) (λ _ s', roomy s' ∧ mode s' = mode s) (λ _, False) s)
    by now split.
  destruct (mode s) as [[| |]|] eqn:Hm; try exact Hstay.
  destruct (aiSnake s) as [a|] eqn:Ha; [|exact Hstay].
  destruct (alive a); [|exact Hstay].
  eapply wp_mono; [apply sound_aiStep, (roomy_headed Opponent s a Hs Ha) | | done].
  intros u s' Hgrown. split; [now apply (roomy_grown s)|].
  rewrite <- Hm. apply Hgrown.
Qed.

Lemma calm_gameTick (s : State) :
  mode s = Some Single ∨ mode s = Some AI →
  roomy s → wp gameTick (λ _ s', roomy s' ∧ mode s' = mode s) (λ _, False) s.
Proof.
  intros Hmode Hs.
  assert (Hall : ∀ s0, roomy s0 → True) by done.
  assert (Hrest : ∀ d, calm
    (bind (stepSnake Player d) (λ _,
       bind get (λ s0,
         bind match mode s0, aiSnake s0 with
              | Some AI, Some a => when (alive a) aiStep
              | _, _ => ret ()
              end (λ _,
           bind handleFoodCollisions (λ _,
             bind handleCollisionsSingleMode (λ _,
               bind setSpeedFromScore (λ _,
                 bind get (λ s2,
                   when (0 <? invisibleTailTicks s2)
                     (modify (set_invisibleTailTicks
                                (invisibleTailTicks s2 - 1)))))))))))).
  { intros d. apply calm_bind; [|intros _].
    { apply (sound_calm (λ _, True)); [done | apply sound_stepSnake]. }
    intros s1 Hs1. apply wp_bind_get. revert s1 Hs1.
    match goal with
    | |- ∀ s1, roomy s1 → wp (bind _ ?k) _ _ s1 =>
        cut (∀ u, calm (k u)); [|intros u; cbv beta; clear u]
    end.
    { intros Hk s1 Hs1. apply wp_bind.
      eapply wp_mono; [apply (aiMove_wp s1 Hs1) | | done].
      intros u s2 [Hs2 Hm2]. eapply wp_mono; [apply (Hk u), Hs2 | | done].
      intros v s3 [Hs3 Hm3]. split; [exact Hs3 | congruence]. }
    apply calm_bind; [apply calm_handleFoodCollisions | intros _].
    apply calm_bind; [|intros _].
    { apply (sound_calm allHeaded);
        [apply roomy_allHeaded | apply sound_handleCollisionsSingleMode]. }
    apply calm_bind; [|intros _].
    { apply (sound_calm (λ _, True)); [done|].
      apply sound_setSpeedFromScore, True_stable. }
    apply (sound_calm (λ _, True)); [done|]. apply sound_fade, True_stable. }
  unfold gameTick. apply wp_bind_modify, wp_bind_get.
  match goal with |- wp _ _ _ ?st => set (s1 := st) end.
  assert (Hs1 : roomy s1).
  { apply (roomy_grown s); [exact Hs|]. subst s1. grown_frame. }
  change (mode s1) with (mode s). change (playerDir s1) with (playerDir s).
  destruct Hmode as [Hm | Hm]; rewrite Hm; rewrite <- Hm;
    exact (Hrest (playerDir s) s1 Hs1).
Qed.

(** A tick of a solo or AI match returns normally, without a
    [TypeError], whenever the player snake exists and every snake has
    more than twice as many segments as there are special foods on the
    board; and the state it leaves has that property again, as long as
    no special food is spawned. In a match this holds in particular when
    every snake has at least three segments, the special foods being at
    most one: a snake of three segments or more cannot be emptied by a
    poison, and no read of a head fails. *)
Theorem tick_returns :
  (∀ s : State,
     mode s = Some Single ∨ mode s = Some AI →
     roomy s →
     ∃ s', gameTick s = Ok () s' ∧ roomy s') ∧
  (∀ s : State,
     reachable s →
     (∀ who sn, getSnake who s = Some sn → (3 ≤ length (body sn))%nat) →
     roomy s ∧ ∃ s', gameTick s = Ok () s').
Proof.
  assert (Hret : ∀ s, mode s = Some Single ∨ mode s = Some AI → roomy s →
                      ∃ s', gameTick s = Ok () s' ∧ roomy s').
  { intros s Hmode Hs. pose proof (calm_gameTick s Hmode Hs) as Hwp.
    unfold wp in Hwp. destruct (gameTick s) as [[] s'|s']; [|done].
    exists s'. split; [reflexivity | apply Hwp]. }
  split; [exact Hret|].
  intros s Hreach Hlen.
  pose proof (reachable_Inv s Hreach) as Hinv.
  pose proof (reachable_Wf s Hreach) as Hwf.
  assert (Hs : roomy s).
  { split; [apply (wf_player s Hwf)|]. intros who sn Hget.
    specialize (Hlen who sn Hget). pose proof (inv_special 1 s Hinv). lia. }
  split; [exact Hs|].
  destruct (Hret s (wf_mode s Hwf) Hs) as (s' & Hrun & _). eauto.
Qed.

Lemma tick_returns_witness : ∃ s', gameTick freshDuel = Ok () s'.
Proof.
  apply (proj2 tick_returns freshDuel reachable_freshDuel).
  intros [] sn [= <-]; simpl; lia.
Defined.

(** ** Drawing: the invisible tail *)

Lemma renderFrom_shown (len i : Z) (segs : list Cell) :
  renderFrom len i false segs = segs.
Proof.
  revert i. induction segs as [|seg segs IH]; intros i; simpl; [done|].
  now rewrite IH.
Qed.

Lemma renderFrom_hidden (len : Z) (segs : list Cell) :
  ∀ i, renderFrom len i true segs = take (Z.to_nat (len - 3 - i)) segs.
Proof.
  induction segs as [|seg segs IH]; intros i; simpl.
  - now rewrite take_nil.
  - rewrite IH. destruct (len - 4 <? i) eqn:Hi.
    + apply Z.ltb_lt in Hi.
      replace (Z.to_nat (len - 3 - i)) with 0%nat by lia.
      replace (Z.to_nat (len - 3 - (i + 1))) with 0%nat by lia.
      now rewrite take_0.
    + apply Z.ltb_ge in Hi.
      replace (Z.to_nat (len - 3 - i)) with (S (Z.to_nat (len - 3 - (i + 1)))) by lia.
      reflexivity.
Qed.

(** With [hideTail] set, [renderSnake] draws the body without its last
    three segments, in order from the head; a snake of three segments or
    fewer is not drawn at all, head included. Without it, the whole body
    is drawn. In a tick the player is drawn with [hideTail] set exactly
    while [invisibleTailTicks] is positive. *)
Theorem renderSnake_hides_tail (sn : Snake) :
  renderSnake (Some sn) true = take (length (body sn) - 3) (body sn) ∧
  renderSnake (Some sn) false = body sn ∧
  ((length (body sn) ≤ 3)%nat → renderSnake (Some sn) true = []) ∧
  (∀ s, playerSnake s = Some sn →
        renderPlayer s =
          if 0 <? invisibleTailTicks s
          then take (length (body sn) - 3) (body sn) else body sn).
Proof.
  assert (Hhidden : renderSnake (Some sn) true =
                      take (length (body sn) - 3) (body sn)).
  { unfold renderSnake. rewrite renderFrom_hidden. f_equal. lia. }
  assert (Hshown : renderSnake (Some sn) false = body sn).
  { unfold renderSnake. apply renderFrom_shown. }
  split; [exact Hhidden|]. split; [exact Hshown|]. split.
  - intros Hlen. rewrite Hhidden.
    replace (length (body sn) - 3)%nat with 0%nat by lia. apply take_0.
  - intros s Hp. unfold renderPlayer. rewrite Hp.
    now destruct (0 <? invisibleTailTicks s).
Qed.

Lemma renderSnake_hides_tail_witness :
  renderSnake (Some (makeSnake [mkCell 13 15; mkCell 12 15; mkCell 11 15])) true = [].
Proof.
  apply (proj1 (proj2 (proj2 (renderSnake_hides_tail
           (makeSnake [mkCell 13 15; mkCell 12 15; mkCell 11 15]))))).
  simpl. lia.
Defined.
